(** * Canonical entity resolver and intent-to-query compiler

    A shallow embedding of [lib/itemNormalizer.js] (text normalizer,
    similarity scorer, canonical resolver), of the query builder
    ([buildQueryPlan], [transformQueryResult], [executeQueryIntent])
    together with the intent schema, of the unwrapping of the answer in
    the interpreter route and of the formatting functions of the three
    order parsers, and the properties of the specification and of the
    code checked against them. *)

From Stdlib Require Import ZArith QArith Qround Qpower Qreduction List String Ascii
  Bool Lia Lqa.
From stdpp Require Import base gmap strings list.

Local Open Scope string_scope.
Local Open Scope list_scope.
Local Open Scope Z_scope.

(** ** Part I: the query builder *)

Module QueryBuilder.

(** *** The intent (queryIntentSchema) *)

(** [metric] is a string in the source; the schema admits the first four
    values and [buildQueryPlan] throws on any other one. *)
Inductive Metric :=
| revenue | orders | items_sold | per_item_revenue
| unknown_metric (s : string).

Inductive Dimension :=
| location | product | category | date | hour | fulfillment_method | provider.

Inductive SortBy := sort_value | sort_count | sort_name | sort_date.

Inductive SortOrder := asc | desc.

#[global] Instance Dimension_eq_dec : EqDecision Dimension.
Proof. solve_decision. Defined.

Record DateRange := { range_start : string; range_end : string }.

(** Every filter is optional: [None] is an absent key ([undefined]). *)
Record Filters := {
  date_range : option DateRange;
  locations : option (list string);
  fulfillmentMethods : option (list string);
  categories : option (list string);
  products : option (list string);
  providers : option (list string)
}.

Record QueryIntent := {
  metric : Metric;
  groupBy : list Dimension;
  filters : Filters;
  limit : option Z;
  sortBy : option SortBy;
  sortOrder : option SortOrder
}.

(** [groupBy.includes(dim)] *)
Definition includes (dim : Dimension) (l : list Dimension) : bool :=
  bool_decide (dim ∈ l).

(** Truthiness of an optional array: every array, even [[]], is truthy. *)
Definition truthy {A} (o : option A) : bool :=
  match o with Some _ => true | None => false end.

(** Truthiness of [xs?.length]. *)
Definition has_length {A} (o : option (list A)) : bool :=
  match o with Some (_ :: _) => true | _ => false end.

(** *** Dates: [new Date("YYYY-MM-DD")] and [setUTCHours] *)

(** A JS [Date] holds a time value: milliseconds since the epoch, or NaN
    (an invalid date), which is [None] here. *)
Definition jsdate := option Z.

Definition msPerDay : Z := 86400000.

Definition digit_of (a : ascii) : option Z :=
  let n := Z.of_N (N_of_ascii a) in
  if (48 <=? n) && (n <=? 57) then Some (n - 48) else None.

Fixpoint digits_value (acc : Z) (l : list ascii) : option Z :=
  match l with
  | [] => Some acc
  | a :: r =>
      match digit_of a with
      | Some d => digits_value (10 * acc + d) r
      | None => None
      end
  end.

(** Day number (days since 1970-01-01) of a civil date. *)
Definition days_from_civil (y m d : Z) : Z :=
  let y' := if m <=? 2 then y - 1 else y in
  let era := y' / 400 in
  let yoe := y' - era * 400 in
  let mp := if m <=? 2 then m + 9 else m - 3 in
  let doy := (153 * mp + 2) / 5 + d - 1 in
  let doe := yoe * 365 + yoe / 4 - yoe / 100 + doy in
  era * 146097 + doe - 719468.

(** [new Date(s)] for the date-only ISO form, the only one the intent
    schema admits: midnight UTC. The runtime (V8) takes a month from 01 to
    12 and a day from 01 to 31, and counts the days from the first of the
    month: a day past the end of the month falls into the next one
    ([2024-02-30] is March 1). A string of another form is taken as an
    invalid date. *)
Definition new_Date (s : string) : jsdate :=
  match list_ascii_of_string s with
  | [y1; y2; y3; y4; h1; m1; m2; h2; d1; d2] =>
      if Ascii.eqb h1 "-" && Ascii.eqb h2 "-" then
        match digits_value 0 [y1; y2; y3; y4],
              digits_value 0 [m1; m2], digits_value 0 [d1; d2] with
        | Some y, Some m, Some d =>
            if (1 <=? m) && (m <=? 12) && (1 <=? d) && (d <=? 31)
            then Some ((days_from_civil y m 1 + (d - 1)) * msPerDay)
            else None
        | _, _, _ => None
        end
      else None
  | _ => None
  end.

(** [d.setUTCHours(h, m, s, ms)]: keeps the UTC day of [d], replaces the
    time within the day. *)
Definition setUTCHours (d : jsdate) (h m s ms : Z) : jsdate :=
  match d with
  | Some t => Some (t / msPerDay * msPerDay + (h * 3600000 + m * 60000 + s * 1000 + ms))
  | None => None
  end.

(** *** The schema tables and the query plan *)

Inductive Table :=
| tbl_orders | tbl_orderItems | tbl_canonicalItems | tbl_canonicalCategories.

#[global] Instance Table_eq_dec : EqDecision Table.
Proof. solve_decision. Defined.

Record Column := Col { col_table : Table; col_name : string }.

#[global] Instance Column_eq_dec : EqDecision Column.
Proof. solve_decision. Defined.

Definition orders_orderId := Col tbl_orders "order_id".
Definition orders_storeId := Col tbl_orders "store_id".
Definition orders_fulfillmentMethod := Col tbl_orders "fulfillment_method".
Definition orders_createdAt := Col tbl_orders "created_at".
Definition orders_total := Col tbl_orders "total".
Definition orders_provider := Col tbl_orders "provider".
Definition orderItems_orderId := Col tbl_orderItems "order_id".
Definition orderItems_quantity := Col tbl_orderItems "quantity".
Definition orderItems_unitPrice := Col tbl_orderItems "unit_price".
Definition orderItems_canonicalItemId := Col tbl_orderItems "canonical_item_id".
Definition orderItems_canonicalCategoryId := Col tbl_orderItems "canonical_category_id".
Definition canonicalItems_id := Col tbl_canonicalItems "id".
Definition canonicalItems_canonicalName := Col tbl_canonicalItems "canonical_name".
Definition canonicalCategories_id := Col tbl_canonicalCategories "id".
Definition canonicalCategories_canonicalName := Col tbl_canonicalCategories "canonical_name".

(** SQL expressions the builder writes. *)
Inductive SQL :=
| sql_col (c : Column)
| sql_sum (e : SQL)
| sql_count (e : SQL)
| sql_mul (a b : SQL)
| sql_date (e : SQL)
| sql_date_trunc_hour (e : SQL)
| sql_raw (s : string).

#[global] Instance SQL_eq_dec : EqDecision SQL.
Proof. solve_decision. Defined.

(** Conditions: drizzle's [eq], [gte], [lte], [inArray], [and]. *)
#[warnings="-register-all"]
Inductive Cond :=
| c_eq (a b : Column)
| c_gte (c : Column) (d : jsdate)
| c_lte (c : Column) (d : jsdate)
| c_inArray (c : Column) (vs : list string)
| c_and (cs : list Cond).

Inductive JoinType := innerJoin | leftJoin.

Record Join := { join_type : JoinType; join_table : Table; join_on : Cond }.

Record QueryPlan := {
  q_select : list (string * SQL);
  q_from : Table;
  q_joins : list Join;
  q_where : option Cond;
  q_groupBy : list SQL;
  q_orderBy : option (SortOrder * SQL);
  q_limit : option Z
}.

Inductive result (A : Type) :=
| Ok (a : A)
| Throw (msg : string).
Arguments Ok {A} a.
Arguments Throw {A} msg.

(** [shape.key = e] on an object: an existing key keeps its place and
    gets the new value, a new key is added last. *)
Fixpoint set_key (key : string) (e : SQL) (shape : list (string * SQL))
  : list (string * SQL) :=
  match shape with
  | [] => [(key, e)]
  | (k, v) :: rest =>
      if String.eqb k key then (k, e) :: rest else (k, v) :: set_key key e rest
  end.

(** The metric switch: the value expression and [fromOrdersTable]. *)
Definition metricExpr (m : Metric) : result (SQL * bool) :=
  match m with
  | revenue => Ok (sql_sum (sql_col orders_total), true)
  | orders => Ok (sql_count (sql_col orders_orderId), true)
  | items_sold => Ok (sql_sum (sql_col orderItems_quantity), false)
  | per_item_revenue =>
      Ok (sql_sum (sql_mul (sql_col orderItems_unitPrice) (sql_col orderItems_quantity)), false)
  | unknown_metric s => Throw ("Unknown metric: " ++ s)%string
  end.

Definition set_if (b : bool) (key : string) (e : SQL) (shape : list (string * SQL)) :=
  if b then set_key key e shape else shape.

Definition selectShape (valueExpr : SQL) (groupBy : list Dimension) : list (string * SQL) :=
  let s0 := [("value", valueExpr)] in
  let s1 := set_if (includes location groupBy) "store_id" (sql_col orders_storeId) s0 in
  let s2 := set_if (includes product groupBy) "product" (sql_col canonicalItems_canonicalName) s1 in
  let s3 := set_if (includes category groupBy) "category" (sql_col canonicalCategories_canonicalName) s2 in
  let s4 := set_if (includes date groupBy) "created_at" (sql_date (sql_col orders_createdAt)) s3 in
  let s5 := set_if (includes hour groupBy) "created_at" (sql_date_trunc_hour (sql_col orders_createdAt)) s4 in
  let s6 := set_if (includes fulfillment_method groupBy) "fulfillment_method" (sql_col orders_fulfillmentMethod) s5 in
  set_if (includes provider groupBy) "provider" (sql_col orders_provider) s6.

Definition needOrdersJoin (f : Filters) (groupBy : list Dimension) : bool :=
  truthy (locations f) || truthy (fulfillmentMethods f) || truthy (date_range f)
  || truthy (providers f)
  || includes location groupBy || includes fulfillment_method groupBy
  || includes date groupBy || includes hour groupBy || includes provider groupBy.

Definition needOrderItemsJoin (f : Filters) (groupBy : list Dimension) : bool :=
  truthy (products f) || truthy (categories f)
  || includes product groupBy || includes category groupBy.

Definition on_order_id : Cond := c_eq orderItems_orderId orders_orderId.

Definition joinsOf (m : Metric) (f : Filters) (groupBy : list Dimension) : list Join :=
  let base :=
    match m with
    | items_sold | per_item_revenue =>
        if needOrdersJoin f groupBy
        then [ {| join_type := innerJoin; join_table := tbl_orders; join_on := on_order_id |} ]
        else []
    | revenue | orders =>
        if needOrderItemsJoin f groupBy
        then [ {| join_type := leftJoin; join_table := tbl_orderItems; join_on := on_order_id |} ]
        else []
    | unknown_metric _ => []
    end in
  let items :=
    if truthy (products f) || includes product groupBy
    then [ {| join_type := leftJoin; join_table := tbl_canonicalItems;
              join_on := c_eq orderItems_canonicalItemId canonicalItems_id |} ]
    else [] in
  let cats :=
    if truthy (categories f) || includes category groupBy
    then [ {| join_type := leftJoin; join_table := tbl_canonicalCategories;
              join_on := c_eq orderItems_canonicalCategoryId canonicalCategories_id |} ]
    else [] in
  base ++ items ++ cats.

(** The date-range condition, with the end moved to the end of its day. *)
Definition dateRangeCond (r : DateRange) : Cond :=
  let endOfDay := setUTCHours (new_Date (range_end r)) 23 59 59 999 in
  c_and [ c_gte orders_createdAt (new_Date (range_start r));
          c_lte orders_createdAt endOfDay ].

Definition inArray_if (o : option (list string)) (c : Column) : list Cond :=
  if has_length o then [c_inArray c (default [] o)] else [].

Definition whereConditions (f : Filters) : list Cond :=
  (match date_range f with Some r => [dateRangeCond r] | None => [] end)
  ++ inArray_if (locations f) orders_storeId
  ++ inArray_if (fulfillmentMethods f) orders_fulfillmentMethod
  ++ inArray_if (providers f) orders_provider
  ++ inArray_if (products f) canonicalItems_canonicalName
  ++ inArray_if (categories f) canonicalCategories_canonicalName.

(** One turn of the group-by loop: the state is [groupByColumns] and
    [groupByTimeExpr]. *)
Definition groupStep (st : list SQL * option SQL) (dim : Dimension)
  : list SQL * option SQL :=
  let '(cols, timeExpr) := st in
  match dim with
  | location => (cols ++ [sql_col orders_storeId], timeExpr)
  | product => (cols ++ [sql_col canonicalItems_canonicalName], timeExpr)
  | category => (cols ++ [sql_col canonicalCategories_canonicalName], timeExpr)
  | date =>
      let e := sql_date (sql_col orders_createdAt) in
      (cols ++ [e], Some e)
  | hour =>
      (cols ++ [sql_date (sql_col orders_createdAt)],
       Some (sql_date_trunc_hour (sql_col orders_createdAt)))
  | fulfillment_method => (cols ++ [sql_col orders_fulfillmentMethod], timeExpr)
  | provider => (cols ++ [sql_col orders_provider], timeExpr)
  end.

Definition groupLoop (groupBy : list Dimension) : list SQL * option SQL :=
  fold_left groupStep groupBy ([], None).

Definition sortColumn (s : SortBy) (groupByTimeExpr : option SQL) : option SQL :=
  match s with
  | sort_value => Some (sql_raw "value")
  | sort_count => Some (sql_raw "COUNT(*)")
  | sort_name => Some (sql_col canonicalItems_canonicalName)
  | sort_date => groupByTimeExpr
  end.

Definition orderByOf (s : option SortBy) (o : option SortOrder)
    (groupByTimeExpr : option SQL) : option (SortOrder * SQL) :=
  match s with
  | Some sb =>
      match sortColumn sb groupByTimeExpr with
      | Some c => Some (match o with Some desc => desc | _ => asc end, c)
      | None => None
      end
  | None => None
  end.

Definition buildQueryPlan (intent : QueryIntent) : result QueryPlan :=
  match metricExpr (metric intent) with
  | Throw msg => Throw msg
  | Ok (valueExpr, fromOrdersTable) =>
      let '(groupByColumns, groupByTimeExpr) := groupLoop (groupBy intent) in
      let conds := whereConditions (filters intent) in
      Ok {| q_select := selectShape valueExpr (groupBy intent);
            q_from := if fromOrdersTable then tbl_orders else tbl_orderItems;
            q_joins := joinsOf (metric intent) (filters intent) (groupBy intent);
            q_where := match conds with [] => None | _ => Some (c_and conds) end;
            q_groupBy := groupByColumns;
            q_orderBy := orderByOf (sortBy intent) (sortOrder intent) groupByTimeExpr;
            q_limit := match limit intent with
                       | Some n => if n =? 0 then None else Some n
                       | None => None
                       end |}
  end.

(** *** Reading a plan *)

(** The tables a plan reads from: the base relation and the joined ones. *)
Definition plan_tables (p : QueryPlan) : list Table :=
  q_from p :: map join_table (q_joins p).

(** Whether an expression is built from columns of the schema alone. A
    raw fragment is text for the database: [value] is a bare name, of no
    table. *)
Fixpoint raw_free (e : SQL) : bool :=
  match e with
  | sql_col _ => true
  | sql_sum a | sql_count a | sql_date a | sql_date_trunc_hour a => raw_free a
  | sql_mul a b => raw_free a && raw_free b
  | sql_raw _ => false
  end.

(** The tables of the columns an expression is built from; the names in
    a raw fragment are not among them, and the expressions read for their
    tables are the [raw_free] ones. *)
Fixpoint sql_tables (e : SQL) : list Table :=
  match e with
  | sql_col c => [col_table c]
  | sql_sum a | sql_count a | sql_date a | sql_date_trunc_hour a => sql_tables a
  | sql_mul a b => sql_tables a ++ sql_tables b
  | sql_raw _ => []
  end.

(** A value of a column in one joined row. A [timestamp] of the database
    has microseconds: [v_time t] is [t] microseconds since the epoch
    (UTC). *)
Inductive SqlVal := v_null | v_time (t : Z) | v_text (s : string).

#[global] Instance SqlVal_eq_dec : EqDecision SqlVal.
Proof. solve_decision. Defined.

(** Whether a joined row passes a condition. A comparison with NULL does
    not pass; an invalid date cannot be sent to the database ([None]); a
    valid one is sent with its milliseconds and compared with the
    microseconds of the column. *)
Fixpoint evalCond (env : Column -> SqlVal) (c : Cond) : option bool :=
  match c with
  | c_eq a b =>
      Some (match env a with
            | v_null => false
            | x => bool_decide (x = env b)
            end)
  | c_gte col d =>
      match d with
      | Some t0 => Some (match env col with v_time t => t0 * 1000 <=? t | _ => false end)
      | None => None
      end
  | c_lte col d =>
      match d with
      | Some t0 => Some (match env col with v_time t => t <=? t0 * 1000 | _ => false end)
      | None => None
      end
  | c_inArray col vs =>
      Some (match env col with v_text s => bool_decide (s ∈ vs) | _ => false end)
  | c_and cs =>
      (fix all (l : list Cond) : option bool :=
         match l with
         | [] => Some true
         | c' :: r =>
             match evalCond env c', all r with
             | Some a, Some b => Some (a && b)
             | _, _ => None
             end
         end) cs
  end.

(** *** transformQueryResult and executeQueryIntent *)

(** A field of a result row: [null] or a string. *)
Inductive Cell := null | text (s : string).

(** A result row is an object keyed by the names of the select shape; a
    key it does not have reads as [undefined]. *)
Abbreviation Row := (gmap string Cell).

Record QueryResultRow := { name : string; value : Q }.

(** [if (row.key) parts.push(row.key)]: a missing, null or empty field is
    falsy. *)
Definition part (o : option Cell) : list string :=
  match o with
  | Some (text s) => if String.eqb s "" then [] else [s]
  | _ => []
  end.

Section Execute.

(** [new Date(s).toLocaleString()], which depends on the locale. *)
Variable toLocaleString : string -> string.

(** [Number(v)]: [None] is NaN. *)
Variable Number : option Cell -> option Q.

(** The database: the tuples it answers a plan with, one field per entry
    of the select shape, or a failure. *)
Variable db : QueryPlan -> result (list (list Cell)).

Definition rowParts (row : Row) : list string :=
  part (row !! "store_id") ++ part (row !! "canonical_name")
  ++ part (row !! "fulfillment_method") ++ part (row !! "provider")
  ++ map toLocaleString (part (row !! "created_at")).

Definition rowName (row : Row) (groupBy : list Dimension) : string :=
  match groupBy with
  | [] => "Total"
  | _ =>
      match rowParts row with
      | [] => "Total"
      | parts => String.concat " - " parts
      end
  end.

(** [Number(row.value) || 0] *)
Definition rowValue (row : Row) : Q :=
  match Number (row !! "value") with
  | Some q => q
  | None => 0%Q
  end.

Definition transformQueryResult (data : list Row) (groupBy : list Dimension)
  : list QueryResultRow :=
  map (fun row => {| name := rowName row groupBy; value := rowValue row |}) data.

(** The row object built for one tuple: the keys of the select shape, in
    order, with the fields of the tuple. *)
Definition row_of (p : QueryPlan) (tuple : list Cell) : Row :=
  list_to_map (zip (map fst (q_select p)) tuple).

Definition executeQueryIntent (intent : QueryIntent) : result (list QueryResultRow) :=
  match buildQueryPlan intent with
  | Throw msg => Throw msg
  | Ok query =>
      match db query with
      | Throw msg => Throw msg
      | Ok tuples =>
          Ok (transformQueryResult (map (row_of query) tuples) (groupBy intent))
      end
  end.

End Execute.

(** The intent schema: what [QueryIntentSchema.parse] lets through. *)
Definition valid_metric (m : Metric) : bool :=
  match m with unknown_metric _ => false | _ => true end.

Definition valid_date_string (s : string) : bool :=
  match list_ascii_of_string s with
  | [y1; y2; y3; y4; h1; m1; m2; h2; d1; d2] =>
      Ascii.eqb h1 "-" && Ascii.eqb h2 "-"
      && match digits_value 0 [y1; y2; y3; y4],
               digits_value 0 [m1; m2], digits_value 0 [d1; d2] with
         | Some _, Some m, Some d => (1 <=? m) && (m <=? 12) && (1 <=? d) && (d <=? 31)
         | _, _, _ => false
         end
  | _ => false
  end.

(** An optional array over a closed enumeration. *)
Definition all_of (allowed : list string) (o : option (list string)) : bool :=
  match o with
  | Some l => forallb (fun s => bool_decide (s ∈ allowed)) l
  | None => true
  end.

Definition validated (intent : QueryIntent) : bool :=
  valid_metric (metric intent)
  && negb (Nat.eqb (length (groupBy intent)) 0)
  && match date_range (filters intent) with
     | Some r => valid_date_string (range_start r) && valid_date_string (range_end r)
     | None => true
     end
  && all_of ["airport"; "downtown"; "mall"; "university"] (locations (filters intent))
  && all_of ["delivery"; "pickup"; "dine_in"] (fulfillmentMethods (filters intent))
  && all_of ["location"; "product"; "category"; "time"; "fulfillment_method"; "provider"]
       (providers (filters intent)).

(** *** Vocabulary of the properties and sample intents *)

Definition no_filters : Filters :=
  {| date_range := None; locations := None; fulfillmentMethods := None;
     categories := None; products := None; providers := None |}.

Definition order_level_filter (f : Filters) : bool :=
  truthy (locations f) || truthy (fulfillmentMethods f)
  || truthy (date_range f) || truthy (providers f).

Definition join_orders : Join :=
  {| join_type := innerJoin; join_table := tbl_orders; join_on := on_order_id |}.

Definition join_categories : Join :=
  {| join_type := leftJoin; join_table := tbl_canonicalCategories;
     join_on := c_eq orderItems_canonicalCategoryId canonicalCategories_id |}.

Definition items_sold_by_category : QueryIntent :=
  {| metric := items_sold; groupBy := [category]; filters := no_filters;
     limit := None; sortBy := None; sortOrder := None |}.

Definition items_sold_by_category_in (stores : list string) : QueryIntent :=
  {| metric := items_sold; groupBy := [category];
     filters := {| date_range := None; locations := Some stores;
                   fulfillmentMethods := None; categories := None;
                   products := None; providers := None |};
     limit := None; sortBy := None; sortOrder := None |}.

Definition by_hour : QueryIntent :=
  {| metric := revenue; groupBy := [hour]; filters := no_filters;
     limit := None; sortBy := None; sortOrder := None |}.

Definition by_date_and_hour : QueryIntent :=
  {| metric := orders; groupBy := [date; hour]; filters := no_filters;
     limit := None; sortBy := None; sortOrder := None |}.

Definition day_of_order : SQL := sql_date (sql_col orders_createdAt).
Definition hour_of_order : SQL := sql_date_trunc_hour (sql_col orders_createdAt).

(** [shape.key] *)
Fixpoint get_key (key : string) (shape : list (string * SQL)) : option SQL :=
  match shape with
  | [] => None
  | (k, v) :: rest => if String.eqb k key then Some v else get_key key rest
  end.

Definition revenue_by_location_sorted_by_name : QueryIntent :=
  {| metric := revenue; groupBy := [location]; filters := no_filters;
     limit := None; sortBy := Some sort_name; sortOrder := None |}.

Definition march_range : DateRange :=
  {| range_start := "2024-03-01"; range_end := "2024-03-10" |}.

Definition march_first_to_tenth : QueryIntent :=
  {| metric := revenue; groupBy := [date];
     filters := {| date_range := Some march_range;
                   locations := None; fulfillmentMethods := None;
                   categories := None; products := None; providers := None |};
     limit := None; sortBy := None; sortOrder := None |}.

(** An order created [t] microseconds after the epoch. *)
Definition order_at (t : Z) : Column -> SqlVal :=
  fun c => if decide (c = orders_createdAt) then v_time t else v_null.

(** The parts of the label that do not come from a canonical name. *)
Definition partsOmittingName (toLocaleString : string -> string) (row : Row) : list string :=
  part (row !! "store_id") ++ part (row !! "fulfillment_method")
  ++ part (row !! "provider") ++ map toLocaleString (part (row !! "created_at")).

Definition labelOmittingName (toLocaleString : string -> string) (row : Row) : string :=
  match partsOmittingName toLocaleString row with
  | [] => "Total"
  | parts => String.concat " - " parts
  end.

Definition revenue_by_product : QueryIntent :=
  {| metric := revenue; groupBy := [product]; filters := no_filters;
     limit := None; sortBy := None; sortOrder := None |}.

(** The row [{store_id: "downtown", canonical_name: "Latte"}]. *)
Definition downtown_latte : Row :=
  <["store_id" := text "downtown"]> (<["canonical_name" := text "Latte"]> ∅).

(** A database holding the single tuple (12.5, Latte). *)
Definition latte_db : QueryPlan -> result (list (list Cell)) :=
  fun _ => Ok [[text "12.5"; text "Latte"]].

(** The keys a select shape can have. *)
Definition shape_keys : list string :=
  ["value"; "store_id"; "product"; "category"; "created_at";
   "fulfillment_method"; "provider"].


(** *** Vocabulary of the further properties *)

(** The tables a condition mentions. *)
Fixpoint cond_tables (c : Cond) : list Table :=
  match c with
  | c_eq a b => [col_table a; col_table b]
  | c_gte col _ | c_lte col _ | c_inArray col _ => [col_table col]
  | c_and cs =>
      (fix all (l : list Cond) : list Table :=
         match l with
         | [] => []
         | c' :: r => cond_tables c' ++ all r
         end) cs
  end.

(** The column the group-by loop pushes for one dimension. *)
Definition dimColumn (d : Dimension) : SQL :=
  match d with
  | location => sql_col orders_storeId
  | product => sql_col canonicalItems_canonicalName
  | category => sql_col canonicalCategories_canonicalName
  | date | hour => sql_date (sql_col orders_createdAt)
  | fulfillment_method => sql_col orders_fulfillmentMethod
  | provider => sql_col orders_provider
  end.

(** The label column the select shape has for the time dimensions. *)
Definition timeLabel (groupBy : list Dimension) : list (string * SQL) :=
  if includes hour groupBy then [("created_at", hour_of_order)]
  else if includes date groupBy then [("created_at", day_of_order)]
  else [].

(** The label columns of a select shape, in the order of its keys. *)
Definition labelColumns (groupBy : list Dimension) : list (string * SQL) :=
  (if includes location groupBy then [("store_id", sql_col orders_storeId)] else [])
  ++ (if includes product groupBy
      then [("product", sql_col canonicalItems_canonicalName)] else [])
  ++ (if includes category groupBy
      then [("category", sql_col canonicalCategories_canonicalName)] else [])
  ++ timeLabel groupBy
  ++ (if includes fulfillment_method groupBy
      then [("fulfillment_method", sql_col orders_fulfillmentMethod)] else [])
  ++ (if includes provider groupBy then [("provider", sql_col orders_provider)] else []).

(** An array filter that is absent or empty. *)
Definition drop_empty (o : option (list string)) : option (list string) :=
  match o with
  | Some [] => None
  | _ => o
  end.

(** The filters with every empty array left out. *)
Definition without_empty (f : Filters) : Filters :=
  {| date_range := date_range f;
     locations := drop_empty (locations f);
     fulfillmentMethods := drop_empty (fulfillmentMethods f);
     categories := drop_empty (categories f);
     products := drop_empty (products f);
     providers := drop_empty (providers f) |}.

Definition with_filters (intent : QueryIntent) (f : Filters) : QueryIntent :=
  {| metric := metric intent; groupBy := groupBy intent; filters := f;
     limit := limit intent; sortBy := sortBy intent; sortOrder := sortOrder intent |}.

(** Every join condition mentions only the joined table itself and the
    tables that are in the query before it. *)
Fixpoint joins_scoped (seen : list Table) (js : list Join) : bool :=
  match js with
  | [] => true
  | j :: r =>
      forallb (fun t => bool_decide (t ∈ join_table j :: seen)) (cond_tables (join_on j))
      && joins_scoped (join_table j :: seen) r
  end.

Definition orders_by_hour_then_date_latest_first : QueryIntent :=
  {| metric := orders; groupBy := [hour; location; date]; filters := no_filters;
     limit := None; sortBy := Some sort_date; sortOrder := Some desc |}.

Definition revenue_by_location_of_no_products : QueryIntent :=
  {| metric := revenue; groupBy := [location];
     filters := {| date_range := None; locations := None; fulfillmentMethods := None;
                   categories := None; products := Some []; providers := None |};
     limit := None; sortBy := None; sortOrder := None |}.

End QueryBuilder.

(** ** Part II: the item normalizer *)

Module Normalizer.

Local Open Scope N_scope.

(** *** Strings *)

(** A JS string is a sequence of UTF-16 code units. *)
Definition jsstring := list N.

(** An ASCII literal as a JS string. *)
Definition js (s : string) : jsstring :=
  map N_of_ascii (list_ascii_of_string s).

(** The primitives of [String.prototype] that depend on the Unicode
    tables of the runtime. *)
Class StringPrims := {
  toLowerCase : jsstring -> jsstring;
  toUpperCase : jsstring -> jsstring;
  normalizeNFKD : jsstring -> jsstring
}.

Definition in_range (lo hi c : N) : bool := (lo <=? c) && (c <=? hi).

Definition is_lower (c : N) : bool := in_range 97 122 c.
Definition is_upper (c : N) : bool := in_range 65 90 c.
Definition is_digit (c : N) : bool := in_range 48 57 c.

(** [\w] *)
Definition is_word (c : N) : bool :=
  is_lower c || is_upper c || is_digit c || (c =? 95).

(** [\s]: white space and line terminators. *)
Definition is_space (c : N) : bool :=
  in_range 9 13 c || (c =? 32) || (c =? 160) || (c =? 5760)
  || in_range 8192 8202 c || (c =? 8232) || (c =? 8233) || (c =? 8239)
  || (c =? 8287) || (c =? 12288) || (c =? 65279).

(** Number of leading code units of [s] in the class [p]. *)
Fixpoint run (p : N -> bool) (s : jsstring) : nat :=
  match s with
  | c :: r => if p c then S (run p r) else O
  | [] => O
  end.

(** [\b] after a word character: the input ends or goes on with a
    non-word character. *)
Definition word_end (s : jsstring) : bool :=
  match s with
  | [] => true
  | c :: _ => negb (is_word c)
  end.

(** [\b] before a word character: the input starts here or the previous
    code unit is a non-word character. *)
Definition word_start (prev : option N) : bool :=
  match prev with
  | None => true
  | Some c => negb (is_word c)
  end.

(** *** Regular expressions *)

(** A regular expression tried at one index: it sees the code unit before
    the index and the input from the index on, and answers with the length
    of its match. *)
Definition matcher := option N -> jsstring -> option nat.

(** [s.replace(re, repl)] with the [g] flag: the expression is tried at
    each index from the left; a match is replaced and the scan resumes
    after it, otherwise the code unit is kept. [skip] counts the code
    units of the current match that are still to be passed over. *)
Fixpoint replace_g (re : matcher) (repl : jsstring) (skip : nat)
    (prev : option N) (s : jsstring) : jsstring :=
  match s with
  | [] => []
  | c :: rest =>
      match skip with
      | S k => replace_g re repl k (Some c) rest
      | O =>
          match re prev s with
          | Some (S k) => repl ++ replace_g re repl k (Some c) rest
          | _ => c :: replace_g re repl O (Some c) rest
          end
      end
  end.

(** [s.replace(re, repl)] without the [g] flag: the first match only. *)
Fixpoint replace_first (re : matcher) (repl : jsstring)
    (prev : option N) (s : jsstring) : jsstring :=
  match s with
  | [] => []
  | c :: rest =>
      match re prev s with
      | Some (S k) => repl ++ drop (S k) s
      | _ => c :: replace_first re repl (Some c) rest
      end
  end.

(** [/[\u{1F300}-\u{1FAFF}]/u]: a surrogate pair whose code point is in
    the range. *)
Definition emoji_pair (hi lo : N) : bool :=
  in_range 55296 56319 hi && in_range 56320 57343 lo
  && in_range 127744 129791 (65536 + (hi - 55296) * 1024 + (lo - 56320)).

Definition re_emoji : matcher := fun _ s =>
  match s with
  | hi :: lo :: _ => if emoji_pair hi lo then Some 2%nat else None
  | _ => None
  end.

(** [/[^a-z0-9\s]/] *)
Definition kept (c : N) : bool := is_lower c || is_digit c || is_space c.

Definition re_special : matcher := fun _ s =>
  match s with
  | c :: _ => if kept c then None else Some 1%nat
  | [] => None
  end.

(** [/\s*pcs?\b/]: white space, then [pc], then [s] if a word boundary
    follows it, else a word boundary right after [pc]. *)
Definition re_pcs : matcher := fun _ s =>
  let n := run is_space s in
  match drop n s with
  | 112 :: 99 :: r =>
      match r with
      | 115 :: r' =>
          if word_end r' then Some (n + 3)%nat
          else if word_end r then Some (n + 2)%nat else None
      | _ => if word_end r then Some (n + 2)%nat else None
      end
  | _ => None
  end.

(** [/\b\d+\b/]: a whole run of digits between two word boundaries. *)
Definition re_number : matcher := fun prev s =>
  let n := run is_digit s in
  if word_start prev && negb (Nat.eqb n 0) && word_end (drop n s)
  then Some n else None.

(** [/\s+/] *)
Definition re_spaces : matcher := fun _ s =>
  match run is_space s with
  | O => None
  | n => Some n
  end.

(** [s.trim()] *)
Fixpoint trimEnd (s : jsstring) : jsstring :=
  match s with
  | [] => []
  | c :: r =>
      match trimEnd r with
      | [] => if is_space c then [] else [c]
      | r' => c :: r'
      end
  end.

Definition trimStart (s : jsstring) : jsstring := drop (run is_space s) s.

Definition trim (s : jsstring) : jsstring := trimEnd (trimStart s).

(** *** normalizeText *)

Section WithPrims.
Context {prims : StringPrims}.

(** The chain of calls on a non-empty string. *)
Definition normalizeChain (str : jsstring) : jsstring :=
  let s1 := toLowerCase str in
  let s2 := normalizeNFKD s1 in
  let s3 := replace_g re_emoji [] 0 None s2 in
  let s4 := replace_g re_special [] 0 None s3 in
  let s5 := replace_g re_pcs [] 0 None s4 in
  let s6 := replace_g re_number [] 0 None s5 in
  let s7 := replace_g re_spaces [32] 0 None s6 in
  trim s7.

(** [None] is [null]. *)
Definition normalizeText (str : jsstring) : option jsstring :=
  match str with
  | [] => None
  | _ => Some (normalizeChain str)
  end.

End WithPrims.

(** *** similarity *)

(** [levenshtein.get]: the edit distance with unit costs, on code units. *)
Fixpoint levenshtein (a : jsstring) : jsstring -> nat :=
  match a with
  | [] => fun b => length b
  | x :: a' =>
      fix inner (b : jsstring) : nat :=
        match b with
        | [] => S (length a')
        | y :: b' =>
            Nat.min (Nat.min (S (levenshtein a' b)) (S (inner b')))
                    (levenshtein a' b' + (if N.eqb x y then 0 else 1))%nat
        end
  end.

(** **** Numbers

    A JS number is an IEEE 754 double: 53 significant bits, exponents
    from -1022, subnormals below. A finite double is a rational, and the
    result of an operation is the exact result rounded to the nearest
    double, ties to even. The scorer stays within [0, 1]: the overflow to
    Infinity is left out, and [-0] is [0]. *)

(** Round to the nearest integer, ties to even. *)
Definition round_even (x : Q) : Z :=
  let f := Qfloor x in
  match (x - inject_Z f ?= 1 # 2)%Q with
  | Lt => f
  | Gt => (f + 1)%Z
  | Eq => if Z.even f then f else (f + 1)%Z
  end.

(** The exponent [e] of a positive rational: [2 ^ e <= x < 2 ^ (e + 1)]. *)
Definition log2_floor (x : Q) : Z :=
  let e := (Z.log2 (Qnum x) - Z.log2 (Zpos (Qden x)))%Z in
  if Qle_bool (2 ^ e) x then e else (e - 1)%Z.

(** The exponent of the double below a positive rational: that of the
    rational, at least -1022. *)
Definition expo (x : Q) : Z := Z.max (log2_floor x) (-1022).

(** The spacing of the doubles around a positive rational. *)
Definition ulp (x : Q) : Q := (2 ^ (expo x - 52))%Q.

(** The double nearest to a positive rational. *)
Definition nearest (x : Q) : Q :=
  (inject_Z (round_even (x / ulp x)) * ulp x)%Q.

(** The double nearest to a rational. *)
Definition double (x : Q) : Q :=
  let x := Qred x in
  match (x ?= 0)%Q with
  | Eq => 0%Q
  | Gt => Qred (nearest x)
  | Lt => Qred (- nearest (- x))
  end.

(** A positive double: at most 53 significant bits at an exponent from
    -1022, fewer below [2 ^ -1022]. *)
Definition representable (x : Q) : Prop :=
  exists n e : Z,
    (-1022 <= e)%Z /\ (x == inject_Z n * 2 ^ (e - 52))%Q
    /\ ((2 ^ 52 <= n < 2 ^ 53)%Z \/ (e = -1022 /\ 0 < n < 2 ^ 52)%Z).

(** [x / y] and [x - y] on finite numbers, [y] not zero. *)
Definition js_div (x y : Q) : Q := double (x / y).
Definition js_sub (x y : Q) : Q := double (x - y).

(** A JS number as far as the resolver uses it: NaN or a finite double. *)
Inductive jsnum :=
| NaN
| Num (q : Q).

(** The greatest length of a JS string, [2 ^ 53 - 1] code units. *)
Definition max_string_length : Z := 9007199254740991.

(** [1 - dist / maxLen] for a distance and a positive length. A list of
    more than [max_string_length] code units is no JS string; for such a
    list the score is left unrounded. *)
Definition score_at (dist maxLen : nat) : Q :=
  let d := inject_Z (Z.of_nat dist) in
  let m := inject_Z (Z.of_nat maxLen) in
  if (Z.of_nat maxLen <=? max_string_length)%Z
  then js_sub 1 (js_div d m)
  else (1 - d / m)%Q.

(** [1 - dist / Math.max(a.length, b.length)]; [0 / 0] is NaN. *)
Definition similarity (a b : jsstring) : jsnum :=
  let dist := levenshtein a b in
  let maxLen := Nat.max (length a) (length b) in
  match maxLen with
  | O => NaN
  | _ => Num (score_at dist maxLen)
  end.

(** *** The canonical tables (the store behind the supabase client) *)

Inductive EntityType := item | category.

#[global] Instance EntityType_eq_dec : EqDecision EntityType.
Proof. solve_decision. Defined.

Record CanonicalRow := {
  id : nat;
  canonical_name : jsstring;
  normalized_name : jsstring
}.

Record MappingRow := {
  raw_name : jsstring;
  normalized_raw_name : jsstring;
  canonical_id : nat;
  mapping_method : string;
  confidence : Q
}.

(** The two tables of one entity type. The mapping table has a unique
    index on the normalized raw name: it is a finite map keyed by it. The
    canonical table is scanned in row order. *)
Record Tables := {
  mappings : gmap jsstring MappingRow;
  canonicals : list CanonicalRow;
  next_id : nat
}.

Record Store := {
  item_tables : Tables;
  category_tables : Tables
}.

Definition tables_of (st : Store) (entityType : EntityType) : Tables :=
  match entityType with
  | item => item_tables st
  | category => category_tables st
  end.

Definition set_tables (st : Store) (entityType : EntityType) (t : Tables) : Store :=
  match entityType with
  | item => {| item_tables := t; category_tables := category_tables st |}
  | category => {| item_tables := item_tables st; category_tables := t |}
  end.

Inductive StoreError := unique_violation | not_null_violation | unavailable.

(** Which of the calls of one resolution the store fails for a reason of
    its own. *)
Record Faults := {
  lookup_fails : bool;
  scan_fails : bool;
  insert_canonical_fails : bool;
  insert_mapping_fails : bool
}.

Definition no_faults : Faults :=
  {| lookup_fails := false; scan_fails := false;
     insert_canonical_fails := false; insert_mapping_fails := false |}.

(** [from(mappingTable).select(canonicalField).eq(mappingField, normalized).single()]:
    the [data] of the answer. *)
Definition select_mapping (f : Faults) (t : Tables) (normalized : jsstring)
  : option nat :=
  if lookup_fails f then None
  else canonical_id <$> (mappings t !! normalized).

(** [from(canonicalTable).select('*')]: the [data] of the answer. *)
Definition select_canonicals (f : Faults) (t : Tables) : option (list CanonicalRow) :=
  if scan_fails f then None else Some (canonicals t).

(** [from(canonicalTable).insert({...}).select().single()]: [data] or
    [error]. The normalized name is not null and unique. The id of the new
    row, a random uuid in the database, is drawn from a counter. *)
Definition insert_canonical (f : Faults) (t : Tables)
    (name : jsstring) (normalized : option jsstring)
  : (CanonicalRow + StoreError) * Tables :=
  if insert_canonical_fails f then (inr unavailable, t)
  else
    match normalized with
    | None => (inr not_null_violation, t)
    | Some n =>
        if bool_decide (n ∈ normalized_name <$> canonicals t)
        then (inr unique_violation, t)
        else
          let row := {| id := next_id t; canonical_name := name;
                        normalized_name := n |} in
          (inl row,
           {| mappings := mappings t;
              canonicals := canonicals t ++ [row];
              next_id := S (next_id t) |})
    end.

(** [from(mappingTable).insert({...})]: the [error] of the answer. *)
Definition insert_mapping (f : Faults) (t : Tables) (row : MappingRow)
  : option StoreError * Tables :=
  if insert_mapping_fails f then (Some unavailable, t)
  else
    match mappings t !! normalized_raw_name row with
    | Some _ => (Some unique_violation, t)
    | None =>
        (None,
         {| mappings := <[normalized_raw_name row := row]> (mappings t);
            canonicals := canonicals t;
            next_id := next_id t |})
    end.

(** *** resolveCanonical *)

Definition Qlt_bool (a b : Q) : bool := negb (Qle_bool b a).

(** [entityType === 'item' ? 0.8 : 0.75]: a literal is the double nearest
    to its decimal. *)
Definition defaultThreshold (entityType : EntityType) : Q :=
  match entityType with
  | item => double (8 # 10)
  | category => double (75 # 100)
  end.

(** [/\b\d+\s*pcs?\b/i] *)
Definition re_quantity : matcher := fun prev s =>
  let n := run is_digit s in
  let r0 := drop n s in
  let k := run is_space r0 in
  if word_start prev && negb (Nat.eqb n 0) then
    match drop k r0 with
    | p :: c :: r =>
        if ((p =? 112) || (p =? 80)) && ((c =? 99) || (c =? 67)) then
          match r with
          | x :: r' =>
              if ((x =? 115) || (x =? 83)) && word_end r' then Some (n + k + 3)%nat
              else if word_end r then Some (n + k + 2)%nat else None
          | [] => Some (n + k + 2)%nat
          end
        else None
    | _ => None
    end
  else None.

(** [s.split(' ')] and [l.join(' ')] *)
Fixpoint split_on (sep : N) (s : jsstring) : list jsstring :=
  match s with
  | [] => [[]]
  | c :: r =>
      if c =? sep then [] :: split_on sep r
      else match split_on sep r with
           | t :: ts => (c :: t) :: ts
           | [] => [[c]]
           end
  end.

Fixpoint join_with (sep : N) (l : list jsstring) : jsstring :=
  match l with
  | [] => []
  | [t] => t
  | t :: ts => t ++ sep :: join_with sep ts
  end.

Inductive Outcome :=
| Returned (canonicalId : option nat)
| Thrown (e : StoreError).

Section Resolver.
Context {prims : StringPrims}.

(** [w.charAt(0).toUpperCase() + w.slice(1)] *)
Definition capitalize (w : jsstring) : jsstring :=
  match w with
  | [] => []
  | c :: r => toUpperCase [c] ++ r
  end.

Definition canonicalNameOf (entityType : EntityType)
    (rawName normalized : jsstring) : jsstring :=
  match entityType with
  | category => join_with 32 (map capitalize (split_on 32 normalized))
  | item => trim (replace_first re_quantity [] None rawName)
  end.

(** One turn of the scan over the canonical entries: the state is
    [bestMatch] and [bestScore]. A comparison with NaN is false. *)
Definition bestStep (normalized : jsstring)
    (best : option CanonicalRow * Q) (entry : CanonicalRow)
  : option CanonicalRow * Q :=
  match similarity normalized (normalized_name entry) with
  | Num score => if Qlt_bool (snd best) score then (Some entry, score) else best
  | NaN => best
  end.

Definition bestOf (normalized : jsstring) (entries : list CanonicalRow)
  : option CanonicalRow * Q :=
  fold_left (bestStep normalized) entries (None, 0%Q).

(** Step 4: a new canonical entry and its mapping. *)
Definition createCanonical (f : Faults) (st : Store) (entityType : EntityType)
    (rawName normalized : jsstring) : Outcome * Store :=
  let t := tables_of st entityType in
  let canonicalName := canonicalNameOf entityType rawName normalized in
  match insert_canonical f t canonicalName (normalizeText canonicalName) with
  | (inr error, _) => (Thrown error, st)
  | (inl newEntry, t1) =>
      let '(_, t2) :=
        insert_mapping f t1
          {| raw_name := rawName; normalized_raw_name := normalized;
             canonical_id := id newEntry; mapping_method := "created";
             confidence := 1%Q |} in
      (Returned (Some (id newEntry)), set_tables st entityType t2)
  end.

Definition resolveCanonical (f : Faults) (st : Store)
    (rawName : option jsstring) (entityType : EntityType)
    (fuzzyThreshold : option Q) : Outcome * Store :=
  match rawName with
  | None | Some [] => (Returned None, st)
  | Some raw =>
      let threshold := default (defaultThreshold entityType) fuzzyThreshold in
      let normalized := normalizeChain raw in
      let t := tables_of st entityType in
      match select_mapping f t normalized with
      | Some existing => (Returned (Some existing), st)
      | None =>
          let entries := default [] (select_canonicals f t) in
          match bestOf normalized entries with
          | (Some bestMatch, bestScore) =>
              if Qle_bool threshold bestScore then
                let '(_, t') :=
                  insert_mapping f t
                    {| raw_name := raw; normalized_raw_name := normalized;
                       canonical_id := id bestMatch; mapping_method := "fuzzy";
                       confidence := bestScore |} in
                (Returned (Some (id bestMatch)), set_tables st entityType t')
              else createCanonical f st entityType raw normalized
          | (None, _) => createCanonical f st entityType raw normalized
          end
      end
  end.

End Resolver.

(** *** The primitives on ASCII strings *)

Definition ascii_lower (c : N) : N := if is_upper c then c + 32 else c.
Definition ascii_upper (c : N) : N := if is_lower c then c - 32 else c.

(** On ASCII input lowercasing and uppercasing act letter by letter and
    the compatibility decomposition changes nothing. *)
Definition ascii_prims : StringPrims :=
  {| toLowerCase := map ascii_lower;
     toUpperCase := map ascii_upper;
     normalizeNFKD := fun s => s |}.

(** *** Vocabulary of the properties and sample stores *)

(** The code units of a normalized string: [a-z], [0-9] and the space. *)
Definition plain (c : N) : bool := is_lower c || is_digit c || (c =? 32).

(** What the runtime guarantees of its primitives on such strings. *)
Class StringPrimsLaws (prims : StringPrims) : Prop := {
  toLowerCase_plain : forall s, forallb plain s = true -> toLowerCase s = s;
  normalizeNFKD_plain : forall s, forallb plain s = true -> normalizeNFKD s = s
}.

Definition non_space (c : N) : bool := negb (is_space c).

(** The maximal runs of non-space code units of a string, in order. *)
Fixpoint tokens (s : jsstring) : list jsstring :=
  match s with
  | [] => []
  | c :: r =>
      if is_space c then tokens r
      else
        match r with
        | [] => [[c]]
        | c' :: _ =>
            if is_space c' then [c] :: tokens r
            else match tokens r with
                 | t :: ts => (c :: t) :: ts
                 | [] => [[c]]
                 end
        end
  end.

(** A token that is not a number. *)
Definition not_number (t : jsstring) : bool := negb (forallb is_digit t).

(** The input is over or goes on with a space. *)
Definition at_space (s : jsstring) : bool :=
  match s with
  | [] => true
  | c :: _ => is_space c
  end.

(** A token of the normal form: not empty, without space, over the class [p]. *)
Definition good_token (p : N -> bool) (t : jsstring) : Prop :=
  t <> [] /\ forallb non_space t = true /\ forallb p t = true.

Section ChainSpec.
Context {prims : StringPrims}.

(** The string the last three steps of the chain work on. *)
Definition cleaned (str : jsstring) : jsstring :=
  replace_g re_pcs [] 0 None
    (replace_g re_special [] 0 None
       (replace_g re_emoji [] 0 None (normalizeNFKD (toLowerCase str)))).

(** [normalize(normalize(x))], with [normalize(null) = null]. *)
Definition normalizeTwice (x : jsstring) : option jsstring :=
  match normalizeText x with
  | Some y => normalizeText y
  | None => None
  end.

End ChainSpec.


(** A score within [0, 1]; NaN is not. *)
Definition in_unit_interval (x : jsnum) : Prop :=
  match x with
  | Num q => (0 <= q <= 1)%Q
  | NaN => False
  end.

(** The formula of the scorer, [1 - editDistance(a, b) / max(len(a), len(b))]
    on numbers. *)
Definition similarity_formula (a b : jsstring) : Q :=
  score_at (levenshtein a b) (Nat.max (length a) (length b)).

Section ResolverSpec.
Context {prims : StringPrims}.

Definition score_of (normalized : jsstring) (e : CanonicalRow) : jsnum :=
  similarity normalized (normalized_name e).


Definition thresholdOf (entityType : EntityType) (fuzzyThreshold : option Q) : Q :=
  default (defaultThreshold entityType) fuzzyThreshold.

(** The entries the scan of step 2 sees. *)
Definition entriesOf (f : Faults) (st : Store) (entityType : EntityType)
  : list CanonicalRow :=
  default [] (select_canonicals f (tables_of st entityType)).

Definition fuzzyRow (raw normalized : jsstring) (best : CanonicalRow) (score : Q)
  : MappingRow :=
  {| raw_name := raw; normalized_raw_name := normalized;
     canonical_id := id best; mapping_method := "fuzzy"; confidence := score |}.

Definition createdRow (raw normalized : jsstring) (newEntry : CanonicalRow)
  : MappingRow :=
  {| raw_name := raw; normalized_raw_name := normalized;
     canonical_id := id newEntry; mapping_method := "created"; confidence := 1%Q |}.

(** Step 3 takes the best entry. *)
Definition fuzzyAccepted (f : Faults) (st : Store) (raw : jsstring)
    (entityType : EntityType) (fuzzyThreshold : option Q) : bool :=
  match bestOf (normalizeChain raw) (entriesOf f st entityType) with
  | (Some _, bestScore) => Qle_bool (thresholdOf entityType fuzzyThreshold) bestScore
  | (None, _) => false
  end.

(** What the scan holds after the entries [seen]. *)
Definition scan_inv (n : jsstring) (seen : list CanonicalRow)
    (best : option CanonicalRow * Q) : Prop :=
  (0 <= snd best)%Q
  /\ (forall e q, e ∈ seen -> score_of n e = Num q -> (q <= snd best)%Q)
  /\ match fst best with
     | Some e => e ∈ seen /\ score_of n e = Num (snd best) /\ (0 < snd best)%Q
     | None => snd best = 0%Q
     end.

End ResolverSpec.

Definition empty_tables : Tables :=
  {| mappings := ∅; canonicals := []; next_id := 1 |}.


(** A store with the single canonical item [Latte]. *)
Definition latte_store : Store :=
  {| item_tables :=
       {| mappings := ∅;
          canonicals := [ {| id := 1; canonical_name := js "Latte";
                             normalized_name := js "latte" |} ];
          next_id := 2 |};
     category_tables := empty_tables |}.

Definition mapping_write_fails : Faults :=
  {| lookup_fails := false; scan_fails := false;
     insert_canonical_fails := false; insert_mapping_fails := true |}.

Definition canonical_write_fails : Faults :=
  {| lookup_fails := false; scan_fails := false;
     insert_canonical_fails := true; insert_mapping_fails := false |}.

(** *** findBestMatch and the vocabulary of the further properties *)

(** [findBestMatch(normalized, candidates, minScore = 0.9)]: [None] for
    [candidates] is [null] or [undefined], [None] for [minScore] is an
    argument left out. *)
Definition findBestMatch (normalized : jsstring)
    (candidates : option (list CanonicalRow)) (minScore : option Q)
  : option CanonicalRow :=
  let '(bestMatch, bestScore) := bestOf normalized (default [] candidates) in
  if Qle_bool (default (double (9 # 10)) minScore) bestScore then bestMatch else None.

(** The scan has its best entry first among the entries of its score:
    every entry before it scores less, every entry after it no more. *)
Definition first_best (n : jsstring) (seen : list CanonicalRow)
    (best : option CanonicalRow * Q) : Prop :=
  match fst best with
  | Some e =>
      exists pre post,
        seen = pre ++ e :: post
        /\ score_of n e = Num (snd best)
        /\ (0 < snd best)%Q
        /\ (forall c q, c ∈ pre -> score_of n c = Num q -> (q < snd best)%Q)
        /\ (forall c q, c ∈ post -> score_of n c = Num q -> (q <= snd best)%Q)
  | None =>
      snd best = 0%Q
      /\ (forall c q, c ∈ seen -> score_of n c = Num q -> (q <= 0)%Q)
  end.

(** Every mapping row points to a row of the canonical table. *)
Definition refs_ok (t : Tables) : Prop :=
  forall k r, mappings t !! k = Some r -> canonical_id r ∈ id <$> canonicals t.

(** One call of the resolver, as a parser makes it. *)
Record Call := {
  call_faults : Faults;
  call_name : option jsstring;
  call_type : EntityType;
  call_threshold : option Q
}.

Section Calls.
Context {prims : StringPrims}.

(** The store after a sequence of calls, whatever they return or throw. *)
Definition resolveEach (calls : list Call) (st : Store) : Store :=
  fold_left
    (fun st c =>
       snd (resolveCanonical (call_faults c) st (call_name c) (call_type c)
              (call_threshold c)))
    calls st.

End Calls.

(** Three canonical items, two of them as near to [latt]. *)
Definition latte_first : CanonicalRow :=
  {| id := 1; canonical_name := js "Latte"; normalized_name := js "latte" |}.

Definition latt_candidates : list CanonicalRow :=
  [ {| id := 2; canonical_name := js "Matte"; normalized_name := js "matte" |};
    latte_first;
    {| id := 3; canonical_name := js "Latts"; normalized_name := js "latts" |} ].

(** The canonical item [Axxxx], four edits away from [abcde]. *)
Definition axxxx_entry : CanonicalRow :=
  {| id := 1; canonical_name := js "Axxxx"; normalized_name := js "axxxx" |}.

Definition axxxx_store : Store :=
  {| item_tables := {| mappings := ∅; canonicals := [axxxx_entry]; next_id := 2 |};
     category_tables := empty_tables |}.

Definition later_calls : list Call :=
  [ {| call_faults := no_faults; call_name := Some (js "Mocha");
       call_type := item; call_threshold := None |};
    {| call_faults := mapping_write_fails; call_name := Some (js "Latte");
       call_type := category; call_threshold := None |};
    {| call_faults := canonical_write_fails; call_name := Some (js "Chai");
       call_type := item; call_threshold := Some (1 # 2)%Q |} ].

Definition matte_store : Store :=
  snd (resolveCanonical (prims:=ascii_prims) no_faults latte_store
         (Some (js "matte")) item None).

End Normalizer.

(** ** Part III: the interpreter route and the order parsers *)

Module Ingest.
Import Normalizer.

Local Open Scope N_scope.

(** *** The route handler: the markdown wrapper around the answer *)

Definition backticks : jsstring := js "```".

(** [/^```(?:json)?\n?/] *)
Definition re_fence_open : matcher := fun prev s =>
  match prev with
  | None =>
      if bool_decide (take 3 s = backticks) then
        let r := drop 3 s in
        let k := if bool_decide (take 4 r = js "json") then 4%nat else 0%nat in
        let n := if bool_decide (take 1 (drop k r) = [10]) then 1%nat else 0%nat in
        Some (3 + k + n)%nat
      else None
  | Some _ => None
  end.

(** [/\n?```$/] *)
Definition re_fence_close : matcher := fun _ s =>
  if bool_decide (s = 10 :: backticks) then Some 4%nat
  else if bool_decide (s = backticks) then Some 3%nat
  else None.

(** [content.replace(/^```(?:json)?\n?/, "").replace(/\n?```$/, "")] *)
Definition stripFence (content : jsstring) : jsstring :=
  replace_first re_fence_close [] None
    (replace_first re_fence_open [] None content).

(** The answer [body] in a markdown wrapper. *)
Definition fenced (json nl1 nl2 : bool) (body : jsstring) : jsstring :=
  backticks ++ (if json then js "json" else []) ++ (if nl1 then [10] else [])
  ++ body ++ (if nl2 then [10] else []) ++ backticks.

(** *** What the three parsers share *)

(** A thrown error: the store's, or a [TypeError] of the runtime. *)
Inductive Failure :=
| StoreFailure (e : StoreError)
| TypeError.

(** An amount of the ORDERS and ORDER_ITEMS rows: the number [0] or the
    string of [toFixed]. *)
Inductive Money :=
| zero
| fixed (s : jsstring).

(** A row of ORDER_ITEMS. *)
Record OrderItemRow := {
  order_id : jsstring;
  item_id : jsstring;
  name : option jsstring;
  quantity : Q;
  unit_price : Money;
  special_instructions : option jsstring;
  row_category : option jsstring;
  canonical_item_id : option nat;
  canonical_category_id : option nat
}.

(** A row of ORDER_ITEM_OPTIONS. *)
Record OptionRow := {
  option_order_id : jsstring;
  order_item_id : nat;
  option_item_id : jsstring;
  option_name : option jsstring;
  option_price : Money
}.

(** [x || null] on a string. *)
Definition or_null (x : option jsstring) : option jsstring :=
  match x with
  | Some (c :: r) => Some (c :: r)
  | _ => None
  end.

(** The store and the number of resolutions made so far. *)
Record World := {
  store : Store;
  resolutions : nat
}.

Section Resolving.
Context {prims : StringPrims}.

(** What the store does at each resolution. *)
Variable faults : nat -> Faults.

(** [(cents / 100).toFixed(2)] *)
Variable toFixed2 : Q -> jsstring.

(** [cents ? (cents / 100).toFixed(2) : 0] *)
Definition money (cents : option Q) : Money :=
  match cents with
  | Some q => if Qeq_bool q 0 then zero else fixed (toFixed2 q)
  | None => zero
  end.

(** [await resolveCanonical(supabase, rawName, entityType)] *)
Definition resolve (rawName : option jsstring) (entityType : EntityType)
    (w : World) : Outcome * World :=
  let r := resolveCanonical (faults (resolutions w)) (store w) rawName entityType None in
  (fst r, {| store := snd r; resolutions := S (resolutions w) |}).

End Resolving.

(** One turn of the loop of a parser: the names it resolves, the item
    first, and the row it pushes. [step_category] is [None] when looking
    the category up throws. *)
Record Step := {
  step_item : option jsstring;
  step_category : option (option jsstring);
  step_row : option nat -> option nat -> OrderItemRow
}.

Section Loop.
Context {prims : StringPrims}.
Variable faults : nat -> Faults.

Fixpoint resolveRows (steps : list Step) (w : World)
  : (list OrderItemRow + Failure) * World :=
  match steps with
  | [] => (inl [], w)
  | s :: rest =>
      match resolve faults (step_item s) item w with
      | (Thrown e, w1) => (inr (StoreFailure e), w1)
      | (Returned canonicalItemId, w1) =>
          match step_category s with
          | None => (inr TypeError, w1)
          | Some categoryName =>
              match resolve faults categoryName category w1 with
              | (Thrown e, w2) => (inr (StoreFailure e), w2)
              | (Returned canonicalCategoryId, w2) =>
                  match resolveRows rest w2 with
                  | (inl results, w3) =>
                      (inl (step_row s canonicalItemId canonicalCategoryId :: results), w3)
                  | (inr e, w3) => (inr e, w3)
                  end
              end
          end
      end
  end.

End Loop.

(** The store [st'] holds what [st] holds. *)
Definition store_le (st st' : Store) : Prop :=
  forall ty,
    (exists new, canonicals (tables_of st' ty) = canonicals (tables_of st ty) ++ new)
    /\ (forall k row, mappings (tables_of st ty) !! k = Some row ->
          mappings (tables_of st' ty) !! k = Some row).

(** The store answers every lookup and accepts every mapping row. *)
Definition mappings_healthy (faults : nat -> Faults) : Prop :=
  forall k, lookup_fails (faults k) = false /\ insert_mapping_fails (faults k) = false.

(** The canonical ids of a row are ids of canonical rows of the store. *)
Definition row_refs_ok (st : Store) (row : OrderItemRow) : Prop :=
  (forall i, canonical_item_id row = Some i -> i ∈ id <$> canonicals (item_tables st))
  /\ (forall i, canonical_category_id row = Some i ->
        i ∈ id <$> canonicals (category_tables st)).

(** The canonical item id of a row is the one the mapping table holds
    for the normalized name of the row. *)
Definition row_item_mapped {prims : StringPrims} (st : Store) (row : OrderItemRow)
  : Prop :=
  forall n, name row = Some n -> n <> [] ->
    is_Some (canonical_item_id row)
    /\ canonical_item_id row
       = canonical_id <$> (mappings (item_tables st) !! normalizeChain n).

(** *** parse_doordash_orders.js *)

Module Doordash.

Record Order := {
  external_delivery_id : jsstring;
  store_id : jsstring;
  order_fulfillment_method : jsstring;
  created_at : jsstring;
  dasher_tip : option Q;
  tax_amount : option Q;
  total_charged_to_consumer : option Q
}.

Record OrderRow := {
  row_order_id : jsstring;
  row_store_id : jsstring;
  fulfillment_method : jsstring;
  row_created_at : jsstring;
  tip : Money;
  tax : Money;
  total : Money;
  pos : string
}.

Record Option_ := {
  opt_name : option jsstring;
  opt_price : option Q
}.

Record Item := {
  raw_item_id : jsstring;
  raw_name : option jsstring;
  raw_category : option jsstring;
  raw_quantity : Q;
  raw_unit_price : option Q;
  raw_special_instructions : option jsstring;
  options : option (list Option_)
}.

(** [.]: every code unit but a line terminator. *)
Definition is_line_terminator (c : N) : bool :=
  (c =? 10) || (c =? 13) || (c =? 8232) || (c =? 8233).

Definition no_line_terminator (s : jsstring) : bool :=
  forallb (fun c => negb (is_line_terminator c)) s.

(** [_\d+$] *)
Definition store_suffix (s : jsstring) : bool :=
  match s with
  | c :: d :: r => (c =? 95) && forallb is_digit (d :: r)
  | _ => false
  end.

(** [(.+?)] followed by [_\d+$]: the group grows by one code unit until
    the rest matches. *)
Fixpoint lazy_group (taken rest : jsstring) : option jsstring :=
  match rest with
  | [] => None
  | c :: r =>
      if store_suffix rest then Some taken
      else if is_line_terminator c then None
      else lazy_group (taken ++ [c]) r
  end.

(** [store_id.match(/^str_(.+?)_\d+$/)]: the group. *)
Definition storeMatch (store_id : jsstring) : option jsstring :=
  if bool_decide (take 4 store_id = js "str_") then
    match drop 4 store_id with
    | c :: r => if is_line_terminator c then None else lazy_group [c] r
    | [] => None
    end
  else None.

Section DoordashFormatting.
Context {prims : StringPrims}.
Variable faults : nat -> Faults.
Variable toFixed2 : Q -> jsstring.

Definition formatOrder (order : Order) : OrderRow :=
  let storeName :=
    match storeMatch (store_id order) with
    | Some group => group
    | None => store_id order
    end in
  let fulfillmentMethod :=
    if bool_decide (order_fulfillment_method order = js "MERCHANT_DELIVERY")
    then js "DELIVERY"
    else order_fulfillment_method order in
  {| row_order_id := external_delivery_id order;
     row_store_id := storeName;
     fulfillment_method := fulfillmentMethod;
     row_created_at := created_at order;
     tip := money toFixed2 (dasher_tip order);
     tax := money toFixed2 (tax_amount order);
     total := money toFixed2 (total_charged_to_consumer order);
     pos := "Doordash" |}.

Fixpoint formatOrderItems (orderId : jsstring) (items : list Item) (w : World)
  : (list OrderItemRow + Failure) * World :=
  match items with
  | [] => (inl [], w)
  | orderItem :: rest =>
      match resolve faults (raw_name orderItem) Normalizer.item w with
      | (Thrown e, w1) => (inr (StoreFailure e), w1)
      | (Returned canonicalItemId, w1) =>
          match resolve faults (raw_category orderItem) Normalizer.category w1 with
          | (Thrown e, w2) => (inr (StoreFailure e), w2)
          | (Returned canonicalCategoryId, w2) =>
              let row :=
                {| order_id := orderId;
                   item_id := raw_item_id orderItem;
                   name := raw_name orderItem;
                   quantity := raw_quantity orderItem;
                   unit_price := money toFixed2 (raw_unit_price orderItem);
                   special_instructions := or_null (raw_special_instructions orderItem);
                   row_category := or_null (raw_category orderItem);
                   canonical_item_id := canonicalItemId;
                   canonical_category_id := canonicalCategoryId |} in
              match formatOrderItems orderId rest w2 with
              | (inl results, w3) => (inl (row :: results), w3)
              | (inr e, w3) => (inr e, w3)
              end
          end
      end
  end.

(** The turn of the loop for one item. *)
Definition stepOf (orderId : jsstring) (orderItem : Item) : Step :=
  {| step_item := raw_name orderItem;
     step_category := Some (raw_category orderItem);
     step_row := fun canonicalItemId canonicalCategoryId =>
       {| order_id := orderId;
          item_id := raw_item_id orderItem;
          name := raw_name orderItem;
          quantity := raw_quantity orderItem;
          unit_price := money toFixed2 (raw_unit_price orderItem);
          special_instructions := or_null (raw_special_instructions orderItem);
          row_category := or_null (raw_category orderItem);
          canonical_item_id := canonicalItemId;
          canonical_category_id := canonicalCategoryId |} |}.

Definition formatOrderItemOptions (orderId : jsstring) (orderItemId : nat)
    (itemId : jsstring) (options : option (list Option_)) : list OptionRow :=
  match options with
  | None | Some [] => []
  | Some options =>
      map (fun option =>
             {| option_order_id := orderId;
                order_item_id := orderItemId;
                option_item_id := itemId;
                option_name := opt_name option;
                option_price := money toFixed2 (opt_price option) |})
          options
  end.

End DoordashFormatting.

End Doordash.

(** *** parse_square_orders.js *)

Module Square.

Record VariationData := {
  price_money : option (option Q)
}.

Record Variation := {
  variation_id : jsstring;
  item_variation_data : option VariationData
}.

Record ItemData := {
  item_name : jsstring;
  item_category_id : option jsstring;
  variations : option (list Variation)
}.

Record CategoryData := {
  category_name : option jsstring
}.

Record CatalogObject := {
  type : jsstring;
  id : jsstring;
  item_data : option ItemData;
  category_data : option CategoryData
}.

Record CatalogData := {
  objects : option (list CatalogObject)
}.

(** An entry of the catalog map. *)
Record CatalogItem := {
  name : jsstring;
  price : option Q;
  category_id : option jsstring
}.

Record LineItem := {
  uid : jsstring;
  catalog_object_id : option jsstring;
  line_quantity : Q
}.

(** The catalog map is a plain object, [{}]: besides the properties the
    loop has given it, it has the ones of its prototype, [Object.prototype]
    at first. An assignment to the key [__proto__] runs the setter of
    [Object.prototype]: it adds no property and makes the entry the
    prototype of the map. *)
Record CatalogMap := {
  own : gmap jsstring CatalogItem;
  proto : option CatalogItem
}.

(** [{}] *)
Definition empty_object : CatalogMap := {| own := ∅; proto := None |}.

(** [catalogMap[key] = entry] *)
Definition set_property (catalogMap : CatalogMap) (key : jsstring) (entry : CatalogItem)
  : CatalogMap :=
  if bool_decide (key = js "__proto__")
  then {| own := own catalogMap; proto := Some entry |}
  else {| own := <[key := entry]> (own catalogMap); proto := proto catalogMap |}.

(** What a read of a property of the map gives: an entry; through a
    prototype that is an entry, its name or category id (a string) or its
    price (a number or null); a method of [Object.prototype], or
    [Object.prototype] itself; or [undefined]. *)
Inductive Value :=
| js_undefined
| js_null
| js_entry (e : CatalogItem)
| js_string (s : jsstring)
| js_number (q : Q)
| js_function (fname : jsstring)
| js_object_prototype.

(** The methods of [Object.prototype] besides [constructor]. *)
Definition object_prototype_methods : list jsstring :=
  [ js "__defineGetter__"; js "__defineSetter__"; js "hasOwnProperty";
    js "__lookupGetter__"; js "__lookupSetter__"; js "isPrototypeOf";
    js "propertyIsEnumerable"; js "toString"; js "valueOf"; js "toLocaleString" ].

(** [Object.prototype[key]], [key] other than [__proto__]: [constructor]
    is the function [Object], a method is the function of its own name. *)
Definition object_prototype_get (key : jsstring) : Value :=
  if bool_decide (key = js "constructor") then js_function (js "Object")
  else if bool_decide (key ∈ object_prototype_methods) then js_function key
  else js_undefined.

(** [entry[key]], [key] other than [__proto__]: the three properties of
    the object literal, then [Object.prototype]. *)
Definition entry_get (entry : CatalogItem) (key : jsstring) : Value :=
  if bool_decide (key = js "name") then js_string (name entry)
  else if bool_decide (key = js "price") then
    match price entry with Some q => js_number q | None => js_null end
  else if bool_decide (key = js "category_id") then
    match category_id entry with Some c => js_string c | None => js_undefined end
  else object_prototype_get key.

(** [catalogMap[key]]: an own property, or the prototype for [__proto__],
    or a property of the prototype. *)
Definition get_property (catalogMap : CatalogMap) (key : jsstring) : Value :=
  match own catalogMap !! key with
  | Some entry => js_entry entry
  | None =>
      if bool_decide (key = js "__proto__") then
        match proto catalogMap with
        | Some entry => js_entry entry
        | None => js_object_prototype
        end
      else
        match proto catalogMap with
        | Some entry => entry_get entry key
        | None => object_prototype_get key
        end
  end.

(** [!!value] *)
Definition is_truthy (v : Value) : bool :=
  match v with
  | js_undefined | js_null => false
  | js_string s => negb (bool_decide (s = []))
  | js_number q => negb (Qeq_bool q 0)
  | js_entry _ | js_function _ | js_object_prototype => true
  end.

(** [value.name], [value.price] and [value.category_id] of a truthy
    value: a string and a number have none of them, a function has its
    name. [None] is [undefined] or [null]. *)
Definition name_of (v : Value) : option jsstring :=
  match v with
  | js_entry e => Some (name e)
  | js_function fname => Some fname
  | _ => None
  end.

Definition price_of (v : Value) : option Q :=
  match v with js_entry e => price e | _ => None end.

Definition category_id_of (v : Value) : option jsstring :=
  match v with js_entry e => category_id e | _ => None end.

(** The entry of a variation with data. *)
Definition entryOf (itemData : ItemData) (varData : VariationData) : CatalogItem :=
  {| name := item_name itemData;
     price := match price_money varData with
              | Some amount => amount
              | None => None
              end;
     category_id := item_category_id itemData |}.

(** [catalogMap[variation.id] = {...}] when the variation has data. *)
Definition addVariation (itemData : ItemData)
    (catalogMap : CatalogMap) (variation : Variation) : CatalogMap :=
  match item_variation_data variation with
  | Some varData =>
      set_property catalogMap (variation_id variation) (entryOf itemData varData)
  | None => catalogMap
  end.

Definition addObject (catalogMap : CatalogMap) (obj : CatalogObject) : CatalogMap :=
  if bool_decide (type obj = js "ITEM") then
    match item_data obj with
    | Some itemData =>
        match variations itemData with
        | Some (v :: vs) => fold_left (addVariation itemData) (v :: vs) catalogMap
        | _ => catalogMap
        end
    | None => catalogMap
    end
  else catalogMap.

Definition buildCatalogMap (catalogData : CatalogData) : CatalogMap :=
  fold_left addObject (default [] (objects catalogData)) empty_object.

(** [None] is a thrown [TypeError]: the catalog has no [objects], or the
    category found has no [category_data]. *)
Definition getCategoryName (categoryId : option jsstring) (catalogData : CatalogData)
  : option (option jsstring) :=
  match categoryId with
  | None | Some [] => Some None
  | Some cid =>
      match objects catalogData with
      | None => None
      | Some objs =>
          match List.find (fun obj => bool_decide (type obj = js "CATEGORY")
                                      && bool_decide (id obj = cid)) objs with
          | Some found =>
              match category_data found with
              | Some data => Some (category_name data)
              | None => None
              end
          | None => Some None
          end
      end
  end.

(** The catalog lists the entry [entry] under [key]: a variation with
    that id and with variation data, of an object of type ITEM with item
    data. *)
Definition listed (catalogData : CatalogData) (key : jsstring) (entry : CatalogItem)
  : Prop :=
  exists objs obj itemData vs variation varData,
    objects catalogData = Some objs /\ (obj ∈ objs)
    /\ type obj = js "ITEM" /\ item_data obj = Some itemData
    /\ variations itemData = Some vs /\ (variation ∈ vs)
    /\ variation_id variation = key
    /\ item_variation_data variation = Some varData
    /\ entry = entryOf itemData varData.

(** What the assignments to [key] have left in the map: its own property,
    or for [__proto__] its prototype. *)
Definition slot (catalogMap : CatalogMap) (key : jsstring) : option CatalogItem :=
  if bool_decide (key = js "__proto__") then proto catalogMap
  else own catalogMap !! key.

(** The keys a read of which reaches the prototype chain of [{}]. *)
Definition inherited_keys : list jsstring :=
  js "__proto__" :: js "constructor" :: object_prototype_methods.

Section SquareFormatting.
Context {prims : StringPrims}.
Variable faults : nat -> Faults.
Variable toFixed2 : Q -> jsstring.

(** The key a line item is looked up with: a missing id reads as the
    property name [undefined]. *)
Definition catalogKey (lineItem : LineItem) : jsstring :=
  default (js "undefined") (catalog_object_id lineItem).

Fixpoint formatOrderItemsLoop (orderId : jsstring) (lineItems : list LineItem)
    (catalogMap : CatalogMap) (catalogData : CatalogData) (w : World)
  : (list OrderItemRow + Failure) * World :=
  match lineItems with
  | [] => (inl [], w)
  | lineItem :: rest =>
      let catalogItem := get_property catalogMap (catalogKey lineItem) in
      if negb (is_truthy catalogItem)
      then formatOrderItemsLoop orderId rest catalogMap catalogData w
      else
        match resolve faults (name_of catalogItem) Normalizer.item w with
        | (Thrown e, w1) => (inr (StoreFailure e), w1)
        | (Returned canonicalItemId, w1) =>
            match getCategoryName (category_id_of catalogItem) catalogData with
            | None => (inr TypeError, w1)
            | Some categoryName =>
                match resolve faults categoryName Normalizer.category w1 with
                | (Thrown e, w2) => (inr (StoreFailure e), w2)
                | (Returned canonicalCategoryId, w2) =>
                    let row :=
                      {| order_id := orderId;
                         item_id := uid lineItem;
                         Ingest.name := name_of catalogItem;
                         quantity := line_quantity lineItem;
                         unit_price := money toFixed2 (price_of catalogItem);
                         special_instructions := None;
                         row_category := categoryName;
                         canonical_item_id := canonicalItemId;
                         canonical_category_id := canonicalCategoryId |} in
                    match formatOrderItemsLoop orderId rest catalogMap catalogData w2 with
                    | (inl results, w3) => (inl (row :: results), w3)
                    | (inr e, w3) => (inr e, w3)
                    end
                end
            end
        end
  end.

(** The line items whose read of the catalog map is truthy. *)
Definition inCatalog (catalogMap : CatalogMap) (lineItem : LineItem) : bool :=
  is_truthy (get_property catalogMap (catalogKey lineItem)).

(** [lineItems || []] *)
Definition formatOrderItems (orderId : jsstring) (lineItems : option (list LineItem))
    (catalogMap : CatalogMap) (catalogData : CatalogData) (w : World)
  : (list OrderItemRow + Failure) * World :=
  formatOrderItemsLoop orderId (default [] lineItems) catalogMap catalogData w.

End SquareFormatting.

End Square.

(** *** The Toast parser *)

Module Toast.

Record Location := {
  guid : jsstring;
  location_name : jsstring
}.

Record ItemGroup := {
  group_name : option jsstring
}.

Record Selection := {
  selection_guid : jsstring;
  displayName : option jsstring;
  itemGroup : option ItemGroup;
  selection_quantity : Q;
  selection_price : option Q;
  specialInstructions : option jsstring
}.

Section ToastFormatting.
Context {prims : StringPrims}.
Variable faults : nat -> Faults.
Variable toFixed2 : Q -> jsstring.

Definition getStoreName (restaurantGuid : jsstring) (locations : list Location)
  : jsstring :=
  match List.find (fun loc => bool_decide (guid loc = restaurantGuid)) locations with
  | Some location =>
      replace_g re_spaces [95] 0 None (toLowerCase (location_name location))
  | None => restaurantGuid
  end.

Fixpoint formatOrderItems (orderId : jsstring) (selections : list Selection)
    (w : World) : (list OrderItemRow + Failure) * World :=
  match selections with
  | [] => (inl [], w)
  | selection :: rest =>
      match resolve faults (displayName selection) Normalizer.item w with
      | (Thrown e, w1) => (inr (StoreFailure e), w1)
      | (Returned canonicalItemId, w1) =>
          let categoryName :=
            match itemGroup selection with
            | Some group => group_name group
            | None => None
            end in
          match resolve faults categoryName Normalizer.category w1 with
          | (Thrown e, w2) => (inr (StoreFailure e), w2)
          | (Returned canonicalCategoryId, w2) =>
              let row :=
                {| order_id := orderId;
                   item_id := selection_guid selection;
                   name := displayName selection;
                   quantity := selection_quantity selection;
                   unit_price := money toFixed2 (selection_price selection);
                   special_instructions := or_null (specialInstructions selection);
                   row_category := categoryName;
                   canonical_item_id := canonicalItemId;
                   canonical_category_id := canonicalCategoryId |} in
              match formatOrderItems orderId rest w2 with
              | (inl results, w3) => (inl (row :: results), w3)
              | (inr e, w3) => (inr e, w3)
              end
          end
      end
  end.

(** [selection.itemGroup ? selection.itemGroup.name : null] *)
Definition categoryNameOf (selection : Selection) : option jsstring :=
  match itemGroup selection with
  | Some group => group_name group
  | None => None
  end.

(** The turn of the loop for one selection. *)
Definition stepOf (orderId : jsstring) (selection : Selection) : Step :=
  {| step_item := displayName selection;
     step_category := Some (categoryNameOf selection);
     step_row := fun canonicalItemId canonicalCategoryId =>
       {| order_id := orderId;
          item_id := selection_guid selection;
          name := displayName selection;
          quantity := selection_quantity selection;
          unit_price := money toFixed2 (selection_price selection);
          special_instructions := or_null (specialInstructions selection);
          row_category := categoryNameOf selection;
          canonical_item_id := canonicalItemId;
          canonical_category_id := canonicalCategoryId |} |}.

End ToastFormatting.

End Toast.

(** The rows of a loop that ended well. *)
Definition rows_of (r : (list OrderItemRow + Failure) * World) : list OrderItemRow :=
  match fst r with
  | inl rows => rows
  | inr _ => []
  end.

(** *** Sample orders *)

(** A store that answers every call. *)
Definition always_answers : nat -> Faults := fun _ => no_faults.

(** A stand-in for [toFixed] where no amount is given. *)
Definition no_amount : Q -> jsstring := fun _ => [].

Definition world_of (st : Store) : World := {| store := st; resolutions := 0 |}.

Definition doordash_item (itemId name category : string) : Doordash.Item :=
  {| Doordash.raw_item_id := js itemId;
     Doordash.raw_name := Some (js name);
     Doordash.raw_category := Some (js category);
     Doordash.raw_quantity := 1%Q;
     Doordash.raw_unit_price := None;
     Doordash.raw_special_instructions := None;
     Doordash.options := None |}.

Definition toast_selection (guid name : string) : Toast.Selection :=
  {| Toast.selection_guid := js guid;
     Toast.displayName := Some (js name);
     Toast.itemGroup := None;
     Toast.selection_quantity := 1%Q;
     Toast.selection_price := None;
     Toast.specialInstructions := None |}.

(** A catalog with the item [Latte] in one variation. *)
Definition latte_catalog : Square.CatalogData :=
  {| Square.objects := Some
       [ {| Square.type := js "ITEM"; Square.id := js "I1";
            Square.item_data := Some
              {| Square.item_name := js "Latte";
                 Square.item_category_id := None;
                 Square.variations := Some
                   [ {| Square.variation_id := js "V1";
                        Square.item_variation_data := Some
                          {| Square.price_money := None |} |} ] |};
            Square.category_data := None |} ] |}.

Definition line_item (uid : string) (catalogId : option string) : Square.LineItem :=
  {| Square.uid := js uid;
     Square.catalog_object_id := js <$> catalogId;
     Square.line_quantity := 1%Q |}.

Definition latte_and_mocha : list Doordash.Item :=
  [doordash_item "a" "Latte" "Coffee"; doordash_item "b" "Mocha" "Coffee"].

Definition tea_twice : list Toast.Selection :=
  [toast_selection "a" "Iced Tea"; toast_selection "b" "Mocha";
   toast_selection "c" "ICED  TEA (2 pcs)"].

(** Five line items: an unknown id, a known one, a missing one, and two
    names of the prototype chain. *)
Definition five_lines : option (list Square.LineItem) :=
  Some [line_item "u1" (Some "V9"); line_item "u2" (Some "V1"); line_item "u3" None;
        line_item "u4" (Some "constructor"); line_item "u5" (Some "__proto__")].

(** A catalog whose one variation has the id [__proto__]. *)
Definition proto_catalog : Square.CatalogData :=
  {| Square.objects := Some
       [ {| Square.type := js "ITEM"; Square.id := js "I2";
            Square.item_data := Some
              {| Square.item_name := js "Mocha";
                 Square.item_category_id := None;
                 Square.variations := Some
                   [ {| Square.variation_id := js "__proto__";
                        Square.item_variation_data := Some
                          {| Square.price_money := Some (Some 450%Q) |} |} ] |};
            Square.category_data := None |} ] |}.

Definition mocha_entry : Square.CatalogItem :=
  {| Square.name := js "Mocha"; Square.price := Some 450%Q;
     Square.category_id := None |}.

End Ingest.

(** ** Part IV: properties of the query builder *)

Module QueryFacts.
Import QueryBuilder.

(** *** The model at the examples of the specification *)

Example unknown_metric_throws :
  buildQueryPlan {| metric := unknown_metric "unknown_metric"; groupBy := [date];
                    filters := no_filters; limit := None; sortBy := None;
                    sortOrder := None |}
  = Throw "Unknown metric: unknown_metric".
Proof. reflexivity. Qed.

Example label_of_downtown_latte :
  rowName (fun s => s) downtown_latte [location; product] = "downtown - Latte"
  /\ rowName (fun s => s) downtown_latte [] = "Total"
  /\ rowName (fun s => s) ∅ [location; product] = "Total".
Proof. repeat split; vm_compute; reflexivity. Qed.

(** *** Reading [includes] and the plan *)

Lemma includes_true dim l : includes dim l = true <-> dim ∈ l.
Proof. unfold includes. apply bool_decide_eq_true. Qed.

Lemma includes_false dim l : includes dim l = false <-> dim ∉ l.
Proof. unfold includes. apply bool_decide_eq_false. Qed.

(** *** Items sold by category *)

(** C1, as stated, fails: with no order-level filter, the plan for
    [{metric: items_sold, groupBy: [category]}] joins the canonical
    categories only; the orders table is not among its tables. *)
Lemma c1_counterexample :
  metric items_sold_by_category = items_sold
  /\ groupBy items_sold_by_category = [category]
  /\ exists p, buildQueryPlan items_sold_by_category = Ok p
       /\ q_joins p = [join_categories]
       /\ (tbl_orders ∉ plan_tables p).
Proof.
  split; [reflexivity|]. split; [reflexivity|].
  eexists. split; [reflexivity|]. split; [reflexivity|].
  compute_done.
Qed.

(** C1, amended: for every intent with metric [items_sold] and [groupBy]
    equal to [[category]], the plan starts from the line items, left-joins
    the canonical categories and groups by the canonical category name; it
    joins the orders exactly when the intent has an order-level filter key
    ([locations], [fulfillmentMethods], [date_range] or [providers]), and
    then as an inner join placed first. *)
Theorem c1_items_sold_by_category (intent : QueryIntent) :
  metric intent = items_sold ->
  groupBy intent = [category] ->
  exists p,
    buildQueryPlan intent = Ok p
    /\ q_from p = tbl_orderItems
    /\ q_joins p =
         (if order_level_filter (filters intent) then [join_orders] else [])
         ++ (if truthy (products (filters intent))
             then [ {| join_type := leftJoin; join_table := tbl_canonicalItems;
                       join_on := c_eq orderItems_canonicalItemId canonicalItems_id |} ]
             else [])
         ++ [join_categories]
    /\ (tbl_orders ∈ plan_tables p <-> order_level_filter (filters intent) = true)
    /\ (tbl_canonicalCategories ∈ plan_tables p)
    /\ q_groupBy p = [sql_col canonicalCategories_canonicalName].
Proof.
  intros Hm Hg. destruct intent as [m g f l sb so]. simpl in *. subst m g.
  eexists. split; [reflexivity|]. simpl.
  split; [reflexivity|].
  assert (Hj : joinsOf items_sold f [category] =
     (if order_level_filter f then [join_orders] else [])
     ++ (if truthy (products f) then [ {| join_type := leftJoin; join_table := tbl_canonicalItems;
                       join_on := c_eq orderItems_canonicalItemId canonicalItems_id |} ] else [])
     ++ [join_categories]).
  { unfold joinsOf, needOrdersJoin, order_level_filter.
    change (includes location [category]) with false.
    change (includes fulfillment_method [category]) with false.
    change (includes date [category]) with false.
    change (includes hour [category]) with false.
    change (includes provider [category]) with false.
    change (includes product [category]) with false.
    change (includes category [category]) with true.
    rewrite !orb_false_r, orb_true_r. reflexivity. }
  split; [exact Hj|].
  unfold plan_tables; simpl. rewrite Hj.
  split; [|split; [|reflexivity]].
  - destruct (order_level_filter f), (truthy (products f)); compute_done.
  - destruct (order_level_filter f), (truthy (products f)); compute_done.
Qed.

(** The amended C1 at an intent filtered by location. *)
Lemma c1_items_sold_by_category_witness :
  exists p,
    buildQueryPlan (items_sold_by_category_in ["downtown"]) = Ok p
    /\ q_from p = tbl_orderItems
    /\ q_joins p = [join_orders; join_categories]
    /\ q_groupBy p = [sql_col canonicalCategories_canonicalName].
Proof.
  destruct (c1_items_sold_by_category (items_sold_by_category_in ["downtown"])
              eq_refl eq_refl) as (p & Hp & Hf & Hj & _ & _ & Hg).
  exists p. repeat split; assumption.
Defined.

(** *** Grouping by date and by hour *)

(** C3, as stated, fails: grouped by hour alone, the plan groups by the
    day-truncated timestamp, not by the hour-truncated one, and the label
    column [created_at] is the hour-truncated timestamp, not the day. *)
Lemma c3_counterexample :
  hour ∈ groupBy by_hour
  /\ exists p, buildQueryPlan by_hour = Ok p
       /\ q_groupBy p = [day_of_order]
       /\ (hour_of_order ∉ q_groupBy p)
       /\ get_key "created_at" (q_select p) = Some hour_of_order.
Proof.
  split; [compute_done|]. eexists. split; [reflexivity|].
  split; [reflexivity|]. split; [compute_done|reflexivity].
Qed.

Lemma groupLoop_keeps (l : list Dimension) (st : list SQL * option SQL) (e : SQL) :
  e ∈ fst st -> e ∈ fst (fold_left groupStep l st).
Proof.
  revert st. induction l as [|d l IH]; intros [cols te] H; simpl in *; [exact H|].
  apply IH. destruct d; simpl; set_solver.
Qed.

Lemma groupLoop_date (l : list Dimension) (st : list SQL * option SQL) :
  date ∈ l -> day_of_order ∈ fst (fold_left groupStep l st).
Proof.
  revert st. induction l as [|d l IH]; intros [cols te] H; [set_solver|].
  apply elem_of_cons in H. destruct H as [<-|H].
  - simpl. apply groupLoop_keeps. simpl. unfold day_of_order. set_solver.
  - simpl. apply IH, H.
Qed.

Lemma buildQueryPlan_inv intent p :
  buildQueryPlan intent = Ok p ->
  exists valueExpr fromOrders,
    metricExpr (metric intent) = Ok (valueExpr, fromOrders)
    /\ q_select p = selectShape valueExpr (groupBy intent)
    /\ q_from p = (if fromOrders then tbl_orders else tbl_orderItems)
    /\ q_joins p = joinsOf (metric intent) (filters intent) (groupBy intent)
    /\ q_groupBy p = fst (groupLoop (groupBy intent))
    /\ q_orderBy p = orderByOf (sortBy intent) (sortOrder intent)
                       (snd (groupLoop (groupBy intent))).
Proof.
  unfold buildQueryPlan. destruct (metricExpr (metric intent)) as [[v b]|msg]; [|discriminate].
  destruct (groupLoop (groupBy intent)) as [cols te] eqn:E.
  intros [= <-]. exists v, b. simpl. repeat split; reflexivity.
Qed.

(** C3, amended: for every intent with [date] in [groupBy] the plan groups
    by the day-truncated order timestamp, and that is the label column
    [created_at] when [hour] is not grouped too; for every intent with
    [hour] in [groupBy] the label column [created_at] is the hour-truncated
    order timestamp. Both are taken of the stored timestamp as it is. *)
Theorem c3_time_grouping (intent : QueryIntent) (p : QueryPlan) :
  buildQueryPlan intent = Ok p ->
  (date ∈ groupBy intent -> day_of_order ∈ q_groupBy p)
  /\ (date ∈ groupBy intent -> hour ∉ groupBy intent ->
      get_key "created_at" (q_select p) = Some day_of_order)
  /\ (hour ∈ groupBy intent ->
      get_key "created_at" (q_select p) = Some hour_of_order).
Proof.
  intros Hp. apply buildQueryPlan_inv in Hp as (v & b & _ & Hs & _ & _ & Hg & _).
  rewrite Hs, Hg. split; [|split].
  - intros Hd. apply groupLoop_date, Hd.
  - intros Hd Hh. apply includes_true in Hd. apply includes_false in Hh.
    unfold selectShape. rewrite Hd, Hh.
    destruct (includes location (groupBy intent)), (includes product (groupBy intent)),
      (includes category (groupBy intent)), (includes fulfillment_method (groupBy intent)),
      (includes provider (groupBy intent)); reflexivity.
  - intros Hh. apply includes_true in Hh.
    unfold selectShape. rewrite Hh.
    destruct (includes location (groupBy intent)), (includes product (groupBy intent)),
      (includes category (groupBy intent)), (includes date (groupBy intent)),
      (includes fulfillment_method (groupBy intent)),
      (includes provider (groupBy intent)); reflexivity.
Qed.

(** The amended C3 at an intent grouped by date and hour. *)
Lemma c3_time_grouping_witness :
  exists p, buildQueryPlan by_date_and_hour = Ok p
    /\ (day_of_order ∈ q_groupBy p)
    /\ get_key "created_at" (q_select p) = Some hour_of_order.
Proof.
  eexists. split; [reflexivity|].
  destruct (c3_time_grouping by_date_and_hour _ eq_refl) as (Hd & _ & Hh).
  split; [apply Hd; compute_done | apply Hh; compute_done].
Defined.

(** *** Sorting *)

(** C4 at [{metric: revenue, groupBy: [location], sortBy: name}]: the
    intent is valid and compiles, and the plan carries an order-by clause on
    the canonical item name although the canonical items are not among its
    tables and no [product] column is selected. *)
Theorem c4_sort_by_name_without_product :
  validated revenue_by_location_sorted_by_name = true
  /\ exists p e,
       buildQueryPlan revenue_by_location_sorted_by_name = Ok p
       /\ q_orderBy p = Some (asc, e)
       /\ e = sql_col canonicalItems_canonicalName
       /\ sql_tables e = [tbl_canonicalItems]
       /\ plan_tables p = [tbl_orders]
       /\ get_key "product" (q_select p) = None.
Proof.
  split; [reflexivity|]. eexists _, _. repeat split; reflexivity.
Qed.

(** Sorting by name orders by the canonical item name whatever is grouped. *)
Lemma sort_name_orders_by_item_name (intent : QueryIntent) (p : QueryPlan) :
  buildQueryPlan intent = Ok p ->
  sortBy intent = Some sort_name ->
  exists dir, q_orderBy p = Some (dir, sql_col canonicalItems_canonicalName).
Proof.
  intros Hp Hs. apply buildQueryPlan_inv in Hp as (_ & _ & _ & _ & _ & _ & _ & Ho).
  rewrite Ho, Hs. simpl. eexists. reflexivity.
Qed.

Lemma groupLoop_no_time (l : list Dimension) (st : list SQL * option SQL) :
  date ∉ l -> hour ∉ l -> snd (fold_left groupStep l st) = snd st.
Proof.
  revert st. induction l as [|d l IH]; intros [cols te] Hd Hh; [reflexivity|].
  apply not_elem_of_cons in Hd as [Hd1 Hd2]. apply not_elem_of_cons in Hh as [Hh1 Hh2].
  simpl. rewrite (IH _ Hd2 Hh2). destruct d; try reflexivity; congruence.
Qed.

(** Sorting by date is a no-op when no time dimension is grouped. *)
Lemma sort_date_without_time (intent : QueryIntent) (p : QueryPlan) :
  buildQueryPlan intent = Ok p ->
  sortBy intent = Some sort_date ->
  date ∉ groupBy intent -> hour ∉ groupBy intent ->
  q_orderBy p = None.
Proof.
  intros Hp Hs Hd Hh.
  apply buildQueryPlan_inv in Hp as (_ & _ & _ & _ & _ & _ & _ & Ho).
  rewrite Ho, Hs. unfold groupLoop. rewrite (groupLoop_no_time _ _ Hd Hh). reflexivity.
Qed.

(** A valid intent always compiles. *)
Lemma validated_compiles (intent : QueryIntent) :
  validated intent = true -> exists p, buildQueryPlan intent = Ok p.
Proof.
  unfold validated, buildQueryPlan. intros H.
  repeat (apply andb_prop in H; destruct H as [H _]).
  destruct (metric intent); try discriminate; simpl;
    destruct (groupLoop (groupBy intent)); eexists; reflexivity.
Qed.

(** *** The date range *)

(** A parsed date is the first instant of its day. *)
Lemma new_Date_midnight (s : string) (t : Z) :
  new_Date s = Some t -> t / msPerDay * msPerDay = t.
Proof.
  unfold new_Date. intros H.
  repeat match type of H with
         | match ?x with _ => _ end = _ => destruct x; try discriminate H
         | (if ?x then _ else _) = _ => destruct x; try discriminate H
         end.
  injection H as <-. rewrite Z.div_mul; [reflexivity|discriminate].
Qed.

(** Every date the intent schema admits is a valid date of the runtime,
    Feb 30 too. *)
Lemma new_Date_valid (s : string) :
  valid_date_string s = true -> exists t, new_Date s = Some t.
Proof.
  unfold valid_date_string, new_Date. intros H.
  repeat match type of H with
         | match ?x with _ => _ end = _ => destruct x; try discriminate H
         end.
  apply andb_prop in H as [H Hd]. rewrite H.
  destruct (digits_value 0 _); [|discriminate].
  destruct (digits_value 0 _); [|discriminate].
  destruct (digits_value 0 _); [|discriminate].
  rewrite Hd. eexists. reflexivity.
Qed.

Lemma new_Date_rolls_over :
  new_Date "2024-02-30" = new_Date "2024-03-01"
  /\ new_Date "2023-02-29" = new_Date "2023-03-01"
  /\ new_Date "2024-03-01" = Some 1709251200000.
Proof. repeat split; reflexivity. Qed.

(** The condition of a date range is part of the where clause. *)
Lemma date_range_in_where (intent : QueryIntent) (r : DateRange) (p : QueryPlan) :
  date_range (filters intent) = Some r ->
  buildQueryPlan intent = Ok p ->
  exists rest, q_where p = Some (c_and (dateRangeCond r :: rest)).
Proof.
  intros Hr Hp. unfold buildQueryPlan in Hp.
  destruct (metricExpr (metric intent)) as [[v b]|]; [|discriminate].
  destruct (groupLoop (groupBy intent)). injection Hp as <-. simpl.
  unfold whereConditions. rewrite Hr. simpl. eexists. reflexivity.
Qed.

(** X26: the condition of a date range lets an order pass exactly
    when its timestamp, in microseconds, is at or after the first instant
    (UTC) of the start date and at or before 23:59:59.999 of the end date;
    the condition is part of the where clause of the plan. *)
Theorem date_range_window (intent : QueryIntent) (r : DateRange)
    (p : QueryPlan) (first last t : Z) (env : Column -> SqlVal) :
  date_range (filters intent) = Some r ->
  buildQueryPlan intent = Ok p ->
  new_Date (range_start r) = Some first ->
  new_Date (range_end r) = Some last ->
  env orders_createdAt = v_time t ->
  (exists rest, q_where p = Some (c_and (dateRangeCond r :: rest)))
  /\ first mod msPerDay = 0 /\ last mod msPerDay = 0
  /\ evalCond env (dateRangeCond r)
      = Some (bool_decide (first * 1000 <= t <= (last + msPerDay - 1) * 1000)).
Proof.
  intros Hr Hp Hs He Ht.
  pose proof (new_Date_midnight _ _ Hs) as Ms.
  pose proof (new_Date_midnight _ _ He) as Me.
  split; [|split; [|split]].
  - exact (date_range_in_where intent r p Hr Hp).
  - rewrite <- Ms. apply Z_mod_mult.
  - rewrite <- Me. apply Z_mod_mult.
  - unfold dateRangeCond. rewrite Hs, He. simpl. rewrite Ht, Me.
    f_equal. unfold msPerDay.
    destruct (Z.leb_spec (first * 1000) t),
             (Z.leb_spec t ((last + (23 * 3600000 + 59 * 60000 + 59 * 1000 + 999)) * 1000));
      simpl; symmetry;
      first [ apply bool_decide_eq_true_2; lia | apply bool_decide_eq_false_2; lia ].
Qed.

(** X26 at [end = 2024-03-10]: 23:59:59.999 of March 10 passes. *)
Lemma date_range_window_witness :
  new_Date "2024-03-10" = Some 1710028800000
  /\ evalCond (order_at 1710115199999000) (dateRangeCond march_range)
     = Some (bool_decide (1709251200000 * 1000 <= 1710115199999000
                          <= (1710028800000 + msPerDay - 1) * 1000)).
Proof.
  split; [reflexivity|].
  destruct (date_range_window march_first_to_tenth march_range _ 1709251200000
              1710028800000 1710115199999000 (order_at 1710115199999000)
              eq_refl eq_refl eq_refl eq_refl eq_refl) as (_ & _ & _ & H).
  exact H.
Defined.

(** C9 at [start = 2024-03-01], [end = 2024-03-10]: the plan filters by
    the condition of the range; an order of the first instant of March 1
    passes and one of 23:59:59.999 of March 10 passes, but an order of
    23:59:59.999500 of March 10, half a millisecond later and still before
    March 11 00:00:00, does not pass, and neither does the last microsecond
    of the day; March 11 00:00:00 does not pass. *)
Theorem c9_last_instant_excluded :
  (exists p, buildQueryPlan march_first_to_tenth = Ok p
             /\ q_where p = Some (c_and [dateRangeCond march_range]))
  /\ new_Date "2024-03-01" = Some 1709251200000
  /\ new_Date "2024-03-10" = Some 1710028800000
  /\ new_Date "2024-03-11" = Some 1710115200000
  /\ evalCond (order_at (1709251200000 * 1000)) (dateRangeCond march_range) = Some true
  /\ evalCond (order_at 1710115199999000) (dateRangeCond march_range) = Some true
  /\ 1710115199999500 < 1710115200000 * 1000
  /\ evalCond (order_at 1710115199999500) (dateRangeCond march_range) = Some false
  /\ evalCond (order_at 1710115199999999) (dateRangeCond march_range) = Some false
  /\ evalCond (order_at (1710115200000 * 1000)) (dateRangeCond march_range) = Some false.
Proof.
  split; [eexists; split; reflexivity|].
  repeat split; vm_compute; reflexivity.
Qed.

(** *** The label of a result row *)

Lemma selectShape_keys (v : SQL) (g : list Dimension) :
  map fst (selectShape v g) ⊆ shape_keys.
Proof.
  unfold selectShape.
  destruct (includes location g), (includes product g), (includes category g),
    (includes date g), (includes hour g), (includes fulfillment_method g),
    (includes provider g); compute_done.
Qed.

Lemma row_of_missing (p : QueryPlan) (tuple : list Cell) (key : string) :
  key ∉ map fst (q_select p) -> row_of p tuple !! key = None.
Proof.
  intros H. unfold row_of. apply not_elem_of_list_to_map_1.
  intros Hin. apply H. apply list_elem_of_fmap in Hin as [[k c] [-> Hin]].
  apply elem_of_zip_l in Hin. exact Hin.
Qed.

Section Execution.
Variable toLocaleString : string -> string.
Variable Number : option Cell -> option Q.
Variable db : QueryPlan -> result (list (list Cell)).

Lemma rowName_missing_name (row : Row) (g : list Dimension) :
  g <> [] ->
  row !! "canonical_name" = None ->
  rowName toLocaleString row g = labelOmittingName toLocaleString row.
Proof.
  intros Hg Hrow. unfold rowName, labelOmittingName, rowParts, partsOmittingName.
  rewrite Hrow. destruct g; [congruence|]. reflexivity.
Qed.

(** C2: for every intent grouped by product or category, the plan selects
    the canonical name under the keys [product] and [category] and selects
    nothing under [canonical_name], the one key the label takes a name from;
    so every row [executeQueryIntent] returns is labelled from [store_id],
    [fulfillment_method], [provider] and [created_at] alone, and a row
    grouped by product alone, or by category alone, is named [Total]. *)
Theorem c2_label_omits_canonical_name (intent : QueryIntent)
    (rows : list QueryResultRow) :
  product ∈ groupBy intent \/ category ∈ groupBy intent ->
  executeQueryIntent toLocaleString Number db intent = Ok rows ->
  exists p tuples,
    buildQueryPlan intent = Ok p /\ db p = Ok tuples
    /\ (product ∈ groupBy intent ->
        get_key "product" (q_select p) = Some (sql_col canonicalItems_canonicalName))
    /\ (category ∈ groupBy intent ->
        get_key "category" (q_select p) = Some (sql_col canonicalCategories_canonicalName))
    /\ get_key "canonical_name" (q_select p) = None
    /\ rows = map (fun tuple =>
                     {| name := labelOmittingName toLocaleString (row_of p tuple);
                        value := rowValue Number (row_of p tuple) |}) tuples
    /\ (groupBy intent = [product] \/ groupBy intent = [category] ->
        Forall (fun r => name r = "Total") rows).
Proof.
  intros Hg Hex. unfold executeQueryIntent in Hex.
  destruct (buildQueryPlan intent) as [p|] eqn:Hp; [|discriminate].
  destruct (db p) as [tuples|] eqn:Hdb; [|discriminate].
  injection Hex as <-. exists p, tuples.
  destruct (buildQueryPlan_inv _ _ Hp) as (v & b & _ & Hs & _).
  assert (Hne : groupBy intent <> []).
  { intros E. rewrite E in Hg. destruct Hg as [H|H]; inversion H. }
  assert (Hmiss : forall key, key ∉ shape_keys -> key ∉ map fst (q_select p)).
  { intros key Hk Hin. apply Hk. rewrite Hs in Hin.
    eapply selectShape_keys, Hin. }
  assert (Hrows : transformQueryResult toLocaleString Number
                    (map (row_of p) tuples) (groupBy intent)
                  = map (fun tuple =>
                     {| name := labelOmittingName toLocaleString (row_of p tuple);
                        value := rowValue Number (row_of p tuple) |}) tuples).
  { unfold transformQueryResult. rewrite map_map. apply map_ext. intros tuple.
    f_equal. apply rowName_missing_name; [exact Hne|].
    apply row_of_missing, Hmiss. compute_done. }
  split; [reflexivity|]. split; [exact Hdb|].
  split; [|split; [|split; [|split]]].
  - intros H. apply includes_true in H. rewrite Hs. unfold selectShape. rewrite H.
    destruct (includes location (groupBy intent)), (includes category (groupBy intent)),
      (includes date (groupBy intent)), (includes hour (groupBy intent)),
      (includes fulfillment_method (groupBy intent)),
      (includes provider (groupBy intent)); reflexivity.
  - intros H. apply includes_true in H. rewrite Hs. unfold selectShape. rewrite H.
    destruct (includes location (groupBy intent)), (includes product (groupBy intent)),
      (includes date (groupBy intent)), (includes hour (groupBy intent)),
      (includes fulfillment_method (groupBy intent)),
      (includes provider (groupBy intent)); reflexivity.
  - rewrite Hs. unfold selectShape.
    destruct (includes location (groupBy intent)), (includes product (groupBy intent)),
      (includes category (groupBy intent)),
      (includes date (groupBy intent)), (includes hour (groupBy intent)),
      (includes fulfillment_method (groupBy intent)),
      (includes provider (groupBy intent)); reflexivity.
  - exact Hrows.
  - intros Hsolo. rewrite Hrows. apply Forall_forall. intros r Hr.
    apply list_elem_of_fmap in Hr. destruct Hr as (tuple & -> & _). simpl.
    assert (Hkeys : forall key, key <> "value" -> key <> "product" -> key <> "category" ->
                      row_of p tuple !! key = None).
    { intros key H1 H2 H3. apply row_of_missing. rewrite Hs.
      destruct Hsolo as [-> | ->].
      - change (map fst (selectShape v [product])) with ["value"; "product"].
        intros Hin.
        repeat (apply elem_of_cons in Hin; destruct Hin as [Hin|Hin]; [congruence|]).
        inversion Hin.
      - change (map fst (selectShape v [category])) with ["value"; "category"].
        intros Hin.
        repeat (apply elem_of_cons in Hin; destruct Hin as [Hin|Hin]; [congruence|]).
        inversion Hin. }
    unfold labelOmittingName, partsOmittingName.
    rewrite !Hkeys by discriminate. reflexivity.
Qed.

End Execution.

(** C2 at revenue by product over a database with the one product Latte. *)
Lemma c2_label_omits_canonical_name_witness :
  exists rows,
    executeQueryIntent (fun s => s) (fun _ => None) latte_db revenue_by_product
    = Ok rows
    /\ length rows = 1%nat
    /\ Forall (fun r => name r = "Total") rows.
Proof.
  eexists. split; [reflexivity|]. split; [reflexivity|].
  assert (Hin : product ∈ groupBy revenue_by_product) by (left; reflexivity).
  destruct (c2_label_omits_canonical_name (fun s => s) (fun _ => None) latte_db
              revenue_by_product _ (or_introl Hin) eq_refl)
    as (p & tuples & _ & _ & _ & _ & _ & _ & Hsolo).
  apply Hsolo. left. reflexivity.
Defined.

(** *** Further properties of the query builder *)

Lemma selectShape_closed (v : SQL) (g : list Dimension) :
  selectShape v g = ("value", v) :: labelColumns g.
Proof.
  unfold selectShape, labelColumns, timeLabel, set_if.
  destruct (includes location g), (includes product g), (includes category g),
    (includes date g), (includes hour g), (includes fulfillment_method g),
    (includes provider g); reflexivity.
Qed.

Lemma groupLoop_fold (l : list Dimension) (st : list SQL * option SQL) :
  fst (fold_left groupStep l st) = fst st ++ map dimColumn l.
Proof.
  revert st. induction l as [|d l IH]; intros [cols te]; simpl.
  - rewrite app_nil_r. reflexivity.
  - rewrite IH. destruct d; simpl; rewrite <- app_assoc; reflexivity.
Qed.

Lemma groupLoop_columns (g : list Dimension) :
  fst (groupLoop g) = map dimColumn g.
Proof. unfold groupLoop. rewrite groupLoop_fold. reflexivity. Qed.


Lemma labelColumns_inv (g : list Dimension) (k : string) (e : SQL) :
  (k, e) ∈ labelColumns g ->
  k <> "value"
  /\ ((e = dimColumn location /\ location ∈ g)
      \/ (e = dimColumn product /\ product ∈ g)
      \/ (e = dimColumn category /\ category ∈ g)
      \/ (e = hour_of_order /\ hour ∈ g)
      \/ (e = day_of_order /\ date ∈ g /\ hour ∉ g)
      \/ (e = dimColumn fulfillment_method /\ fulfillment_method ∈ g)
      \/ (e = dimColumn provider /\ provider ∈ g)).
Proof.
  unfold labelColumns, timeLabel. intros H.
  repeat (apply elem_of_app in H; destruct H as [H|H]).
  - destruct (includes location g) eqn:E; [|inversion H].
    apply list_elem_of_singleton in H. injection H as -> ->.
    apply includes_true in E. split; [discriminate|tauto].
  - destruct (includes product g) eqn:E; [|inversion H].
    apply list_elem_of_singleton in H. injection H as -> ->.
    apply includes_true in E. split; [discriminate|tauto].
  - destruct (includes category g) eqn:E; [|inversion H].
    apply list_elem_of_singleton in H. injection H as -> ->.
    apply includes_true in E. split; [discriminate|tauto].
  - destruct (includes hour g) eqn:Eh.
    + apply list_elem_of_singleton in H. injection H as -> ->.
      apply includes_true in Eh. split; [discriminate|tauto].
    + destruct (includes date g) eqn:Ed; [|inversion H].
      apply list_elem_of_singleton in H. injection H as -> ->.
      apply includes_true in Ed. apply includes_false in Eh.
      split; [discriminate|]. do 4 right. left. tauto.
  - destruct (includes fulfillment_method g) eqn:E; [|inversion H].
    apply list_elem_of_singleton in H. injection H as -> ->.
    apply includes_true in E. split; [discriminate|tauto].
  - destruct (includes provider g) eqn:E; [|inversion H].
    apply list_elem_of_singleton in H. injection H as -> ->.
    apply includes_true in E. split; [discriminate|tauto].
Qed.





(** *** The tables of a plan *)

Lemma metricExpr_from (m : Metric) (v : SQL) (fo : bool) :
  metricExpr m = Ok (v, fo) ->
  sql_tables v ⊆ [if fo then tbl_orders else tbl_orderItems].
Proof.
  destruct m; simpl; intros [= <- <-]; simpl; intros t Ht;
    repeat (apply elem_of_cons in Ht; destruct Ht as [->|Ht]; [left|]);
    inversion Ht.
Qed.

Lemma orders_in_plan (m : Metric) (f : Filters) (g : list Dimension)
    (v : SQL) (fo : bool) :
  metricExpr m = Ok (v, fo) ->
  needOrdersJoin f g = true ->
  tbl_orders ∈ (if fo then tbl_orders else tbl_orderItems)
               :: map join_table (joinsOf m f g).
Proof.
  intros Hm Hn. unfold joinsOf. rewrite Hn.
  destruct m; simpl in Hm; try discriminate; injection Hm as <- <-.
  - left.
  - left.
  - right. simpl. left.
  - right. simpl. left.
Qed.

Lemma canonicalItems_in_plan (m : Metric) (f : Filters) (g : list Dimension)
    (from : Table) :
  truthy (products f) || includes product g = true ->
  tbl_canonicalItems ∈ from :: map join_table (joinsOf m f g).
Proof.
  intros H. unfold joinsOf. rewrite H. right. rewrite !map_app.
  apply elem_of_app. right. apply elem_of_app. left. simpl. left.
Qed.

Lemma canonicalCategories_in_plan (m : Metric) (f : Filters) (g : list Dimension)
    (from : Table) :
  truthy (categories f) || includes category g = true ->
  tbl_canonicalCategories ∈ from :: map join_table (joinsOf m f g).
Proof.
  intros H. unfold joinsOf. rewrite H. right. rewrite !map_app.
  apply elem_of_app. right. apply elem_of_app. right. simpl. left.
Qed.

Lemma has_length_truthy {A} (o : option (list A)) :
  has_length o = true -> truthy o = true.
Proof. destruct o as [[|x l]|]; simpl; congruence. Qed.

Lemma needOrdersJoin_dim (f : Filters) (g : list Dimension) (d : Dimension) :
  d ∈ g ->
  d = location \/ d = fulfillment_method \/ d = date \/ d = hour \/ d = provider ->
  needOrdersJoin f g = true.
Proof.
  intros Hd Hc. apply includes_true in Hd. unfold needOrdersJoin.
  destruct Hc as [->|[->|[->|[->| ->]]]]; rewrite Hd;
    rewrite ?orb_true_r; reflexivity.
Qed.

Lemma dimColumn_in_plan (m : Metric) (f : Filters) (g : list Dimension)
    (v : SQL) (fo : bool) (d : Dimension) :
  metricExpr m = Ok (v, fo) ->
  d ∈ g ->
  sql_tables (dimColumn d)
  ⊆ (if fo then tbl_orders else tbl_orderItems) :: map join_table (joinsOf m f g).
Proof.
  intros Hm Hd t Ht.
  assert (Ho : d = location \/ d = fulfillment_method \/ d = date \/ d = hour
               \/ d = provider -> t = tbl_orders ->
               t ∈ (if fo then tbl_orders else tbl_orderItems)
                   :: map join_table (joinsOf m f g)).
  { intros Hc ->. eapply orders_in_plan; [exact Hm|].
    eapply needOrdersJoin_dim; eassumption. }
  pose proof (proj2 (includes_true d g) Hd) as Hi.
  destruct d; simpl in Ht; apply list_elem_of_singleton in Ht.
  - apply Ho; [tauto|exact Ht].
  - subst t. apply canonicalItems_in_plan. rewrite Hi. apply orb_true_r.
  - subst t. apply canonicalCategories_in_plan. rewrite Hi. apply orb_true_r.
  - apply Ho; [tauto|exact Ht].
  - apply Ho; [tauto|exact Ht].
  - apply Ho; [tauto|exact Ht].
  - apply Ho; [tauto|exact Ht].
Qed.

Lemma inArray_if_inv (o : option (list string)) (col : Column) (c : Cond) :
  c ∈ inArray_if o col -> cond_tables c = [col_table col] /\ truthy o = true.
Proof.
  unfold inArray_if. destruct (has_length o) eqn:E; [|intros H; inversion H].
  intros H. apply list_elem_of_singleton in H. subst c.
  split; [reflexivity|apply has_length_truthy, E].
Qed.

Lemma cond_tables_and (cs : list Cond) (t : Table) :
  t ∈ cond_tables (c_and cs) -> exists c, c ∈ cs /\ t ∈ cond_tables c.
Proof.
  induction cs as [|c cs IH]; simpl; intros H; [inversion H|].
  apply elem_of_app in H. destruct H as [H|H].
  - exists c. split; [left|exact H].
  - destruct (IH H) as (c' & Hc' & Ht). exists c'. split; [right; exact Hc'|exact Ht].
Qed.

Lemma whereConditions_in_plan (m : Metric) (f : Filters) (g : list Dimension)
    (v : SQL) (fo : bool) (c : Cond) :
  metricExpr m = Ok (v, fo) ->
  c ∈ whereConditions f ->
  cond_tables c
  ⊆ (if fo then tbl_orders else tbl_orderItems) :: map join_table (joinsOf m f g).
Proof.
  intros Hm Hc t Ht.
  assert (Ho : (truthy (locations f) || truthy (fulfillmentMethods f)
                || truthy (date_range f) || truthy (providers f) = true) ->
               tbl_orders ∈ (if fo then tbl_orders else tbl_orderItems)
                            :: map join_table (joinsOf m f g)).
  { intros H. eapply orders_in_plan; [exact Hm|]. unfold needOrdersJoin.
    rewrite H. reflexivity. }
  unfold whereConditions in Hc.
  repeat (apply elem_of_app in Hc; destruct Hc as [Hc|Hc]).
  - destruct (date_range f) as [r|] eqn:Er; [|inversion Hc].
    apply list_elem_of_singleton in Hc. subst c. simpl in Ht.
    assert (t = tbl_orders) as ->.
    { apply elem_of_cons in Ht. destruct Ht as [->|Ht]; [reflexivity|].
      apply list_elem_of_singleton in Ht. exact Ht. }
    apply Ho. simpl. rewrite !orb_true_r. reflexivity.
  - apply inArray_if_inv in Hc. destruct Hc as [Hc Htr]. rewrite Hc in Ht.
    apply list_elem_of_singleton in Ht. subst t. apply Ho. rewrite Htr. reflexivity.
  - apply inArray_if_inv in Hc. destruct Hc as [Hc Htr]. rewrite Hc in Ht.
    apply list_elem_of_singleton in Ht. subst t. apply Ho. rewrite Htr.
    rewrite !orb_true_r. reflexivity.
  - apply inArray_if_inv in Hc. destruct Hc as [Hc Htr]. rewrite Hc in Ht.
    apply list_elem_of_singleton in Ht. subst t. apply Ho. rewrite Htr.
    rewrite !orb_true_r. reflexivity.
  - apply inArray_if_inv in Hc. destruct Hc as [Hc Htr]. rewrite Hc in Ht.
    apply list_elem_of_singleton in Ht. subst t.
    apply canonicalItems_in_plan. rewrite Htr. reflexivity.
  - apply inArray_if_inv in Hc. destruct Hc as [Hc Htr]. rewrite Hc in Ht.
    apply list_elem_of_singleton in Ht. subst t.
    apply canonicalCategories_in_plan. rewrite Htr. reflexivity.
Qed.

Lemma joinsOf_scoped (m : Metric) (f : Filters) (g : list Dimension)
    (v : SQL) (fo : bool) :
  metricExpr m = Ok (v, fo) ->
  joins_scoped [if fo then tbl_orders else tbl_orderItems] (joinsOf m f g) = true
  /\ NoDup ((if fo then tbl_orders else tbl_orderItems)
            :: map join_table (joinsOf m f g)).
Proof.
  intros Hm. unfold joinsOf, needOrderItemsJoin.
  destruct (needOrdersJoin f g), (truthy (products f)), (truthy (categories f)),
    (includes product g), (includes category g);
    destruct m; simpl in Hm; try discriminate; injection Hm as <- <-;
    (split; [reflexivity|compute_done]).
Qed.

Lemma groupLoop_time (l : list Dimension) (st : list SQL * option SQL) (e : SQL) :
  snd (fold_left groupStep l st) = Some e ->
  snd st = Some e
  \/ ((e = day_of_order \/ e = hour_of_order) /\ (date ∈ l \/ hour ∈ l)).
Proof.
  revert st. induction l as [|d l IH]; intros [cols te]; simpl; [tauto|].
  intros H. apply IH in H. destruct H as [H|[He Hl]].
  - destruct d; simpl in H; try (left; exact H).
    + injection H as <-. right. split; [left; reflexivity|]. left. left.
    + injection H as <-. right. split; [right; reflexivity|]. right. left.
  - right. split; [exact He|]. destruct Hl as [Hl|Hl]; [left|right]; right; exact Hl.
Qed.

Lemma buildQueryPlan_where (intent : QueryIntent) (p : QueryPlan) :
  buildQueryPlan intent = Ok p ->
  q_where p = match whereConditions (filters intent) with
              | [] => None
              | _ => Some (c_and (whereConditions (filters intent)))
              end.
Proof.
  unfold buildQueryPlan.
  destruct (metricExpr (metric intent)) as [[v b]|msg]; [|discriminate].
  destruct (groupLoop (groupBy intent)) as [cols te].
  intros [= <-]. reflexivity.
Qed.

Lemma metricExpr_raw_free (m : Metric) (v : SQL) (fo : bool) :
  metricExpr m = Ok (v, fo) -> raw_free v = true.
Proof. destruct m; intros [= <- <-] || discriminate; reflexivity. Qed.

(** X15: a compiled plan mentions only tables it reads: the
    expressions of the select shape and of the group-by are built from
    columns alone, and their columns, like those of the conditions, belong
    to the base relation or a joined table; every join condition mentions
    only its own table and the ones before it; no table is read twice; and
    when the intent sorts by date, the order-by expression is built from
    columns in scope too. (Sorting by value, count or name is left out: the
    first two order by a raw fragment, the third by a column that may be
    out of scope.) *)
Theorem plan_well_scoped (intent : QueryIntent) (p : QueryPlan) :
  buildQueryPlan intent = Ok p ->
  (forall k e, (k, e) ∈ q_select p ->
     raw_free e = true /\ sql_tables e ⊆ plan_tables p)
  /\ (forall c, q_where p = Some c -> cond_tables c ⊆ plan_tables p)
  /\ (forall e, e ∈ q_groupBy p -> raw_free e = true /\ sql_tables e ⊆ plan_tables p)
  /\ joins_scoped [q_from p] (q_joins p) = true
  /\ NoDup (plan_tables p)
  /\ (forall o e, q_orderBy p = Some (o, e) ->
        sortBy intent = Some sort_date ->
        raw_free e = true /\ sql_tables e ⊆ plan_tables p).
Proof.
  intros Hp. destruct (buildQueryPlan_inv intent p Hp)
    as (v & fo & Hm & Hsel & Hfrom & Hj & Hg & Ho).
  pose proof (buildQueryPlan_where intent p Hp) as Hw.
  unfold plan_tables. rewrite Hsel, Hfrom, Hj, Hg, Ho, selectShape_closed,
    groupLoop_columns.
  assert (Hdim : forall e d, e = dimColumn d -> d ∈ groupBy intent ->
            raw_free e = true
            /\ sql_tables e ⊆ (if fo then tbl_orders else tbl_orderItems)
                 :: map join_table (joinsOf (metric intent) (filters intent)
                                      (groupBy intent))).
  { intros e d -> Hd. split; [destruct d; reflexivity|].
    eapply dimColumn_in_plan; eassumption. }
  split; [|split; [|split; [|split; [|split]]]].
  - intros k e Hin. apply elem_of_cons in Hin. destruct Hin as [[= -> ->]|Hin].
    + split; [exact (metricExpr_raw_free _ _ _ Hm)|].
      intros t Ht. apply (metricExpr_from _ _ _ Hm) in Ht.
      apply list_elem_of_singleton in Ht. subst t. left.
    + apply labelColumns_inv in Hin. destruct Hin as (_ & Hc).
      destruct Hc as [[He H]|[[He H]|[[He H]|[[He H]|[(He & H & _)|[[He H]|[He H]]]]]]].
      * eapply Hdim; eassumption.
      * eapply Hdim; eassumption.
      * eapply Hdim; eassumption.
      * subst e. split; [reflexivity|].
        change (sql_tables hour_of_order) with (sql_tables (dimColumn hour)).
        exact (proj2 (Hdim _ hour eq_refl H)).
      * subst e. eapply (Hdim _ date); [reflexivity|exact H].
      * eapply Hdim; eassumption.
      * eapply Hdim; eassumption.
  - rewrite Hw. intros c Hc t Ht.
    assert (Hc' : c = c_and (whereConditions (filters intent))).
    { destruct (whereConditions (filters intent)); congruence. }
    subst c. apply cond_tables_and in Ht. destruct Ht as (c & Hin & Ht).
    eapply whereConditions_in_plan; eassumption.
  - intros e He. apply list_elem_of_fmap in He. destruct He as (d & -> & Hd).
    eapply Hdim; [reflexivity|exact Hd].
  - apply (joinsOf_scoped _ _ _ _ _ Hm).
  - apply (joinsOf_scoped _ _ _ _ _ Hm).
  - intros o e Hob Hs. unfold orderByOf in Hob. rewrite Hs in Hob. simpl in Hob.
    destruct (snd (groupLoop (groupBy intent))) as [te|] eqn:Et; [|discriminate].
    injection Hob as _ <-. unfold groupLoop in Et. apply groupLoop_time in Et.
    destruct Et as [Et|[He Hl]]; [discriminate|].
    assert (Hrf : raw_free te = true) by (destruct He as [->| ->]; reflexivity).
    assert (Hst : sql_tables te = sql_tables (dimColumn date)).
    { destruct He as [->| ->]; reflexivity. }
    split; [exact Hrf|]. rewrite Hst. destruct Hl as [Hl|Hl].
    + exact (proj2 (Hdim _ date eq_refl Hl)).
    + change (sql_tables (dimColumn date)) with (sql_tables (dimColumn hour)).
      exact (proj2 (Hdim _ hour eq_refl Hl)).
Qed.

(** X15 at the orders by hour, location and date, latest first: the plan
    orders by the day of the order, a column of the base relation. *)
Lemma plan_well_scoped_witness :
  exists p, buildQueryPlan orders_by_hour_then_date_latest_first = Ok p
    /\ q_orderBy p = Some (desc, day_of_order)
    /\ plan_tables p = [tbl_orders]
    /\ (forall k e, (k, e) ∈ q_select p ->
          raw_free e = true /\ sql_tables e ⊆ plan_tables p)
    /\ (forall c, q_where p = Some c -> cond_tables c ⊆ plan_tables p)
    /\ (forall e, e ∈ q_groupBy p ->
          raw_free e = true /\ sql_tables e ⊆ plan_tables p)
    /\ joins_scoped [q_from p] (q_joins p) = true
    /\ NoDup (plan_tables p)
    /\ (forall o e, q_orderBy p = Some (o, e) ->
          sortBy orders_by_hour_then_date_latest_first = Some sort_date ->
          raw_free e = true /\ sql_tables e ⊆ plan_tables p).
Proof.
  eexists. split; [reflexivity|]. split; [reflexivity|]. split; [reflexivity|].
  exact (plan_well_scoped orders_by_hour_then_date_latest_first _ eq_refl).
Defined.

(** *** ORDER BY *)

Lemma groupLoop_snoc (l : list Dimension) (d : Dimension) :
  groupLoop (l ++ [d]) = groupStep (groupLoop l) d.
Proof. unfold groupLoop. rewrite fold_left_app. reflexivity. Qed.

Lemma groupLoop_last_time (l : list Dimension) (e : SQL) :
  snd (groupLoop l) = Some e ->
  exists pre d post,
    l = pre ++ d :: post
    /\ (d = date \/ d = hour) /\ (date ∉ post) /\ (hour ∉ post)
    /\ e = (if decide (d = hour) then hour_of_order else day_of_order).
Proof.
  revert e. induction l as [|d l IH] using rev_ind; intros e; [discriminate|].
  rewrite groupLoop_snoc. destruct (groupLoop l) as [cols te] eqn:Eg.
  assert (Hkeep : d <> date -> d <> hour -> snd (groupStep (cols, te) d) = Some e ->
            exists pre d' post,
              l ++ [d] = pre ++ d' :: post
              /\ (d' = date \/ d' = hour) /\ (date ∉ post) /\ (hour ∉ post)
              /\ e = (if decide (d' = hour) then hour_of_order else day_of_order)).
  { intros Hd Hh H.
    assert (Hte : te = Some e) by (destruct d; simpl in H; congruence).
    destruct (IH e Hte) as (pre & d' & post & -> & Hd' & Hnd & Hnh & He).
    exists pre, d', (post ++ [d]). rewrite <- app_assoc. split; [reflexivity|].
    split; [exact Hd'|]. split; [|split; [|exact He]].
    - intros Hin. apply elem_of_app in Hin. destruct Hin as [Hin|Hin]; [tauto|].
      apply list_elem_of_singleton in Hin. congruence.
    - intros Hin. apply elem_of_app in Hin. destruct Hin as [Hin|Hin]; [tauto|].
      apply list_elem_of_singleton in Hin. congruence. }
  destruct d; try (apply Hkeep; discriminate).
  - simpl. intros [= <-]. exists l, date, []. split; [reflexivity|].
    split; [left; reflexivity|]. split; [intros H; inversion H|].
    split; [intros H; inversion H|reflexivity].
  - simpl. intros [= <-]. exists l, hour, []. split; [reflexivity|].
    split; [right; reflexivity|]. split; [intros H; inversion H|].
    split; [intros H; inversion H|reflexivity].
Qed.

Lemma groupLoop_time_none (l : list Dimension) :
  snd (groupLoop l) = None <-> (date ∉ l) /\ (hour ∉ l).
Proof.
  split.
  - induction l as [|d l IH] using rev_ind; [intros _; split; intros H; inversion H|].
    rewrite groupLoop_snoc. destruct (groupLoop l) as [cols te] eqn:Eg.
    intros H.
    assert (Hte : te = None /\ d <> date /\ d <> hour).
    { destruct d; simpl in H; try discriminate; repeat split; congruence. }
    destruct Hte as (Hte & Hd & Hh). destruct (IH Hte) as [Hnd Hnh]. split.
    + intros Hin. apply elem_of_app in Hin. destruct Hin as [Hin|Hin]; [tauto|].
      apply list_elem_of_singleton in Hin. congruence.
    + intros Hin. apply elem_of_app in Hin. destruct Hin as [Hin|Hin]; [tauto|].
      apply list_elem_of_singleton in Hin. congruence.
  - intros [Hd Hh]. unfold groupLoop. rewrite groupLoop_no_time by assumption.
    reflexivity.
Qed.

(** X16: a plan has no order-by clause exactly when the intent has no
    [sortBy], or sorts by date without [date] or [hour] in [groupBy]; the
    direction is descending exactly when [sortOrder] is [desc]; sorting by
    date sorts by the expression of the last time dimension of
    [groupBy]. *)
Theorem order_by_clause (intent : QueryIntent) (p : QueryPlan) :
  buildQueryPlan intent = Ok p ->
  (q_orderBy p = None
   <-> sortBy intent = None
       \/ (sortBy intent = Some sort_date
           /\ (date ∉ groupBy intent) /\ (hour ∉ groupBy intent)))
  /\ (forall o e, q_orderBy p = Some (o, e) ->
        (o = desc <-> sortOrder intent = Some desc))
  /\ (forall o e, q_orderBy p = Some (o, e) -> sortBy intent = Some sort_date ->
        exists pre d post,
          groupBy intent = pre ++ d :: post
          /\ (d = date \/ d = hour) /\ (date ∉ post) /\ (hour ∉ post)
          /\ e = (if decide (d = hour) then hour_of_order else day_of_order)).
Proof.
  intros Hp. destruct (buildQueryPlan_inv intent p Hp)
    as (v & fo & _ & _ & _ & _ & _ & Ho).
  rewrite Ho. unfold orderByOf. split; [|split].
  - destruct (sortBy intent) as [[| | |]|]; simpl.
    + split; [discriminate|]. intros [H|[H _]]; discriminate.
    + split; [discriminate|]. intros [H|[H _]]; discriminate.
    + split; [discriminate|]. intros [H|[H _]]; discriminate.
    + destruct (snd (groupLoop (groupBy intent))) as [te|] eqn:Et.
      * split; [discriminate|]. intros [H|(_ & Hd & Hh)]; [discriminate|].
        pose proof (proj2 (groupLoop_time_none _) (conj Hd Hh)). congruence.
      * split; [|reflexivity]. intros _. right. split; [reflexivity|].
        apply groupLoop_time_none, Et.
    + split; [|reflexivity]. intros _. left. reflexivity.
  - intros o e H. destruct (sortBy intent) as [sb|]; [|discriminate].
    destruct (sortColumn sb _); [|discriminate]. injection H as <- _.
    destruct (sortOrder intent) as [[|]|]; split; congruence.
  - intros o e H Hs. rewrite Hs in H. simpl in H.
    destruct (snd (groupLoop (groupBy intent))) as [te|] eqn:Et; [|discriminate].
    injection H as _ <-. apply groupLoop_last_time, Et.
Qed.

Lemma order_by_clause_witness :
  exists p, buildQueryPlan orders_by_hour_then_date_latest_first = Ok p
    /\ q_orderBy p = Some (desc, day_of_order)
    /\ exists pre d post,
         groupBy orders_by_hour_then_date_latest_first = pre ++ d :: post
         /\ (d = date \/ d = hour) /\ (date ∉ post) /\ (hour ∉ post)
         /\ day_of_order = (if decide (d = hour) then hour_of_order else day_of_order).
Proof.
  eexists. split; [reflexivity|]. split; [reflexivity|].
  destruct (order_by_clause orders_by_hour_then_date_latest_first _ eq_refl)
    as (_ & _ & H).
  exact (H desc day_of_order eq_refl eq_refl).
Defined.

(** *** Filters with an empty array *)

Lemma inArray_if_drop_empty (o : option (list string)) (col : Column) :
  inArray_if (drop_empty o) col = inArray_if o col.
Proof. destruct o as [[|x l]|]; reflexivity. Qed.

Lemma truthy_drop_empty (o : option (list string)) :
  truthy (drop_empty o) = true -> truthy o = true.
Proof. destruct o as [[|x l]|]; simpl; congruence. Qed.

Lemma elem_of_if_weaken {A} (b b' : bool) (x y : A) :
  (b' = true -> b = true) ->
  y ∈ (if b' then [x] else []) -> y ∈ (if b then [x] else []).
Proof.
  intros Hb H. destruct b'; [|inversion H]. rewrite Hb by reflexivity. exact H.
Qed.

Lemma orb_weaken (a a' b b' : bool) :
  (a' = true -> a = true) -> (b' = true -> b = true) ->
  a' || b' = true -> a || b = true.
Proof. destruct a', b'; simpl; intros Ha Hb H; rewrite ?Ha, ?Hb by reflexivity;
  rewrite ?orb_true_r; try reflexivity; discriminate. Qed.

Lemma joinsOf_without_empty (m : Metric) (f : Filters) (g : list Dimension) (j : Join) :
  j ∈ joinsOf m (without_empty f) g -> j ∈ joinsOf m f g.
Proof.
  unfold joinsOf. intros H.
  apply elem_of_app in H. destruct H as [H|H]; [apply elem_of_app; left|].
  - destruct m; try exact H.
    + revert H. apply elem_of_if_weaken. unfold needOrderItemsJoin. simpl.
      repeat apply orb_weaken; try tauto; apply truthy_drop_empty.
    + revert H. apply elem_of_if_weaken. unfold needOrderItemsJoin. simpl.
      repeat apply orb_weaken; try tauto; apply truthy_drop_empty.
    + revert H. apply elem_of_if_weaken. unfold needOrdersJoin. simpl.
      repeat apply orb_weaken; try tauto; apply truthy_drop_empty.
    + revert H. apply elem_of_if_weaken. unfold needOrdersJoin. simpl.
      repeat apply orb_weaken; try tauto; apply truthy_drop_empty.
  - apply elem_of_app. right.
    apply elem_of_app in H. destruct H as [H|H]; apply elem_of_app; [left|right];
      revert H; apply elem_of_if_weaken; simpl;
      apply orb_weaken; try tauto; apply truthy_drop_empty.
Qed.

(** X17: an empty filter array adds no condition: the plan has the
    same where clause, select shape, base relation, group-by, order-by and
    limit as without it; it can only add joins. *)
Theorem empty_filter_arrays (intent : QueryIntent) (p : QueryPlan) :
  buildQueryPlan intent = Ok p ->
  exists p',
    buildQueryPlan (with_filters intent (without_empty (filters intent))) = Ok p'
    /\ q_where p' = q_where p /\ q_select p' = q_select p /\ q_from p' = q_from p
    /\ q_groupBy p' = q_groupBy p /\ q_orderBy p' = q_orderBy p
    /\ q_limit p' = q_limit p
    /\ (forall j, j ∈ q_joins p' -> j ∈ q_joins p).
Proof.
  unfold buildQueryPlan. simpl.
  destruct (metricExpr (metric intent)) as [[v b]|msg]; [|discriminate].
  destruct (groupLoop (groupBy intent)) as [cols te].
  intros [= <-]. eexists. split; [reflexivity|]. simpl.
  assert (Hw : whereConditions (without_empty (filters intent))
               = whereConditions (filters intent)).
  { unfold whereConditions. simpl. rewrite !inArray_if_drop_empty. reflexivity. }
  rewrite Hw. repeat split. apply joinsOf_without_empty.
Qed.

Lemma empty_filter_arrays_witness :
  exists p p',
    buildQueryPlan revenue_by_location_of_no_products = Ok p
    /\ buildQueryPlan (with_filters revenue_by_location_of_no_products
                         (without_empty (filters revenue_by_location_of_no_products)))
       = Ok p'
    /\ q_where p = None /\ q_where p' = None
    /\ plan_tables p = [tbl_orders; tbl_orderItems; tbl_canonicalItems]
    /\ plan_tables p' = [tbl_orders]
    /\ (forall j, j ∈ q_joins p' -> j ∈ q_joins p).
Proof.
  destruct (empty_filter_arrays revenue_by_location_of_no_products _ eq_refl)
    as (p' & Hp' & Hw & _ & _ & _ & _ & _ & Hj).
  eexists _, p'. split; [reflexivity|]. split; [exact Hp'|].
  split; [reflexivity|]. split; [exact Hw|]. split; [reflexivity|].
  split; [|exact Hj].
  vm_compute in Hp'. injection Hp' as <-. reflexivity.
Defined.

End QueryFacts.

(** ** Part V: properties of the item normalizer *)

Module NormalizerFacts.
Import Normalizer.
Local Open Scope N_scope.

(** *** The model at the examples of the specification *)

Example normalize_quantity_moved :
  normalizeText (prims:=ascii_prims) (js "12 Tacos") = Some (js "tacos")
  /\ normalizeText (prims:=ascii_prims) (js "Tacos  12") = Some (js "tacos").
Proof. split; reflexivity. Qed.

Example normalize_keeps_digits_in_words :
  normalizeText (prims:=ascii_prims) (js "  Hot-Drinks!! 3pc A1 22b 5 ")
  = Some (js "hotdrinks a1 22b").
Proof. reflexivity. Qed.

Example normalize_drops_emoji :
  normalizeText (prims:=ascii_prims) ([55356; 57134] ++ js " Taco") = Some (js "taco").
Proof. reflexivity. Qed.

Example display_names :
  canonicalNameOf (prims:=ascii_prims) category (js "hot drinks") (js "hot drinks")
  = js "Hot Drinks"
  /\ canonicalNameOf (prims:=ascii_prims) item (js "Taco 12 pcs") (js "taco")
     = js "Taco".
Proof. split; reflexivity. Qed.

Example levenshtein_kitten_sitting :
  levenshtein (js "kitten") (js "sitting") = 3%nat.
Proof. reflexivity. Qed.

(** *** Character classes *)

Lemma in_range_spec (lo hi c : N) : in_range lo hi c = true <-> lo <= c <= hi.
Proof. unfold in_range. rewrite andb_true_iff, !N.leb_le. tauto. Qed.

Ltac classes :=
  unfold plain, kept, non_space, is_word, is_space, is_lower, is_upper, is_digit,
    emoji_pair, in_range in *;
  repeat match goal with
         | H : _ && _ = true |- _ => apply andb_prop in H; destruct H
         | H : _ || _ = true |- _ => apply orb_prop in H; destruct H
         | H : negb _ = true |- _ => apply negb_true_iff in H
         | H : negb _ = false |- _ => apply negb_false_iff in H
         | H : _ || _ = false |- _ => apply orb_false_elim in H; destruct H
         | H : (_ <=? _) = true |- _ => apply N.leb_le in H
         | H : (_ <=? _) = false |- _ => apply N.leb_gt in H
         | H : (_ =? _) = true |- _ => apply N.eqb_eq in H
         | H : (_ =? _) = false |- _ => apply N.eqb_neq in H
         end.

Ltac decide_class :=
  repeat match goal with
         | |- context [?a <=? ?b] => destruct (N.leb_spec a b)
         | |- context [?a =? ?b] => destruct (N.eqb_spec a b)
         end;
  simpl; try reflexivity; try discriminate; try lia.

Lemma space_not_word (c : N) : is_space c = true -> is_word c = false.
Proof. intros H. classes; subst; decide_class. Qed.

Lemma space_not_digit (c : N) : is_space c = true -> is_digit c = false.
Proof. intros H. classes; subst; decide_class. Qed.

Lemma kept_non_space_word (c : N) :
  kept c = true -> is_space c = false -> is_word c = true.
Proof.
  unfold kept. intros H Hs. rewrite Hs, orb_false_r in H.
  unfold is_word. apply orb_prop in H. destruct H as [H|H]; rewrite H; 
    rewrite ?orb_true_r; reflexivity.
Qed.

Lemma digit_word (c : N) : is_digit c = true -> is_word c = true.
Proof. unfold is_word. intros ->. rewrite ?orb_true_r. reflexivity. Qed.

Lemma plain_kept (c : N) : plain c = true -> kept c = true.
Proof.
  unfold plain, kept. destruct (is_lower c), (is_digit c); simpl; try reflexivity.
  intros H. apply N.eqb_eq in H. subst c. reflexivity.
Qed.

Lemma plain_space (c : N) : plain c = true -> is_space c = true -> c = 32.
Proof.
  unfold plain. intros H Hs. apply orb_prop in H. destruct H as [H|H].
  - exfalso. apply orb_prop in H.
    pose proof (space_not_word c Hs) as Hw. unfold is_word in Hw.
    destruct H as [H|H]; rewrite H in Hw; rewrite ?orb_true_r in Hw; discriminate.
  - apply N.eqb_eq, H.
Qed.

Lemma plain_not_surrogate (c : N) : plain c = true -> in_range 55296 56319 c = false.
Proof. intros H. classes; subst; decide_class. Qed.


(** *** Runs *)

Lemma run_le (p : N -> bool) (s : jsstring) : (run p s <= length s)%nat.
Proof. induction s as [|c r IH]; simpl; [lia|]. destruct (p c); simpl; lia. Qed.

Lemma run_take (p : N -> bool) (s : jsstring) :
  forallb p (take (run p s) s) = true.
Proof.
  induction s as [|c r IH]; [reflexivity|]. simpl.
  destruct (p c) eqn:E; [|reflexivity]. simpl. rewrite E. exact IH.
Qed.

Lemma run_drop (p : N -> bool) (s : jsstring) :
  match drop (run p s) s with
  | [] => True
  | c :: _ => p c = false
  end.
Proof.
  induction s as [|c r IH]; [exact I|]. simpl.
  destruct (p c) eqn:E; [exact IH|exact E].
Qed.

Lemma run_app (p : N -> bool) (t rest : jsstring) :
  forallb p t = true ->
  match rest with [] => True | c :: _ => p c = false end ->
  run p (t ++ rest) = length t.
Proof.
  intros Ht Hr. induction t as [|c t IH]; simpl.
  - destruct rest as [|c r]; [reflexivity|]. simpl. rewrite Hr. reflexivity.
  - simpl in Ht. apply andb_prop in Ht as [Hc Ht]. rewrite Hc, (IH Ht). reflexivity.
Qed.

Lemma at_space_false (s : jsstring) :
  at_space s = false -> exists c r, s = c :: r /\ is_space c = false.
Proof. destruct s as [|c r]; [discriminate|]. simpl. eauto. Qed.

(** A string that starts with a token splits into it and the rest. *)
Lemma split_token (s : jsstring) :
  at_space s = false ->
  exists t rest,
    s = t ++ rest /\ t <> [] /\ forallb non_space t = true
    /\ at_space rest = true /\ (length rest < length s)%nat.
Proof.
  intros H. destruct (at_space_false s H) as (c & r & -> & Hc).
  exists (take (run non_space (c :: r)) (c :: r)), (drop (run non_space (c :: r)) (c :: r)).
  split; [symmetry; apply take_drop|].
  pose proof (run_take non_space (c :: r)) as Ht.
  pose proof (run_drop non_space (c :: r)) as Hd.
  assert (Hrun : exists k, run non_space (c :: r) = S k).
  { simpl. unfold non_space at 1. rewrite Hc. simpl. eauto. }
  destruct Hrun as [k Hk]. rewrite Hk in *.
  split; [simpl; discriminate|]. split; [exact Ht|]. split.
  - destruct (drop (S k) (c :: r)) as [|c' r']; [reflexivity|].
    simpl. unfold non_space in Hd. apply negb_false_iff in Hd. exact Hd.
  - rewrite length_drop. simpl. lia.
Qed.

(** A string that starts with spaces: what follows them. *)
Lemma split_spaces (c : N) (r : jsstring) :
  is_space c = true ->
  exists k rest,
    run is_space (c :: r) = S k /\ drop (S k) (c :: r) = rest
    /\ (rest = [] \/ at_space rest = false) /\ (length rest < length (c :: r))%nat.
Proof.
  intros Hc. pose proof (run_drop is_space (c :: r)) as Hd.
  assert (Hrun : exists k, run is_space (c :: r) = S k).
  { simpl. rewrite Hc. eauto. }
  destruct Hrun as [k Hk]. rewrite Hk in Hd.
  exists k, (drop (S k) (c :: r)). split; [exact Hk|]. split; [reflexivity|]. split.
  - destruct (drop (S k) (c :: r)) as [|c' r']; [left; reflexivity|right; exact Hd].
  - rewrite length_drop. simpl. lia.
Qed.

(** *** Tokens *)

Lemma tokens_space (c : N) (r : jsstring) :
  is_space c = true -> tokens (c :: r) = tokens r.
Proof. intros H. simpl. rewrite H. reflexivity. Qed.

Lemma tokens_app (t rest : jsstring) :
  t <> [] -> forallb non_space t = true -> at_space rest = true ->
  tokens (t ++ rest) = t :: tokens rest.
Proof.
  intros Hne Ht Hr. induction t as [|c t IH]; [congruence|].
  simpl in Ht. apply andb_prop in Ht as [Hc Ht].
  unfold non_space in Hc. apply negb_true_iff in Hc.
  destruct t as [|c2 t'].
  - simpl. rewrite Hc. destruct rest as [|c' r']; [reflexivity|].
    simpl in Hr. rewrite Hr. reflexivity.
  - assert (Hc2 : is_space c2 = false).
    { simpl in Ht. apply andb_prop in Ht as [H _]. apply negb_true_iff, H. }
    change ((c :: c2 :: t') ++ rest) with (c :: ((c2 :: t') ++ rest)).
    change (tokens (c :: (c2 :: t') ++ rest)) with
      (if is_space c then tokens ((c2 :: t') ++ rest)
       else if is_space c2 then [c] :: tokens ((c2 :: t') ++ rest)
       else match tokens ((c2 :: t') ++ rest) with
            | t0 :: ts => (c :: t0) :: ts
            | [] => [[c]]
            end).
    rewrite Hc, Hc2, IH; [reflexivity|discriminate|exact Ht].
Qed.

Lemma tokens_drop_spaces (s : jsstring) :
  tokens (drop (run is_space s) s) = tokens s.
Proof.
  induction s as [|c r IH]; [reflexivity|].
  simpl run. destruct (is_space c) eqn:E; [|reflexivity].
  rewrite tokens_space by exact E. exact IH.
Qed.

Lemma tokens_good (p : N -> bool) (s : jsstring) :
  forallb p s = true -> Forall (good_token p) (tokens s).
Proof.
  induction s as [|c r IH]; intros Hs; [constructor|].
  simpl in Hs. apply andb_prop in Hs as [Hc Hr]. specialize (IH Hr).
  simpl. destruct (is_space c) eqn:E; [exact IH|].
  assert (Hone : good_token p [c]).
  { split; [discriminate|]. unfold non_space. simpl. rewrite E, Hc. split; reflexivity. }
  destruct r as [|c' r']; [constructor; [exact Hone|constructor]|].
  destruct (is_space c'); [constructor; assumption|].
  destruct (tokens (c' :: r')) as [|t ts]; [constructor; [exact Hone|constructor]|].
  inversion IH as [|? ? (Hne & Hns & Hp) Hts]; subst.
  constructor; [|exact Hts].
  split; [discriminate|]. unfold non_space in *. simpl. rewrite E, Hc, Hns, Hp.
  split; reflexivity.
Qed.

Lemma tokens_join (ts : list jsstring) :
  Forall (good_token (fun _ => true)) ts -> tokens (join_with 32 ts) = ts.
Proof.
  induction ts as [|t ts IH]; intros H; [reflexivity|].
  inversion H as [|? ? (Hne & Hns & _) Hts]; subst.
  destruct ts as [|t' ts'].
  - simpl. rewrite <- (app_nil_r t) at 1. rewrite tokens_app by (try assumption; reflexivity).
    reflexivity.
  - change (join_with 32 (t :: t' :: ts')) with (t ++ 32 :: join_with 32 (t' :: ts')).
    rewrite tokens_app by (try assumption; reflexivity).
    rewrite tokens_space by reflexivity. rewrite (IH Hts). reflexivity.
Qed.

Lemma join_nil (ts : list jsstring) :
  Forall (fun t => t <> []) ts -> join_with 32 ts = [] -> ts = [].
Proof.
  intros H E. destruct ts as [|t ts]; [reflexivity|].
  inversion H as [|? ? Hne _]; subst. exfalso.
  destruct t as [|c t]; [congruence|]. destruct ts; discriminate.
Qed.


(** *** Global replacement *)

Lemma replace_g_skip (re : matcher) (repl : jsstring) (k : nat)
    (prev : option N) (s : jsstring) :
  exists prev', replace_g re repl k prev s = replace_g re repl 0 prev' (drop k s).
Proof.
  revert k prev. induction s as [|c r IH]; intros k prev.
  - exists prev. destruct k; reflexivity.
  - destruct k as [|k]; [exists prev; reflexivity|]. simpl. apply IH.
Qed.

Lemma replace_g_nomatch (re : matcher) (repl : jsstring) (prev : option N)
    (c : N) (r : jsstring) :
  re prev (c :: r) = None ->
  replace_g re repl 0 prev (c :: r) = c :: replace_g re repl 0 (Some c) r.
Proof. intros H. simpl. rewrite H. reflexivity. Qed.

Lemma replace_g_match (re : matcher) (repl : jsstring) (prev : option N)
    (c : N) (r : jsstring) (k : nat) :
  re prev (c :: r) = Some (S k) ->
  exists prev',
    replace_g re repl 0 prev (c :: r) = repl ++ replace_g re repl 0 prev' (drop k r).
Proof.
  intros H. simpl. rewrite H.
  destruct (replace_g_skip re repl k (Some c) r) as [prev' E].
  exists prev'. rewrite E. reflexivity.
Qed.

(** Deleting matches keeps what holds of every code unit. *)
Lemma replace_g_forallb (p : N -> bool) (re : matcher) (k : nat)
    (prev : option N) (s : jsstring) :
  forallb p s = true -> forallb p (replace_g re [] k prev s) = true.
Proof.
  revert k prev. induction s as [|c r IH]; intros k prev H; [reflexivity|].
  simpl in H. apply andb_prop in H as [Hc Hr]. simpl.
  destruct k as [|k]; [|apply IH, Hr].
  destruct (re prev (c :: r)) as [[|j]|]; simpl; rewrite ?Hc; apply IH, Hr.
Qed.

(** An expression that matches nowhere in [s] leaves it as it is. *)
Lemma replace_g_fixed (re : matcher) (repl : jsstring) (s : jsstring) :
  (forall prev c r, re prev (c :: r) = None) ->
  forall prev, replace_g re repl 0 prev s = s.
Proof.
  intros H. induction s as [|c r IH]; intros prev; [reflexivity|].
  rewrite replace_g_nomatch by apply H. rewrite IH. reflexivity.
Qed.

Lemma replace_special (prev : option N) (s : jsstring) :
  replace_g re_special [] 0 prev s = List.filter kept s.
Proof.
  revert prev. induction s as [|c r IH]; intros prev; [reflexivity|].
  simpl. destruct (kept c); simpl; rewrite IH; reflexivity.
Qed.

Lemma filter_kept (s : jsstring) : forallb kept (List.filter kept s) = true.
Proof.
  induction s as [|c r IH]; [reflexivity|]. simpl.
  destruct (kept c) eqn:E; [simpl; rewrite E|]; exact IH.
Qed.

Lemma filter_fixed (p : N -> bool) (s : jsstring) :
  forallb p s = true -> List.filter p s = s.
Proof.
  induction s as [|c r IH]; [reflexivity|]. simpl. intros H.
  apply andb_prop in H as [Hc Hr]. rewrite Hc, (IH Hr). reflexivity.
Qed.

Lemma replace_emoji_plain (prev : option N) (s : jsstring) :
  forallb plain s = true -> replace_g re_emoji [] 0 prev s = s.
Proof.
  revert prev. induction s as [|c r IH]; intros prev H; [reflexivity|].
  simpl in H. apply andb_prop in H as [Hc Hr].
  rewrite replace_g_nomatch; [rewrite (IH _ Hr); reflexivity|].
  unfold re_emoji. destruct r as [|lo r']; [reflexivity|].
  unfold emoji_pair. rewrite (plain_not_surrogate c Hc). reflexivity.
Qed.

(** *** Numbers *)

Lemma number_at_space (prev : option N) (c : N) (r : jsstring) :
  is_space c = true -> re_number prev (c :: r) = None.
Proof.
  intros H. unfold re_number. simpl run. rewrite (space_not_digit c H).
  simpl. rewrite andb_false_r. reflexivity.
Qed.

Lemma number_inside_word (prev : option N) (s : jsstring) :
  word_start prev = false -> re_number prev s = None.
Proof. intros H. unfold re_number. rewrite H. reflexivity. Qed.

Lemma number_inside (t rest : jsstring) (prev : option N) :
  forallb is_word t = true -> word_start prev = false ->
  exists prev',
    replace_g re_number [] 0 prev (t ++ rest)
    = t ++ replace_g re_number [] 0 prev' rest.
Proof.
  revert prev. induction t as [|c t IH]; intros prev Ht Hp; [exists prev; reflexivity|].
  simpl in Ht. apply andb_prop in Ht as [Hc Ht].
  destruct (IH (Some c) Ht) as [prev' E]; [simpl; rewrite Hc; reflexivity|].
  exists prev'. change ((c :: t) ++ rest) with (c :: (t ++ rest)).
  rewrite replace_g_nomatch by (apply number_inside_word, Hp).
  rewrite E. reflexivity.
Qed.

Lemma at_space_word_end (rest : jsstring) : at_space rest = true -> word_end rest = true.
Proof.
  destruct rest as [|c r]; [reflexivity|]. simpl. intros H.
  rewrite (space_not_word c H). reflexivity.
Qed.

Lemma at_space_not_digit (rest : jsstring) :
  at_space rest = true -> match rest with [] => True | c :: _ => is_digit c = false end.
Proof. destruct rest as [|c r]; [trivial|]. simpl. apply space_not_digit. Qed.

Lemma number_whole_token (prev : option N) (t rest : jsstring) :
  word_start prev = true -> t <> [] -> forallb is_digit t = true ->
  at_space rest = true ->
  re_number prev (t ++ rest) = Some (length t).
Proof.
  intros Hp Hne Ht Hr. unfold re_number.
  rewrite (run_app is_digit t rest Ht (at_space_not_digit rest Hr)).
  rewrite drop_app_length, Hp, (at_space_word_end rest Hr).
  destruct t; [congruence|reflexivity].
Qed.

Lemma mixed_token_no_end (t rest : jsstring) :
  forallb is_word t = true -> forallb is_digit t = false ->
  word_end (drop (run is_digit (t ++ rest)) (t ++ rest)) = false.
Proof.
  induction t as [|c t IH]; intros Hw Hd; [discriminate|].
  simpl in Hw, Hd. apply andb_prop in Hw as [Hc Hw].
  simpl. destruct (is_digit c) eqn:E.
  - simpl in Hd. simpl. apply IH; assumption.
  - simpl. rewrite Hc. reflexivity.
Qed.

Lemma number_mixed_token (prev : option N) (t rest : jsstring) :
  forallb is_word t = true -> not_number t = true ->
  re_number prev (t ++ rest) = None.
Proof.
  intros Hw Hn. unfold not_number in Hn. apply negb_true_iff in Hn.
  unfold re_number. rewrite (mixed_token_no_end t rest Hw Hn), andb_false_r.
  reflexivity.
Qed.

Lemma kept_token_word (t : jsstring) :
  forallb kept t = true -> forallb non_space t = true -> forallb is_word t = true.
Proof.
  induction t as [|c t IH]; [reflexivity|]. simpl. intros Hk Hn.
  apply andb_prop in Hk as [Hc Hk]. apply andb_prop in Hn as [Hs Hn].
  unfold non_space in Hs. apply negb_true_iff in Hs.
  rewrite (kept_non_space_word c Hc Hs), (IH Hk Hn). reflexivity.
Qed.

Lemma forallb_app_inv (p : N -> bool) (a b : jsstring) :
  forallb p (a ++ b) = true -> forallb p a = true /\ forallb p b = true.
Proof. rewrite forallb_app. apply andb_prop. Qed.

(** The tokens that stay after the numbers are deleted. *)
Lemma number_tokens (n : nat) :
  forall (s : jsstring) (prev : option N),
    (length s <= n)%nat ->
    forallb kept s = true ->
    word_start prev = true \/ at_space s = true ->
    tokens (replace_g re_number [] 0 prev s) = List.filter not_number (tokens s)
    /\ (at_space s = true -> at_space (replace_g re_number [] 0 prev s) = true).
Proof.
  induction n as [|n IH]; intros s prev Hlen Hk Hpre.
  { destruct s; [split; reflexivity|simpl in Hlen; lia]. }
  destruct s as [|c r]; [split; reflexivity|].
  destruct (is_space c) eqn:Hc.
  - rewrite replace_g_nomatch by (apply number_at_space, Hc).
    simpl in Hk. apply andb_prop in Hk as [_ Hk].
    destruct (IH r (Some c)) as [Ht _].
    { simpl in Hlen. lia. }
    { exact Hk. }
    { left. simpl. rewrite (space_not_word c Hc). reflexivity. }
    rewrite !tokens_space by exact Hc. split; [exact Ht|].
    intros _. simpl. exact Hc.
  - assert (Hp : word_start prev = true).
    { destruct Hpre as [H|H]; [exact H|]. simpl in H. congruence. }
    split; [|simpl; congruence].
    destruct (split_token (c :: r)) as (t & rest & Es & Hne & Hns & Hr & Hl).
    { simpl. exact Hc. }
    rewrite Es in Hk |- *. apply forallb_app_inv in Hk as [Hkt Hkr].
    pose proof (kept_token_word t Hkt Hns) as Hw.
    rewrite (tokens_app t rest Hne Hns Hr). simpl List.filter.
    destruct (not_number t) eqn:Hn.
    + destruct t as [|c0 t0]; [congruence|].
      simpl in Hw. apply andb_prop in Hw as [Hw0 Hw].
      change ((c0 :: t0) ++ rest) with (c0 :: (t0 ++ rest)).
      rewrite replace_g_nomatch
        by (apply (number_mixed_token prev (c0 :: t0) rest);
            [simpl; rewrite Hw0; exact Hw|exact Hn]).
      destruct (number_inside t0 rest (Some c0) Hw) as [prev' E].
      { simpl. rewrite Hw0. reflexivity. }
      rewrite E. destruct (IH rest prev') as [Ht Hs].
      { simpl in Hlen, Hl. lia. }
      { exact Hkr. }
      { right. exact Hr. }
      change (c0 :: t0 ++ replace_g re_number [] 0 prev' rest)
        with ((c0 :: t0) ++ replace_g re_number [] 0 prev' rest).
      rewrite (tokens_app (c0 :: t0) _ Hne Hns (Hs Hr)), Ht. reflexivity.
    + unfold not_number in Hn. apply negb_false_iff in Hn.
      pose proof (number_whole_token prev t rest Hp Hne Hn Hr) as Hm.
      destruct t as [|c0 t0]; [congruence|].
      change ((c0 :: t0) ++ rest) with (c0 :: (t0 ++ rest)) in *.
      simpl length in Hm.
      destruct (replace_g_match re_number [] prev c0 (t0 ++ rest) _ Hm) as [prev' E].
      rewrite E, drop_app_length. simpl.
      destruct (IH rest prev') as [Ht _].
      { simpl in Hlen, Hl. lia. }
      { exact Hkr. }
      { right. exact Hr. }
      exact Ht.
Qed.


(** *** White space *)

Lemma replace_spaces_prev (repl : jsstring) (k : nat) (p p' : option N) (s : jsstring) :
  replace_g re_spaces repl k p s = replace_g re_spaces repl k p' s.
Proof.
  destruct s as [|c r]; [reflexivity|]. destruct k; reflexivity.
Qed.

Lemma spaces_token (t rest : jsstring) (prev : option N) :
  forallb non_space t = true ->
  replace_g re_spaces [32] 0 prev (t ++ rest)
  = t ++ replace_g re_spaces [32] 0 None rest.
Proof.
  revert prev. induction t as [|c t IH]; intros prev Ht.
  - apply replace_spaces_prev.
  - simpl in Ht. apply andb_prop in Ht as [Hc Ht].
    unfold non_space in Hc. apply negb_true_iff in Hc.
    change ((c :: t) ++ rest) with (c :: (t ++ rest)).
    rewrite replace_g_nomatch.
    + rewrite (IH _ Ht). reflexivity.
    + unfold re_spaces. simpl. rewrite Hc. reflexivity.
Qed.

Lemma spaces_run (c : N) (r : jsstring) (prev : option N) :
  is_space c = true ->
  replace_g re_spaces [32] 0 prev (c :: r)
  = 32 :: replace_g re_spaces [32] 0 None (drop (run is_space (c :: r)) (c :: r)).
Proof.
  intros Hc. assert (Hm : exists k, run is_space (c :: r) = S k).
  { simpl. rewrite Hc. eauto. }
  destruct Hm as [k Hk].
  destruct (replace_g_match re_spaces [32] prev c r k) as [prev' E].
  { unfold re_spaces. rewrite Hk. reflexivity. }
  rewrite E, Hk. simpl. f_equal. apply replace_spaces_prev.
Qed.

Lemma trimEnd_token (t rest : jsstring) :
  forallb non_space t = true -> trimEnd (t ++ rest) = t ++ trimEnd rest.
Proof.
  induction t as [|c t IH]; intros Ht; [reflexivity|].
  simpl in Ht. apply andb_prop in Ht as [Hc Ht].
  unfold non_space in Hc. apply negb_true_iff in Hc.
  simpl. rewrite (IH Ht), Hc. destruct (t ++ trimEnd rest); reflexivity.
Qed.

Lemma trimEnd_space (c : N) (s : jsstring) :
  is_space c = true ->
  trimEnd (c :: s) = match trimEnd s with [] => [] | r' => c :: r' end.
Proof. intros Hc. simpl. rewrite Hc. reflexivity. Qed.

Lemma tokens_not_nil (s : jsstring) : Forall (fun t => t <> []) (tokens s).
Proof.
  pose proof (tokens_good (fun _ => true) s) as H.
  eapply Forall_impl; [apply H|].
  - clear. induction s; [reflexivity|exact IHs].
  - intros t (Hne & _). exact Hne.
Qed.

(** What is left of the collapsed string once its end is trimmed. *)
Lemma collapse_trimEnd (n : nat) :
  forall s : jsstring,
    (length s <= n)%nat ->
    let collapsed := replace_g re_spaces [32] 0 None s in
    (at_space s = false -> trimEnd collapsed = join_with 32 (tokens s))
    /\ (at_space s = true ->
        trimEnd collapsed
        = match tokens s with [] => [] | ts => 32 :: join_with 32 ts end).
Proof.
  induction n as [|n IH]; intros s Hlen collapsed; subst collapsed.
  { destruct s; [split; [discriminate|reflexivity]|simpl in Hlen; lia]. }
  destruct s as [|c r]; [split; [discriminate|reflexivity]|].
  destruct (is_space c) eqn:Hc; (split; [|]); simpl at_space; rewrite Hc;
    try discriminate; intros _.
  - destruct (split_spaces c r Hc) as (k & rest & Hk & Hd & Hrest & Hl).
    rewrite (spaces_run c r None Hc), Hk, Hd.
    rewrite trimEnd_space by reflexivity.
    rewrite <- (tokens_drop_spaces (c :: r)), Hk, Hd.
    assert (Ht : trimEnd (replace_g re_spaces [32] 0 None rest)
                 = join_with 32 (tokens rest)).
    { destruct Hrest as [->|Hr]; [reflexivity|].
      apply (IH rest); [simpl in Hlen, Hl; lia|exact Hr]. }
    rewrite Ht. destruct (tokens rest) as [|t ts] eqn:Et; [reflexivity|].
    destruct (join_with 32 (t :: ts)) eqn:Ej; [|reflexivity].
    apply join_nil in Ej; [discriminate|].
    rewrite <- Et. apply tokens_not_nil.
  - destruct (split_token (c :: r)) as (t & rest & Es & Hne & Hns & Hr & Hl).
    { simpl. exact Hc. }
    rewrite Es, (spaces_token t rest None Hns), (trimEnd_token _ _ Hns).
    rewrite (tokens_app t rest Hne Hns Hr).
    destruct (IH rest) as [_ Hb]; [simpl in Hlen, Hl; lia|].
    rewrite (Hb Hr). destruct (tokens rest) as [|t' ts].
    + simpl. apply app_nil_r.
    + reflexivity.
Qed.

Lemma run_none (p : N -> bool) (s : jsstring) :
  match s with [] => True | c :: _ => p c = false end -> run p s = O.
Proof. destruct s as [|c r]; [reflexivity|]. simpl. intros ->. reflexivity. Qed.

Lemma collapse_at_token (s : jsstring) :
  s = [] \/ at_space s = false ->
  run is_space (replace_g re_spaces [32] 0 None s) = O.
Proof.
  intros [->|H]; [reflexivity|].
  destruct (at_space_false s H) as (c & r & -> & Hc).
  rewrite replace_g_nomatch.
  - simpl. rewrite Hc. reflexivity.
  - unfold re_spaces. simpl. rewrite Hc. reflexivity.
Qed.

(** Collapsing the white space and trimming leaves the tokens, one space
    apart. *)
Lemma collapse_trim (s : jsstring) :
  trim (replace_g re_spaces [32] 0 None s) = join_with 32 (tokens s).
Proof.
  unfold trim, trimStart. destruct s as [|c r]; [reflexivity|].
  destruct (is_space c) eqn:Hc.
  - destruct (split_spaces c r Hc) as (k & rest & Hk & Hd & Hrest & Hl).
    rewrite (spaces_run c r None Hc), Hk, Hd.
    simpl run. change (is_space 32) with true. cbv iota.
    rewrite (collapse_at_token rest Hrest). simpl drop.
    rewrite <- (tokens_drop_spaces (c :: r)), Hk, Hd.
    destruct Hrest as [->|Hr]; [reflexivity|].
    apply (collapse_trimEnd (length rest) rest); [lia|exact Hr].
  - rewrite collapse_at_token by (right; simpl; exact Hc). simpl drop.
    apply (collapse_trimEnd (length (c :: r)) (c :: r)); [lia|simpl; exact Hc].
Qed.


(** *** Lengths *)

Lemma replace_g_length (re : matcher) (repl : jsstring) (k : nat)
    (prev : option N) (s : jsstring) :
  (length repl <= 1)%nat ->
  (length (replace_g re repl k prev s) <= length s)%nat.
Proof.
  intros Hr. revert k prev. induction s as [|c r IH]; intros k prev; [simpl; lia|].
  simpl. destruct k as [|k]; [|specialize (IH k (Some c)); lia].
  destruct (re prev (c :: r)) as [[|j]|].
  - specialize (IH O (Some c)). simpl. lia.
  - specialize (IH j (Some c)). rewrite length_app. lia.
  - specialize (IH O (Some c)). simpl. lia.
Qed.

(** A deletion that keeps the length deleted nothing. *)
Lemma replace_g_same_length (re : matcher) (prev : option N) (s : jsstring) :
  length (replace_g re [] 0 prev s) = length s ->
  replace_g re [] 0 prev s = s.
Proof.
  revert prev. induction s as [|c r IH]; intros prev; [reflexivity|].
  simpl. destruct (re prev (c :: r)) as [[|j]|].
  - simpl. intros H. rewrite IH; [reflexivity|lia].
  - simpl. intros H.
    pose proof (replace_g_length re [] j (Some c) r ltac:(simpl; lia)). lia.
  - simpl. intros H. rewrite IH; [reflexivity|lia].
Qed.

Lemma trimEnd_length (s : jsstring) : (length (trimEnd s) <= length s)%nat.
Proof.
  induction s as [|c r IH]; simpl; [lia|].
  destruct (trimEnd r); [destruct (is_space c); simpl; lia|simpl in *; lia].
Qed.

Lemma trim_length (s : jsstring) : (length (trim s) <= length s)%nat.
Proof.
  unfold trim, trimStart. pose proof (trimEnd_length (drop (run is_space s) s)) as H.
  rewrite length_drop in H. lia.
Qed.

(** *** The normal form *)

Lemma good_token_plain (t : jsstring) :
  good_token kept t -> forallb plain t = true.
Proof.
  intros (_ & Hns & Hk). induction t as [|c t IH]; [reflexivity|].
  simpl in *. apply andb_prop in Hns as [Hc Hns]. apply andb_prop in Hk as [Hkc Hk].
  rewrite (IH Hns Hk), andb_true_r.
  unfold non_space in Hc. apply negb_true_iff in Hc.
  unfold kept in Hkc. rewrite Hc, orb_false_r in Hkc.
  unfold plain. rewrite Hkc. reflexivity.
Qed.

Lemma join_plain (ts : list jsstring) :
  Forall (good_token kept) ts -> forallb plain (join_with 32 ts) = true.
Proof.
  induction ts as [|t ts IH]; intros H; [reflexivity|].
  inversion H as [|? ? Ht Hts]; subst.
  destruct ts as [|t' ts']; [exact (good_token_plain t Ht)|].
  change (join_with 32 (t :: t' :: ts')) with (t ++ 32 :: join_with 32 (t' :: ts')).
  rewrite forallb_app, (good_token_plain t Ht).
  change (forallb plain (32 :: join_with 32 (t' :: ts')))
    with (plain 32 && forallb plain (join_with 32 (t' :: ts'))).
  rewrite (IH Hts). reflexivity.
Qed.

Lemma Forall_filter (P : jsstring -> Prop) (p : jsstring -> bool) (ts : list jsstring) :
  Forall P ts -> Forall P (List.filter p ts).
Proof.
  induction 1 as [|t ts Ht Hts IH]; [constructor|]. simpl.
  destruct (p t); [constructor; assumption|exact IH].
Qed.

Lemma filter_twice (p : jsstring -> bool) (ts : list jsstring) :
  List.filter p (List.filter p ts) = List.filter p ts.
Proof.
  induction ts as [|t ts IH]; [reflexivity|]. simpl.
  destruct (p t) eqn:E; [simpl; rewrite E, IH; reflexivity|exact IH].
Qed.

Lemma good_token_weaken (p : N -> bool) (t : jsstring) :
  good_token p t -> good_token (fun _ => true) t.
Proof.
  intros (Hne & Hns & _). split; [exact Hne|]. split; [exact Hns|].
  clear. induction t; [reflexivity|assumption].
Qed.

Section NormalForm.
Context {prims : StringPrims}.

Lemma cleaned_kept (str : jsstring) : forallb kept (cleaned str) = true.
Proof.
  unfold cleaned. apply replace_g_forallb. rewrite replace_special. apply filter_kept.
Qed.

(** The chain yields the tokens of the cleaned string that are not
    numbers, one space apart. *)
Lemma normalizeChain_tokens (str : jsstring) :
  normalizeChain str = join_with 32 (List.filter not_number (tokens (cleaned str))).
Proof.
  unfold normalizeChain. fold (cleaned str). rewrite collapse_trim.
  destruct (number_tokens (length (cleaned str)) (cleaned str) None) as [Ht _].
  - lia.
  - apply cleaned_kept.
  - left. reflexivity.
  - rewrite Ht. reflexivity.
Qed.

Context {laws : StringPrimsLaws prims}.

Lemma cleaned_plain (y : jsstring) :
  forallb plain y = true ->
  replace_g re_pcs [] 0 None y = y ->
  cleaned y = y.
Proof.
  intros Hp Hpcs. unfold cleaned.
  rewrite (toLowerCase_plain y Hp), (normalizeNFKD_plain y Hp).
  rewrite (replace_emoji_plain None y Hp), replace_special.
  rewrite filter_fixed; [exact Hpcs|].
  clear -Hp. induction y as [|c y IH]; [reflexivity|].
  simpl in *. apply andb_prop in Hp as [Hc Hp].
  rewrite (plain_kept c Hc), (IH Hp). reflexivity.
Qed.

Lemma normalized_plain (x y : jsstring) :
  normalizeText x = Some y -> forallb plain y = true.
Proof.
  intros Hx. unfold normalizeText in Hx. destruct x as [|c x']; [discriminate|].
  injection Hx as <-. rewrite normalizeChain_tokens.
  apply join_plain, Forall_filter, tokens_good, cleaned_kept.
Qed.

(** C5, amended: for every non-empty string [x] with [normalize x = y],
    normalizing [y] again returns [y] exactly when [y] is not empty and
    holds no [pc] or [pcs] that ends a word, that is, when the deletion of
    the unit tokens leaves [y] as it is. The runtime is taken to lowercase
    and to decompose the strings over [a-z], [0-9] and the space to
    themselves. *)
Theorem c5_normalize_idempotent (x y : jsstring) :
  normalizeText x = Some y ->
  (normalizeText y = Some y <-> y <> [] /\ replace_g re_pcs [] 0 None y = y).
Proof.
  intros Hx. pose proof (normalized_plain x y Hx) as Hplain.
  split.
  - intros Hy. assert (Hne : y <> []) by (intros ->; discriminate).
    split; [exact Hne|].
    unfold normalizeText in Hy. destruct y as [|c y'] eqn:Ey; [congruence|].
    rewrite <- Ey in *. injection Hy as Hy.
    unfold normalizeChain in Hy.
    rewrite (toLowerCase_plain y Hplain), (normalizeNFKD_plain y Hplain) in Hy.
    rewrite (replace_emoji_plain None y Hplain), replace_special in Hy.
    rewrite filter_fixed in Hy.
    2:{ clear -Hplain. induction y as [|d y IH]; [reflexivity|].
        simpl in *. apply andb_prop in Hplain as [Hd Hp].
        rewrite (plain_kept d Hd), (IH Hp). reflexivity. }
    apply replace_g_same_length. apply Nat.le_antisymm.
    + apply replace_g_length. simpl. lia.
    + set (w := replace_g re_pcs [] 0 None y) in *.
      pose proof (trim_length (replace_g re_spaces [32] 0 None
                                 (replace_g re_number [] 0 None w))) as H1.
      pose proof (replace_g_length re_spaces [32] 0 None
                    (replace_g re_number [] 0 None w) ltac:(simpl; lia)) as H2.
      pose proof (replace_g_length re_number [] 0 None w ltac:(simpl; lia)) as H3.
      rewrite Hy in H1. lia.
  - intros [Hne Hpcs].
    assert (Hy : y = normalizeChain x).
    { unfold normalizeText in Hx. destruct x; [discriminate|]. congruence. }
    rewrite normalizeChain_tokens in Hy.
    set (ts := List.filter not_number (tokens (cleaned x))) in Hy.
    assert (Hgood : Forall (good_token kept) ts).
    { apply Forall_filter, tokens_good, cleaned_kept. }
    unfold normalizeText. destruct y as [|c y'] eqn:Ey; [congruence|].
    rewrite <- Ey in *. f_equal.
    rewrite normalizeChain_tokens, (cleaned_plain y Hplain Hpcs).
    rewrite Hy at 1. rewrite tokens_join.
    + subst ts. rewrite filter_twice. symmetry. exact Hy.
    + eapply Forall_impl; [exact Hgood|]. apply good_token_weaken.
Qed.

End NormalForm.

(** The ASCII primitives leave the normalized strings as they are. *)
Lemma ascii_prims_laws : StringPrimsLaws ascii_prims.
Proof.
  split; [|reflexivity]. intros s Hs. simpl.
  induction s as [|c s IH]; [reflexivity|].
  simpl in Hs. apply andb_prop in Hs as [Hc Hs]. simpl. rewrite (IH Hs). f_equal.
  unfold ascii_lower. destruct (is_upper c) eqn:E; [|reflexivity].
  exfalso. classes; subst; lia.
Qed.

(** C5, as stated, fails: [pcpcs] normalizes to [pc], which normalizes to
    the empty string; and [12] normalizes to the empty string, which
    normalizes to [null]. *)
Lemma c5_counterexample :
  (js "pcpcs" <> []
   /\ normalizeText (prims:=ascii_prims) (js "pcpcs") = Some (js "pc")
   /\ normalizeTwice (prims:=ascii_prims) (js "pcpcs") = Some []
   /\ normalizeTwice (prims:=ascii_prims) (js "pcpcs")
      <> normalizeText (prims:=ascii_prims) (js "pcpcs"))
  /\ (js "12" <> []
      /\ normalizeText (prims:=ascii_prims) (js "12") = Some []
      /\ normalizeTwice (prims:=ascii_prims) (js "12") = None
      /\ normalizeTwice (prims:=ascii_prims) (js "12")
         <> normalizeText (prims:=ascii_prims) (js "12")).
Proof.
  split.
  - split; [discriminate|]. split; [reflexivity|]. split; [reflexivity|].
    intros H. vm_compute in H. discriminate H.
  - split; [discriminate|]. split; [reflexivity|]. split; [reflexivity|].
    intros H. vm_compute in H. discriminate H.
Qed.

(** The amended C5 at [12 Tacos]. *)
Lemma c5_normalize_idempotent_witness :
  normalizeText (prims:=ascii_prims) (js "12 Tacos") = Some (js "tacos")
  /\ normalizeText (prims:=ascii_prims) (js "tacos") = Some (js "tacos").
Proof.
  split; [reflexivity|].
  apply (c5_normalize_idempotent (laws:=ascii_prims_laws) (js "12 Tacos") (js "tacos")
           eq_refl).
  split; [discriminate|reflexivity].
Defined.

(** *** The rounding to the nearest double *)

Section Rounding.
Local Open Scope Q_scope.


Lemma pow2_pos (e : Z) : 0 < 2 ^ e.
Proof. apply Qpower_0_lt. reflexivity. Qed.

Lemma pow2_le (a b : Z) : (a <= b)%Z -> 2 ^ a <= 2 ^ b.
Proof. intros H. apply Qpower_le_compat_l; [exact H|discriminate]. Qed.

Lemma pow2_succ (e : Z) : 2 ^ (e + 1) == 2 * 2 ^ e.
Proof. rewrite Qpower_plus by discriminate. ring. Qed.

Lemma pow2_split (a b : Z) : 2 ^ (a + b) == 2 ^ a * 2 ^ b.
Proof. apply Qpower_plus. discriminate. Qed.

Lemma pow2_Z (n : Z) : (0 <= n)%Z -> inject_Z (2 ^ n) == 2 ^ n.
Proof. intros H. rewrite Zpower_Qpower by exact H. reflexivity. Qed.

Lemma round_even_floor (x : Q) :
  (Qfloor x <= round_even x <= Qfloor x + 1)%Z.
Proof.
  unfold round_even. destruct (x - inject_Z (Qfloor x) ?= 1 # 2); [|lia|lia].
  destruct (Z.even (Qfloor x)); lia.
Qed.

Lemma round_even_ge (x : Q) (n : Z) : inject_Z n <= x -> (n <= round_even x)%Z.
Proof.
  intros H. apply Qfloor_resp_le in H. rewrite Qfloor_Z in H.
  pose proof (round_even_floor x). lia.
Qed.

Lemma round_even_le (x : Q) (n : Z) : x <= inject_Z n -> (round_even x <= n)%Z.
Proof.
  intros H. pose proof (Qfloor_resp_le _ _ H) as Hf. rewrite Qfloor_Z in Hf.
  pose proof (round_even_floor x) as Hr.
  destruct (Z.eq_dec (Qfloor x) n) as [E|E]; [|lia].
  unfold round_even. rewrite E.
  destruct (Qcompare_spec (x - inject_Z n) (1 # 2)) as [Ex|Ex|Ex];
    try lia; exfalso; lra.
Qed.

Lemma round_even_mono (x y : Q) : x <= y -> (round_even x <= round_even y)%Z.
Proof.
  intros H. pose proof (Qfloor_resp_le _ _ H) as Hf.
  pose proof (round_even_floor x) as Hx. pose proof (round_even_floor y) as Hy.
  destruct (Z.eq_dec (Qfloor x) (Qfloor y)) as [E|E]; [|lia].
  unfold round_even. rewrite <- E.
  destruct (Qcompare_spec (x - inject_Z (Qfloor x)) (1 # 2)) as [Ex|Ex|Ex];
    destruct (Qcompare_spec (y - inject_Z (Qfloor x)) (1 # 2)) as [Ey|Ey|Ey];
    try lia; try (exfalso; lra); destruct (Z.even (Qfloor x)); lia.
Qed.

Lemma log2_floor_spec (x : Q) :
  0 < x -> 2 ^ log2_floor x <= x /\ x < 2 ^ (log2_floor x + 1).
Proof.
  intros Hx. destruct x as [a b]. unfold log2_floor. cbn [Qnum Qden].
  assert (Ha : (0 < a)%Z) by (unfold Qlt in Hx; simpl in Hx; lia).
  destruct (Z.log2_spec a Ha) as [Ha1 Ha2].
  destruct (Z.log2_spec (Zpos b) (Pos2Z.is_pos b)) as [Hb1 Hb2].
  pose proof (Z.log2_nonneg a) as Hla. pose proof (Z.log2_nonneg (Zpos b)) as Hlb.
  set (la := Z.log2 a) in *. set (lb := Z.log2 (Zpos b)) in *.
  assert (QA1 : 2 ^ la <= inject_Z a).
  { rewrite <- pow2_Z by exact Hla. rewrite <- Zle_Qle. exact Ha1. }
  assert (QA2 : inject_Z a < 2 * 2 ^ la).
  { rewrite <- pow2_succ, <- pow2_Z by lia. rewrite <- Zlt_Qlt.
    replace (la + 1)%Z with (Z.succ la) by lia. exact Ha2. }
  assert (QB1 : 2 ^ lb <= inject_Z (Zpos b)).
  { rewrite <- pow2_Z by exact Hlb. rewrite <- Zle_Qle. exact Hb1. }
  assert (QB2 : inject_Z (Zpos b) < 2 * 2 ^ lb).
  { rewrite <- pow2_succ, <- pow2_Z by lia. rewrite <- Zlt_Qlt.
    replace (lb + 1)%Z with (Z.succ lb) by lia. exact Hb2. }
  assert (Hsplit : 2 ^ la == 2 ^ (la - lb) * 2 ^ lb).
  { rewrite <- pow2_split. replace (la - lb + lb)%Z with la by lia. reflexivity. }
  pose proof (pow2_pos la) as Pa. pose proof (pow2_pos lb) as Pb.
  pose proof (pow2_pos (la - lb)) as Pe.
  assert (Hxq : a # b == inject_Z a / inject_Z (Zpos b)) by apply Qmake_Qdiv.
  assert (HB : 0 < inject_Z (Zpos b)) by (unfold Qlt; simpl; lia).
  destruct (Qle_bool (2 ^ (la - lb)) (a # b)) eqn:El.
  - apply Qle_bool_iff in El. split; [exact El|].
    rewrite pow2_succ, Hxq. apply Qlt_shift_div_r; [exact HB|].
    apply Qlt_le_trans with (2 * 2 ^ la); [exact QA2|].
    rewrite Hsplit.
    setoid_replace (2 * (2 ^ (la - lb) * 2 ^ lb)) with (2 * 2 ^ (la - lb) * 2 ^ lb)
      using relation Qeq by ring.
    apply Qmult_le_l; [lra|exact QB1].
  - assert (Hlt : a # b < 2 ^ (la - lb)).
    { apply Qnot_le_lt. intros H. apply Qle_bool_iff in H. congruence. }
    replace (la - lb - 1 + 1)%Z with (la - lb)%Z by lia. split; [|exact Hlt].
    assert (Hhalf : 2 ^ (la - lb) == 2 * 2 ^ (la - lb - 1)).
    { rewrite <- pow2_succ. replace (la - lb - 1 + 1)%Z with (la - lb)%Z by lia.
      reflexivity. }
    pose proof (pow2_pos (la - lb - 1)) as Ph.
    rewrite Hxq. apply Qle_shift_div_l; [exact HB|].
    apply Qle_trans with (2 ^ (la - lb - 1) * (2 * 2 ^ lb)).
    + apply Qmult_le_l; [exact Ph|lra].
    + setoid_replace (2 ^ (la - lb - 1) * (2 * 2 ^ lb))
        with (2 * 2 ^ (la - lb - 1) * 2 ^ lb) using relation Qeq by ring.
      rewrite <- Hhalf, <- Hsplit. exact QA1.
Qed.

Lemma log2_floor_mono (x y : Q) : 0 < x -> x <= y -> (log2_floor x <= log2_floor y)%Z.
Proof.
  intros Hx Hxy. destruct (log2_floor_spec x Hx) as [H1 _].
  destruct (log2_floor_spec y) as [_ H2]; [lra|].
  assert (H : 2 ^ log2_floor x < 2 ^ (log2_floor y + 1)) by lra.
  apply Qpower_lt_compat_l_inv in H; [lia|reflexivity].
Qed.

(** The rounding of a positive number. *)


Lemma ulp_expo (x : Q) : ulp x = 2 ^ (expo x - 52).
Proof. reflexivity. Qed.

Lemma nearest_upper (x : Q) : 0 < x -> nearest x <= 2 ^ (expo x + 1).
Proof.
  intros Hx. destruct (log2_floor_spec x Hx) as [_ Hu]. unfold nearest.
  rewrite ulp_expo.
  assert (He : (log2_floor x <= expo x)%Z) by (unfold expo; lia).
  pose proof (pow2_pos (expo x - 52)) as Pu.
  assert (Hb : x / 2 ^ (expo x - 52) <= inject_Z (2 ^ 53)).
  { apply Qle_shift_div_r; [exact Pu|].
    rewrite (pow2_Z 53) by lia. rewrite <- pow2_split.
    replace (53 + (expo x - 52))%Z with (expo x + 1)%Z by lia.
    apply Qle_trans with (2 ^ (log2_floor x + 1)); [lra|apply pow2_le; lia]. }
  apply round_even_le in Hb.
  replace (expo x + 1)%Z with (53 + (expo x - 52))%Z by lia.
  rewrite pow2_split, <- (pow2_Z 53) by lia.
  apply Qmult_le_compat_r; [|lra]. rewrite <- Zle_Qle. exact Hb.
Qed.

Lemma nearest_lower (x : Q) :
  0 < x -> (-1022 <= log2_floor x)%Z -> 2 ^ log2_floor x <= nearest x.
Proof.
  intros Hx Hn. destruct (log2_floor_spec x Hx) as [Hl _]. unfold nearest.
  rewrite ulp_expo.
  assert (He : expo x = log2_floor x) by (unfold expo; lia). rewrite He.
  pose proof (pow2_pos (log2_floor x - 52)) as Pu.
  assert (Hb : inject_Z (2 ^ 52) <= x / 2 ^ (log2_floor x - 52)).
  { apply Qle_shift_div_l; [exact Pu|].
    rewrite (pow2_Z 52) by lia. rewrite <- pow2_split.
    replace (52 + (log2_floor x - 52))%Z with (log2_floor x) by lia. exact Hl. }
  apply round_even_ge in Hb.
  replace (log2_floor x) with (52 + (log2_floor x - 52))%Z at 1 by lia.
  rewrite pow2_split, <- (pow2_Z 52) by lia.
  apply Qmult_le_compat_r; [|lra]. rewrite <- Zle_Qle. exact Hb.
Qed.

Lemma nearest_nonneg (x : Q) : 0 < x -> 0 <= nearest x.
Proof.
  intros Hx. unfold nearest. rewrite ulp_expo.
  pose proof (pow2_pos (expo x - 52)) as Pu.
  apply Qmult_le_0_compat; [|lra].
  change (inject_Z 0 <= inject_Z (round_even (x / 2 ^ (expo x - 52)))).
  rewrite <- Zle_Qle. apply round_even_ge.
  apply Qle_shift_div_l; [exact Pu|].
  change (inject_Z 0) with 0. rewrite Qmult_0_l. lra.
Qed.

Lemma nearest_mono (x y : Q) : 0 < x -> x <= y -> nearest x <= nearest y.
Proof.
  intros Hx Hxy. assert (Hy : 0 < y) by lra.
  pose proof (log2_floor_mono x y Hx Hxy) as Hl.
  destruct (Z.eq_dec (expo x) (expo y)) as [E|E].
  - unfold nearest. rewrite !ulp_expo, E.
    pose proof (pow2_pos (expo y - 52)) as Pu.
    apply Qmult_le_compat_r; [|lra]. rewrite <- Zle_Qle. apply round_even_mono.
    apply Qmult_le_compat_r; [exact Hxy|]. apply Qlt_le_weak, Qinv_lt_0_compat, Pu.
  - assert (Hlt : (expo x < expo y)%Z) by (unfold expo in *; lia).
    assert (Hey : expo y = log2_floor y /\ (-1022 <= log2_floor y)%Z)
      by (unfold expo in *; lia).
    destruct Hey as [Hey Hn].
    apply Qle_trans with (2 ^ (expo x + 1)); [apply nearest_upper, Hx|].
    apply Qle_trans with (2 ^ log2_floor y); [apply pow2_le; lia|].
    apply nearest_lower; assumption.
Qed.

(** The rounding of a rational. *)

Lemma double_pos (x : Q) : 0 < x -> double x == nearest (Qred x).
Proof.
  intros Hx. unfold double.
  destruct (Qcompare_spec (Qred x) 0) as [E|E|E];
    rewrite Qred_correct in E; [lra|lra|apply Qred_correct].
Qed.

Lemma double_neg (x : Q) : x < 0 -> double x == - nearest (- Qred x).
Proof.
  intros Hx. unfold double.
  destruct (Qcompare_spec (Qred x) 0) as [E|E|E];
    rewrite Qred_correct in E; [lra|apply Qred_correct|lra].
Qed.

Lemma double_zero (x : Q) : x == 0 -> double x = 0.
Proof.
  intros Hx. unfold double.
  destruct (Qcompare_spec (Qred x) 0) as [E|E|E];
    rewrite Qred_correct in E; [reflexivity|lra|lra].
Qed.

Lemma double_proper (x y : Q) : x == y -> double x = double y.
Proof. intros H. unfold double. rewrite (Qred_complete x y H). reflexivity. Qed.

Lemma double_nonneg (x : Q) : 0 <= x -> 0 <= double x.
Proof.
  intros Hx. destruct (Qlt_le_dec 0 x) as [H|H].
  - rewrite double_pos by exact H. apply nearest_nonneg. rewrite Qred_correct. exact H.
  - rewrite double_zero by lra. lra.
Qed.

Lemma double_nonpos (x : Q) : x <= 0 -> double x <= 0.
Proof.
  intros Hx. destruct (Qlt_le_dec x 0) as [H|H].
  - rewrite double_neg by exact H.
    assert (0 <= nearest (- Qred x)); [|lra].
    apply nearest_nonneg. rewrite Qred_correct. lra.
  - rewrite double_zero by lra. lra.
Qed.

(** The rounding keeps the order. *)
Lemma double_mono (x y : Q) : x <= y -> double x <= double y.
Proof.
  intros Hxy. destruct (Qlt_le_dec 0 x) as [Hx|Hx].
  - rewrite !double_pos by lra. apply nearest_mono; rewrite !Qred_correct; assumption.
  - destruct (Qlt_le_dec y 0) as [Hy|Hy].
    + rewrite !double_neg by lra.
      assert (nearest (- Qred y) <= nearest (- Qred x)); [|lra].
      apply nearest_mono; rewrite !Qred_correct; lra.
    + apply Qle_trans with 0; [apply double_nonpos, Hx|apply double_nonneg, Hy].
Qed.

Lemma double_one : double 1 = 1.
Proof. vm_compute. reflexivity. Qed.

Lemma double_le_one (x : Q) : x <= 1 -> double x <= 1.
Proof. intros H. apply double_mono in H. rewrite double_one in H. exact H. Qed.

(** [2 ^ -53] and [1 - 2 ^ -53] are doubles. *)
Lemma double_tiny : double (1 # 9007199254740992) == 1 # 9007199254740992.
Proof. vm_compute. reflexivity. Qed.

Lemma double_below_one :
  double (9007199254740991 # 9007199254740992) == 9007199254740991 # 9007199254740992.
Proof. vm_compute. reflexivity. Qed.

(** The score at a distance and a length. *)

Lemma quotient_range (d m : nat) :
  (0 < m)%nat -> (d <= m)%nat ->
  0 <= inject_Z (Z.of_nat d) / inject_Z (Z.of_nat m) <= 1.
Proof.
  intros Hm Hd.
  assert (Hm' : 0 < inject_Z (Z.of_nat m)) by (unfold Qlt; simpl; lia).
  split.
  - apply Qle_shift_div_l; [exact Hm'|]. rewrite Qmult_0_l.
    change 0 with (inject_Z 0). rewrite <- Zle_Qle. lia.
  - apply Qle_shift_div_r; [exact Hm'|]. rewrite Qmult_1_l.
    rewrite <- Zle_Qle. lia.
Qed.

Lemma score_at_range (d m : nat) :
  (0 < m)%nat -> (d <= m)%nat -> 0 <= score_at d m <= 1.
Proof.
  intros Hm Hd. pose proof (quotient_range d m Hm Hd) as [H0 H1].
  unfold score_at, js_sub, js_div. cbv zeta.
  set (q := inject_Z (Z.of_nat d) / inject_Z (Z.of_nat m)) in *.
  destruct (Z.of_nat m <=? max_string_length)%Z; [|split; lra].
  unfold js_sub, js_div.
  pose proof (double_nonneg q H0) as Hr0. pose proof (double_le_one q H1) as Hr1.
  split; [apply double_nonneg|apply double_le_one]; lra.
Qed.

Lemma score_at_zero (m : nat) : (0 < m)%nat -> score_at 0 m == 1.
Proof.
  intros Hm. unfold score_at, js_sub, js_div. cbv zeta.
  assert (Hq : inject_Z (Z.of_nat 0) / inject_Z (Z.of_nat m) == 0).
  { unfold Qdiv. simpl. apply Qmult_0_l. }
  destruct (Z.of_nat m <=? max_string_length)%Z.
  - unfold js_sub, js_div. rewrite (double_zero _ Hq). vm_compute. reflexivity.
  - rewrite Hq. reflexivity.
Qed.

Lemma score_at_below_one (d m : nat) :
  (0 < d)%nat -> (d <= m)%nat -> score_at d m < 1.
Proof.
  intros Hd Hm.
  assert (Hm' : 0 < inject_Z (Z.of_nat m)) by (unfold Qlt; simpl; lia).
  unfold score_at, js_sub, js_div. cbv zeta.
  destruct (Z.leb_spec (Z.of_nat m) max_string_length) as [Hb|Hb].
  - unfold js_sub, js_div.
    assert (Hq : 1 # 9007199254740992 <= inject_Z (Z.of_nat d) / inject_Z (Z.of_nat m)).
    { apply Qle_shift_div_l; [exact Hm'|]. unfold max_string_length in Hb.
      unfold Qle, Qmult, inject_Z. cbn [Qnum Qden]. lia. }
    apply double_mono in Hq. rewrite double_tiny in Hq.
    set (r := double (inject_Z (Z.of_nat d) / inject_Z (Z.of_nat m))) in *.
    assert (Hs : 1 - r <= 9007199254740991 # 9007199254740992) by lra.
    apply double_mono in Hs. rewrite double_below_one in Hs. lra.
  - set (q := inject_Z (Z.of_nat d) / inject_Z (Z.of_nat m)).
    assert (0 < q); [|lra].
    apply Qlt_shift_div_l; [exact Hm'|]. rewrite Qmult_0_l.
    change 0 with (inject_Z 0). rewrite <- Zlt_Qlt. lia.
Qed.

Lemma score_at_full (m : nat) : (0 < m)%nat -> score_at m m == 0.
Proof.
  intros Hm. unfold score_at, js_sub, js_div. cbv zeta.
  assert (Hq : inject_Z (Z.of_nat m) / inject_Z (Z.of_nat m) == 1).
  { field. intros H. apply (inject_Z_injective (Z.of_nat m) 0) in H. lia. }
  destruct (Z.of_nat m <=? max_string_length)%Z.
  - rewrite (double_proper _ 1 Hq), double_one. reflexivity.
  - rewrite Hq. reflexivity.
Qed.

(** A greater distance gives no greater score. *)
Lemma score_at_antitone (d d' m : nat) :
  (0 < m)%nat -> (d <= d')%nat -> score_at d' m <= score_at d m.
Proof.
  intros Hm Hd.
  assert (Hm' : 0 < inject_Z (Z.of_nat m)) by (unfold Qlt; simpl; lia).
  assert (Hq : inject_Z (Z.of_nat d) / inject_Z (Z.of_nat m)
               <= inject_Z (Z.of_nat d') / inject_Z (Z.of_nat m)).
  { apply Qmult_le_compat_r; [rewrite <- Zle_Qle; lia|].
    apply Qlt_le_weak, Qinv_lt_0_compat, Hm'. }
  unfold score_at, js_sub, js_div. cbv zeta.
  set (q := inject_Z (Z.of_nat d) / inject_Z (Z.of_nat m)) in *.
  set (q' := inject_Z (Z.of_nat d') / inject_Z (Z.of_nat m)) in *.
  destruct (Z.of_nat m <=? max_string_length)%Z; [|lra].
  unfold js_sub, js_div. apply double_mono. apply double_mono in Hq. lra.
Qed.

(** Doubles are fixed by the rounding. *)

Lemma log2_floor_unique (x : Q) (k : Z) :
  2 ^ k <= x -> x < 2 ^ (k + 1) -> log2_floor x = k.
Proof.
  intros Hl Hu. assert (Hx : 0 < x) by (pose proof (pow2_pos k); lra).
  destruct (log2_floor_spec x Hx) as [Sl Su].
  assert (H1 : 2 ^ k < 2 ^ (log2_floor x + 1)) by lra.
  assert (H2 : 2 ^ log2_floor x < 2 ^ (k + 1)) by lra.
  apply Qpower_lt_compat_l_inv in H1; [|reflexivity].
  apply Qpower_lt_compat_l_inv in H2; [|reflexivity]. lia.
Qed.

Lemma round_even_Z (x : Q) (n : Z) : x == inject_Z n -> round_even x = n.
Proof.
  intros H. apply Z.le_antisymm.
  - apply round_even_le. rewrite H. apply Qle_refl.
  - apply round_even_ge. rewrite H. apply Qle_refl.
Qed.

Lemma nearest_fix (x : Q) : representable x -> nearest x == x.
Proof.
  intros (n & e & He & Hx & Hn).
  pose proof (pow2_pos (e - 52)) as Pu.
  assert (Hexp : expo x = e).
  { unfold expo. destruct Hn as [[Hn1 Hn2]|(-> & Hn1 & Hn2)].
    - rewrite (log2_floor_unique x e); [lia| |].
      + rewrite Hx. replace e with (52 + (e - 52))%Z at 1 by lia.
        rewrite pow2_split, <- (pow2_Z 52) by lia.
        apply Qmult_le_compat_r; [rewrite <- Zle_Qle; exact Hn1|lra].
      + rewrite Hx. replace (e + 1)%Z with (53 + (e - 52))%Z by lia.
        rewrite pow2_split, <- (pow2_Z 53) by lia.
        apply Qmult_lt_compat_r; [exact Pu|rewrite <- Zlt_Qlt; exact Hn2].
    - assert (Hpos : 0 < x).
      { rewrite Hx. apply Qmult_lt_0_compat; [|exact Pu].
        change 0 with (inject_Z 0). rewrite <- Zlt_Qlt. lia. }
      destruct (log2_floor_spec x Hpos) as [Sl _].
      assert (Hlt : x < 2 ^ (-1022)).
      { rewrite Hx. replace (-1022)%Z with (52 + (-1022 - 52))%Z at 2 by lia.
        rewrite pow2_split, <- (pow2_Z 52) by lia.
        apply Qmult_lt_compat_r; [exact Pu|rewrite <- Zlt_Qlt; exact Hn2]. }
      assert (H : 2 ^ log2_floor x < 2 ^ (-1022)) by lra.
      apply Qpower_lt_compat_l_inv in H; [lia|reflexivity]. }
  unfold nearest. rewrite ulp_expo, Hexp.
  rewrite (round_even_Z (x / 2 ^ (e - 52)) n).
  - symmetry. exact Hx.
  - rewrite Hx. field. lra.
Qed.

Lemma nearest_shape (x : Q) :
  0 < x -> nearest x == 0 \/ representable (nearest x).
Proof.
  intros Hx. destruct (log2_floor_spec x Hx) as [Sl Su].
  pose proof (pow2_pos (expo x - 52)) as Pu.
  set (n := round_even (x / ulp x)).
  assert (Hval : nearest x == inject_Z n * 2 ^ (expo x - 52)) by reflexivity.
  assert (Hn0 : (0 <= n)%Z).
  { apply round_even_ge. rewrite ulp_expo. apply Qle_shift_div_l; [exact Pu|].
    change (inject_Z 0) with 0. rewrite Qmult_0_l. lra. }
  assert (Hn53 : (n <= 2 ^ 53)%Z).
  { apply round_even_le. rewrite ulp_expo. apply Qle_shift_div_r; [exact Pu|].
    rewrite (pow2_Z 53) by lia. rewrite <- pow2_split.
    apply Qle_trans with (2 ^ (log2_floor x + 1)); [lra|].
    apply pow2_le. unfold expo. lia. }
  destruct (Z.eq_dec n 0%Z) as [E0|E0].
  { left. rewrite Hval, E0. change (inject_Z 0) with 0. apply Qmult_0_l. }
  right. destruct (Z.eq_dec n (2 ^ 53)%Z) as [E53|E53].
  { exists (2 ^ 52)%Z, (expo x + 1)%Z. split; [unfold expo; lia|]. split; [|left; lia].
    rewrite Hval, E53. replace (expo x + 1 - 52)%Z with (1 + (expo x - 52))%Z by lia.
    rewrite pow2_split.
    change (inject_Z (2 ^ 53)) with (inject_Z (2 ^ 52) * 2). change (2 ^ 1) with 2.
    ring. }
  destruct (Z_lt_le_dec (log2_floor x) (-1022)%Z) as [Hs|Hs].
  - assert (He : expo x = (-1022)%Z) by (unfold expo; lia).
    assert (Hn52 : (n <= 2 ^ 52)%Z).
    { apply round_even_le. rewrite ulp_expo, He.
      apply Qle_shift_div_r; [apply pow2_pos|].
      rewrite (pow2_Z 52) by lia. rewrite <- pow2_split.
      apply Qle_trans with (2 ^ (log2_floor x + 1)); [lra|apply pow2_le; lia]. }
    exists n, (-1022)%Z. split; [lia|]. split; [rewrite Hval, He; reflexivity|].
    destruct (Z.eq_dec n (2 ^ 52)%Z); [left|right]; lia.
  - assert (He : expo x = log2_floor x) by (unfold expo; lia).
    assert (Hn52 : (2 ^ 52 <= n)%Z).
    { apply round_even_ge. rewrite ulp_expo, He.
      apply Qle_shift_div_l; [apply pow2_pos|].
      rewrite (pow2_Z 52) by lia. rewrite <- pow2_split.
      replace (52 + (log2_floor x - 52))%Z with (log2_floor x) by lia. exact Sl. }
    exists n, (expo x). split; [lia|]. split; [exact Hval|]. left. lia.
Qed.

Lemma representable_pos (x : Q) : representable x -> 0 < x.
Proof.
  intros (n & e & _ & Hx & Hn). rewrite Hx.
  apply Qmult_lt_0_compat; [|apply pow2_pos].
  change 0 with (inject_Z 0). rewrite <- Zlt_Qlt. lia.
Qed.

Lemma representable_proper (x y : Q) : x == y -> representable x -> representable y.
Proof.
  intros H (n & e & He & Hx & Hn). exists n, e. split; [exact He|]. split; [|exact Hn].
  rewrite <- H. exact Hx.
Qed.

Lemma double_representable (x : Q) : representable x -> double x == x.
Proof.
  intros Hr. rewrite double_pos by (apply representable_pos, Hr).
  rewrite nearest_fix; [apply Qred_correct|].
  apply (representable_proper x); [symmetry; apply Qred_correct|exact Hr].
Qed.

(** Rounding twice is rounding once. *)
Lemma double_idem (x : Q) : double (double x) == double x.
Proof.
  destruct (Qlt_le_dec 0 x) as [Hx|Hx].
  - assert (Hq : 0 < Qred x) by (rewrite Qred_correct; exact Hx).
    destruct (nearest_shape (Qred x) Hq) as [H0|Hr].
    + rewrite (double_zero (double x)); rewrite (double_pos x Hx); [|exact H0].
      symmetry. exact H0.
    + apply double_representable.
      apply (representable_proper (nearest (Qred x))); [|exact Hr].
      symmetry. apply double_pos, Hx.
  - destruct (Qlt_le_dec x 0) as [Hn|Hn].
    + assert (Hq : 0 < - Qred x) by (rewrite Qred_correct; lra).
      pose proof (double_neg x Hn) as Hd.
      destruct (nearest_shape (- Qred x) Hq) as [H0|Hr].
      * rewrite (double_zero (double x)); [|lra]. lra.
      * pose proof (representable_pos _ Hr) as Hp.
        rewrite (double_neg (double x)) by lra.
        assert (Hy : - Qred (double x) == nearest (- Qred x))
          by (rewrite Qred_correct; lra).
        rewrite (nearest_fix (- Qred (double x))); [lra|].
        apply (representable_proper (nearest (- Qred x))); [symmetry; exact Hy|exact Hr].
    + rewrite (double_zero x) by lra. apply Qeq_refl.
Qed.

(** The rounding error. *)

Lemma round_even_near (y : Q) :
  y - (1 # 2) <= inject_Z (round_even y) <= y + (1 # 2).
Proof.
  pose proof (Qfloor_le y) as Hl. pose proof (Qlt_floor y) as Hu.
  rewrite inject_Z_plus in Hu. change (inject_Z 1) with 1 in Hu.
  unfold round_even.
  destruct (Qcompare_spec (y - inject_Z (Qfloor y)) (1 # 2)) as [E|E|E].
  - destruct (Z.even (Qfloor y)).
    + split; lra.
    + rewrite inject_Z_plus. change (inject_Z 1) with 1. split; lra.
  - split; lra.
  - rewrite inject_Z_plus. change (inject_Z 1) with 1. split; lra.
Qed.

Lemma nearest_near (x : Q) :
  x - ulp x * (1 # 2) <= nearest x <= x + ulp x * (1 # 2).
Proof.
  pose proof (round_even_near (x / ulp x)) as [Hl Hu].
  assert (Pu : 0 < ulp x) by apply pow2_pos.
  assert (Hx : x == x / ulp x * ulp x) by (field; lra).
  unfold nearest. set (n := inject_Z (round_even (x / ulp x))) in *.
  set (y := x / ulp x) in *. set (u := ulp x) in *.
  assert (H1 : (y - (1 # 2)) * u <= n * u) by (apply Qmult_le_compat_r; lra).
  assert (H2 : n * u <= (y + (1 # 2)) * u) by (apply Qmult_le_compat_r; lra).
  clearbody n y u. split.
  - apply Qle_trans with ((y - (1 # 2)) * u); [|exact H1].
    rewrite Hx at 1. ring_simplify. apply Qle_refl.
  - apply Qle_trans with ((y + (1 # 2)) * u); [exact H2|].
    rewrite Hx at 1. ring_simplify. apply Qle_refl.
Qed.

Lemma ulp_small (x : Q) : 0 < x -> x <= 1 -> ulp x <= 1 # 4503599627370496.
Proof.
  intros H0 H1. destruct (log2_floor_spec x H0) as [Sl _].
  assert (H : 2 ^ log2_floor x <= 2 ^ 0) by (change (2 ^ 0) with 1; lra).
  apply Qpower_le_compat_l_inv in H; [|reflexivity].
  apply Qle_trans with (2 ^ (-52)); [|apply Qle_lteq; right; reflexivity].
  unfold ulp, expo. apply pow2_le. lia.
Qed.

(** Within [0, 1] the rounding moves a number by at most [2 ^ -53]. *)
Lemma double_near (x : Q) :
  0 <= x <= 1 ->
  x - (1 # 9007199254740992) <= double x <= x + (1 # 9007199254740992).
Proof.
  intros [H0 H1]. destruct (Qlt_le_dec 0 x) as [Hp|Hz].
  - rewrite double_pos by exact Hp.
    assert (Hq0 : 0 < Qred x) by (rewrite Qred_correct; exact Hp).
    assert (Hq1 : Qred x <= 1) by (rewrite Qred_correct; exact H1).
    pose proof (nearest_near (Qred x)) as [Hl Hu].
    pose proof (ulp_small (Qred x) Hq0 Hq1) as Hs.
    assert (Pu : 0 < ulp (Qred x)) by apply pow2_pos.
    rewrite Qred_correct in Hl at 1. rewrite Qred_correct in Hu at 2.
    set (u := ulp (Qred x)) in *. set (n := nearest (Qred x)) in *.
    clearbody u n. split; lra.
  - rewrite double_zero by lra. split; lra.
Qed.

(** The score is the exact quotient formula up to [2 ^ -52]. *)
Lemma score_at_near (d m : nat) :
  (0 < m)%nat -> (d <= m)%nat ->
  let exact := 1 - inject_Z (Z.of_nat d) / inject_Z (Z.of_nat m) in
  exact - (1 # 4503599627370496) <= score_at d m <= exact + (1 # 4503599627370496).
Proof.
  intros Hm Hd exact. subst exact.
  pose proof (quotient_range d m Hm Hd) as Hq.
  unfold score_at, js_sub, js_div. cbv zeta.
  set (q := inject_Z (Z.of_nat d) / inject_Z (Z.of_nat m)) in *.
  destruct (Z.of_nat m <=? max_string_length)%Z; [|split; lra].
  pose proof (double_near q Hq) as Hr.
  assert (Hr01 : 0 <= double q <= 1).
  { split; [apply double_nonneg|apply double_le_one]; lra. }
  assert (Hs01 : 0 <= 1 - double q <= 1) by lra.
  pose proof (double_near (1 - double q) Hs01) as Hs.
  set (r := double q) in *. set (s := double (1 - r)) in *.
  clearbody q r s. split; lra.
Qed.

End Rounding.

Lemma levenshtein_cons (x y : N) (a b : jsstring) :
  levenshtein (x :: a) (y :: b)
  = Nat.min (Nat.min (S (levenshtein a (y :: b))) (S (levenshtein (x :: a) b)))
            (levenshtein a b + (if N.eqb x y then 0 else 1))%nat.
Proof. reflexivity. Qed.

Lemma levenshtein_nil_r (a : jsstring) : levenshtein a [] = length a.
Proof. destruct a; reflexivity. Qed.

Lemma levenshtein_same (a : jsstring) : levenshtein a a = O.
Proof.
  induction a as [|x a IH]; [reflexivity|].
  rewrite levenshtein_cons, IH, N.eqb_refl. lia.
Qed.

Lemma levenshtein_le_max (a b : jsstring) :
  (levenshtein a b <= Nat.max (length a) (length b))%nat.
Proof.
  revert b. induction a as [|x a IH]; intros b; [simpl; lia|].
  induction b as [|y b IHb]; [rewrite levenshtein_nil_r; lia|].
  rewrite levenshtein_cons. specialize (IH b). simpl length.
  destruct (N.eqb x y); lia.
Qed.

Lemma Num_inj (p q : Q) : Num p = Num q -> p = q.
Proof.
  intros H. exact (f_equal (fun x => match x with Num r => r | NaN => p end) H).
Qed.

(** C6, as stated, fails: on two empty strings the score is [0 / 0], NaN,
    which is not within [0, 1]. *)
Lemma c6_counterexample :
  similarity [] [] = NaN /\ ~ in_unit_interval (similarity [] []).
Proof. split; [reflexivity|]. simpl. tauto. Qed.

(** C6, amended: for all strings [a] and [b] that are not both empty, the
    score is [1 - editDistance(a, b) / max(len(a), len(b))], as the numbers
    of the runtime compute it, and lies within [0, 1]; and
    [similarity(a, a) = 1] for every non-empty [a]. *)
Theorem c6_similarity_range (a b : jsstring) :
  a <> [] \/ b <> [] ->
  similarity a b = Num (similarity_formula a b)
  /\ in_unit_interval (similarity a b)
  /\ (a = b -> (similarity_formula a b == 1)%Q).
Proof.
  intros Hne.
  assert (Hm : (0 < Nat.max (length a) (length b))%nat).
  { destruct a, b; simpl; try lia. destruct Hne; congruence. }
  assert (Hsim : similarity a b = Num (similarity_formula a b)).
  { unfold similarity, similarity_formula.
    destruct (Nat.max (length a) (length b)); [lia|reflexivity]. }
  split; [exact Hsim|]. rewrite Hsim. unfold in_unit_interval, similarity_formula.
  split; [apply score_at_range; [exact Hm|apply levenshtein_le_max]|].
  intros ->. rewrite levenshtein_same. apply score_at_zero, Hm.
Qed.

(** The amended C6 at [latte] against [matte] and against itself. *)
Lemma c6_similarity_range_witness :
  similarity (js "latte") (js "matte") = Num (similarity_formula (js "latte") (js "matte"))
  /\ in_unit_interval (similarity (js "latte") (js "matte"))
  /\ (similarity_formula (js "latte") (js "latte") == 1)%Q.
Proof.
  assert (Hne : js "latte" <> [] \/ js "matte" <> []) by (left; discriminate).
  assert (Hne' : js "latte" <> [] \/ js "latte" <> []) by (left; discriminate).
  destruct (c6_similarity_range _ _ Hne) as (H1 & H2 & _).
  destruct (c6_similarity_range _ _ Hne') as (_ & _ & H3).
  split; [exact H1|]. split; [exact H2|]. exact (H3 eq_refl).
Defined.


Section ResolverFacts.
Context {prims : StringPrims}.

Lemma Qlt_bool_iff (a b : Q) : Qlt_bool a b = true <-> (a < b)%Q.
Proof.
  unfold Qlt_bool. rewrite negb_true_iff. split.
  - intros H. apply Qnot_le_lt. intros Hle. apply Qle_bool_iff in Hle. congruence.
  - intros H. destruct (Qle_bool b a) eqn:E; [|reflexivity].
    apply Qle_bool_iff in E. exfalso. apply (Qlt_not_le _ _ H E).
Qed.

Lemma bestStep_inv (n : jsstring) (seen : list CanonicalRow)
    (best : option CanonicalRow * Q) (entry : CanonicalRow) :
  scan_inv n seen best -> scan_inv n (seen ++ [entry]) (bestStep n best entry).
Proof.
  intros (H0 & Hmax & Hbest). unfold bestStep. fold (score_of n entry).
  destruct (score_of n entry) as [|score] eqn:Es.
  - split; [exact H0|]. split.
    + intros e q Hin He. apply elem_of_app in Hin. destruct Hin as [Hin|Hin].
      * eapply Hmax; eassumption.
      * apply list_elem_of_singleton in Hin. subst e. congruence.
    + destruct (fst best); [|exact Hbest].
      destruct Hbest as (Hin & Hs & Hp). split; [|split; assumption].
      apply elem_of_app. left. exact Hin.
  - destruct (Qlt_bool (snd best) score) eqn:El.
    + apply Qlt_bool_iff in El. unfold scan_inv. cbn [fst snd]. split; [lra|]. split.
      * intros e q Hin He. apply elem_of_app in Hin. destruct Hin as [Hin|Hin].
        -- specialize (Hmax e q Hin He). lra.
        -- apply list_elem_of_singleton in Hin. subst e.
           rewrite Es in He. injection He as <-. lra.
      * split; [apply elem_of_app; right; apply list_elem_of_singleton; reflexivity|].
        split; [exact Es|lra].
    + assert (Hle : (score <= snd best)%Q).
      { apply Qnot_lt_le. intros Hlt. apply Qlt_bool_iff in Hlt. congruence. }
      split; [exact H0|]. split.
      * intros e q Hin He. apply elem_of_app in Hin. destruct Hin as [Hin|Hin].
        -- eapply Hmax; eassumption.
        -- apply list_elem_of_singleton in Hin. subst e.
           rewrite Es in He. injection He as <-. exact Hle.
      * destruct (fst best); [|exact Hbest].
        destruct Hbest as (Hin & Hs & Hp). split; [|split; assumption].
        apply elem_of_app. left. exact Hin.
Qed.

Lemma scan_fold_inv (n : jsstring) (entries seen : list CanonicalRow)
    (best : option CanonicalRow * Q) :
  scan_inv n seen best ->
  scan_inv n (seen ++ entries) (fold_left (bestStep n) entries best).
Proof.
  revert seen best. induction entries as [|e entries IH]; intros seen best H.
  - rewrite app_nil_r. exact H.
  - simpl. replace (seen ++ e :: entries) with ((seen ++ [e]) ++ entries)
      by (rewrite <- app_assoc; reflexivity).
    apply IH, bestStep_inv, H.
Qed.

Lemma bestOf_inv (n : jsstring) (entries : list CanonicalRow) :
  scan_inv n entries (bestOf n entries).
Proof.
  unfold bestOf. change entries with ([] ++ entries) at 1.
  apply scan_fold_inv. unfold scan_inv. cbn [fst snd]. split; [lra|]. split; [|reflexivity].
  intros e q Hin. inversion Hin.
Qed.

Lemma tables_of_set_same (st : Store) (ty : EntityType) (t : Tables) :
  tables_of (set_tables st ty t) ty = t.
Proof. destruct ty; reflexivity. Qed.

Lemma tables_of_set_other (st : Store) (ty ty' : EntityType) (t : Tables) :
  ty <> ty' -> tables_of (set_tables st ty t) ty' = tables_of st ty'.
Proof. destruct ty, ty'; intros H; try reflexivity; congruence. Qed.

Lemma insert_mapping_stored (f : Faults) (t : Tables) (row : MappingRow)
    (key : jsstring) :
  insert_mapping_fails f = false ->
  key = normalized_raw_name row ->
  mappings t !! key = None ->
  mappings (snd (insert_mapping f t row)) !! key = Some row.
Proof.
  intros Hf -> Hnone. unfold insert_mapping. rewrite Hf, Hnone. simpl.
  apply lookup_insert_eq.
Qed.

Lemma insert_mapping_canonicals (f : Faults) (t : Tables) (row : MappingRow) :
  canonicals (snd (insert_mapping f t row)) = canonicals t.
Proof.
  unfold insert_mapping. destruct (insert_mapping_fails f); [reflexivity|].
  destruct (mappings t !! normalized_raw_name row); reflexivity.
Qed.

(** The fuzzy branch of [resolveCanonical]. *)
Lemma resolve_fuzzy (f : Faults) (st : Store) (raw : jsstring)
    (ty : EntityType) (th : option Q) (best : CanonicalRow) (score : Q) :
  raw <> [] ->
  select_mapping f (tables_of st ty) (normalizeChain raw) = None ->
  bestOf (normalizeChain raw) (entriesOf f st ty) = (Some best, score) ->
  Qle_bool (thresholdOf ty th) score = true ->
  resolveCanonical f st (Some raw) ty th
  = (Returned (Some (id best)),
     set_tables st ty
       (snd (insert_mapping f (tables_of st ty)
               (fuzzyRow raw (normalizeChain raw) best score)))).
Proof.
  intros Hraw Hsel Hbest Hth. unfold resolveCanonical.
  destruct raw as [|c raw']; [congruence|].
  rewrite Hsel. unfold entriesOf in Hbest. rewrite Hbest.
  unfold thresholdOf in Hth. rewrite Hth.
  unfold fuzzyRow.
  destruct (insert_mapping f (tables_of st ty) _) as [err t']. reflexivity.
Qed.

(** The creation branch of [resolveCanonical]. *)
Lemma resolve_create (f : Faults) (st : Store) (raw : jsstring)
    (ty : EntityType) (th : option Q) :
  raw <> [] ->
  select_mapping f (tables_of st ty) (normalizeChain raw) = None ->
  fuzzyAccepted f st raw ty th = false ->
  resolveCanonical f st (Some raw) ty th
  = createCanonical f st ty raw (normalizeChain raw).
Proof.
  intros Hraw Hsel Hacc. unfold resolveCanonical.
  destruct raw as [|c raw']; [congruence|].
  rewrite Hsel. unfold fuzzyAccepted, entriesOf, thresholdOf in Hacc.
  destruct (bestOf _ _) as [[bm|] bs]; [|reflexivity].
  rewrite Hacc. reflexivity.
Qed.


(** Both outcomes of the insert of the canonical entry. *)
Lemma createCanonical_cases (f : Faults) (st : Store) (ty : EntityType)
    (raw n : jsstring) :
  let name := canonicalNameOf ty raw n in
  match insert_canonical f (tables_of st ty) name (normalizeText name) with
  | (inr e, _) => createCanonical f st ty raw n = (Thrown e, st)
  | (inl newEntry, t1) =>
      createCanonical f st ty raw n
      = (Returned (Some (id newEntry)),
         set_tables st ty (snd (insert_mapping f t1 (createdRow raw n newEntry))))
  end.
Proof.
  intros name. unfold createCanonical. fold name.
  destruct (insert_canonical f (tables_of st ty) name (normalizeText name))
    as [[newEntry|e] t1]; [|reflexivity].
  unfold createdRow. destruct (insert_mapping f t1 _) as [err t2]. reflexivity.
Qed.

(** C10: in a resolution that finds no exact mapping, a store error on the
    insert of the new canonical entry is thrown to the caller and the store
    is left as it was; a store error on the insert of the mapping, after a
    fuzzy match or after the creation, still returns the matched or created
    canonical id. *)
Theorem c10_store_errors (f : Faults) (st : Store) (raw : jsstring)
    (ty : EntityType) (th : option Q) :
  raw <> [] ->
  select_mapping f (tables_of st ty) (normalizeChain raw) = None ->
  let n := normalizeChain raw in
  let name := canonicalNameOf ty raw n in
  (forall e t',
     fuzzyAccepted f st raw ty th = false ->
     insert_canonical f (tables_of st ty) name (normalizeText name) = (inr e, t') ->
     resolveCanonical f st (Some raw) ty th = (Thrown e, st))
  /\ (forall best score e t',
        bestOf n (entriesOf f st ty) = (Some best, score) ->
        Qle_bool (thresholdOf ty th) score = true ->
        insert_mapping f (tables_of st ty) (fuzzyRow raw n best score) = (Some e, t') ->
        fst (resolveCanonical f st (Some raw) ty th) = Returned (Some (id best)))
  /\ (forall newEntry t1 e t2,
        fuzzyAccepted f st raw ty th = false ->
        insert_canonical f (tables_of st ty) name (normalizeText name)
        = (inl newEntry, t1) ->
        insert_mapping f t1 (createdRow raw n newEntry) = (Some e, t2) ->
        fst (resolveCanonical f st (Some raw) ty th) = Returned (Some (id newEntry))).
Proof.
  intros Hraw Hsel n name. subst n name. split; [|split].
  - intros e t' Hacc Hins.
    rewrite (resolve_create f st raw ty th Hraw Hsel Hacc).
    pose proof (createCanonical_cases f st ty raw (normalizeChain raw)) as Hc.
    cbn zeta in Hc. rewrite Hins in Hc. exact Hc.
  - intros best score e t' Hbest Hth _.
    rewrite (resolve_fuzzy f st raw ty th best score Hraw Hsel Hbest Hth).
    reflexivity.
  - intros newEntry t1 e t2 Hacc Hins _.
    rewrite (resolve_create f st raw ty th Hraw Hsel Hacc).
    pose proof (createCanonical_cases f st ty raw (normalizeChain raw)) as Hc.
    cbn zeta in Hc. rewrite Hins in Hc. rewrite Hc. reflexivity.
Qed.

(** *** Resolving twice *)

Lemma select_mapping_no_faults (t : Tables) (n : jsstring) :
  select_mapping no_faults t n = canonical_id <$> (mappings t !! n).
Proof. reflexivity. Qed.

Lemma insert_canonical_names (f : Faults) (t : Tables) (name : jsstring)
    (normalized : option jsstring) :
  NoDup (normalized_name <$> canonicals t) ->
  NoDup (normalized_name <$> canonicals (snd (insert_canonical f t name normalized))).
Proof.
  intros Hnd. unfold insert_canonical.
  destruct (insert_canonical_fails f); [exact Hnd|].
  destruct normalized as [n|]; [|exact Hnd].
  destruct (bool_decide (n ∈ normalized_name <$> canonicals t)) eqn:E; [exact Hnd|].
  apply bool_decide_eq_false in E. cbn [snd canonicals].
  rewrite fmap_app. apply NoDup_app. split; [exact Hnd|]. split.
  - intros x Hx Hx'. apply list_elem_of_singleton in Hx'. subst x. exact (E Hx).
  - apply NoDup_singleton.
Qed.

Lemma insert_canonical_mappings (f : Faults) (t : Tables) (name : jsstring)
    (normalized : option jsstring) :
  mappings (snd (insert_canonical f t name normalized)) = mappings t.
Proof.
  unfold insert_canonical. destruct (insert_canonical_fails f); [reflexivity|].
  destruct normalized as [n|]; [|reflexivity].
  destruct (bool_decide _); reflexivity.
Qed.

(** Without an exact mapping, a resolution that returns an id leaves a
    mapping to that id behind, and every resolution keeps the normalized
    names of the canonical entries distinct. *)
Lemma resolve_once (st : Store) (raw : jsstring) (ty : EntityType) (th : option Q) :
  raw <> [] ->
  mappings (tables_of st ty) !! normalizeChain raw = None ->
  let r := resolveCanonical no_faults st (Some raw) ty th in
  match fst r with
  | Returned (Some i) =>
      canonical_id <$> (mappings (tables_of (snd r) ty) !! normalizeChain raw) = Some i
  | Returned None => False
  | Thrown _ => snd r = st
  end
  /\ (forall ty', ty' <> ty -> tables_of (snd r) ty' = tables_of st ty')
  /\ (NoDup (normalized_name <$> canonicals (tables_of st ty)) ->
      NoDup (normalized_name <$> canonicals (tables_of (snd r) ty))).
Proof.
  intros Hraw Hnone r.
  assert (Hsel : select_mapping no_faults (tables_of st ty) (normalizeChain raw) = None).
  { rewrite select_mapping_no_faults, Hnone. reflexivity. }
  destruct (fuzzyAccepted no_faults st raw ty th) eqn:Hacc.
  - unfold fuzzyAccepted in Hacc.
    destruct (bestOf (normalizeChain raw) (entriesOf no_faults st ty))
      as [[best|] score] eqn:Hbest; [|discriminate].
    subst r. rewrite (resolve_fuzzy _ st raw ty th best score Hraw Hsel Hbest Hacc).
    cbn [fst snd]. rewrite tables_of_set_same. split; [|split].
    + rewrite (insert_mapping_stored no_faults (tables_of st ty)
                 (fuzzyRow raw (normalizeChain raw) best score) (normalizeChain raw)
                 eq_refl eq_refl Hnone).
      reflexivity.
    + intros ty' Hne. apply tables_of_set_other. congruence.
    + rewrite insert_mapping_canonicals. tauto.
  - subst r. rewrite (resolve_create _ st raw ty th Hraw Hsel Hacc).
    pose proof (createCanonical_cases no_faults st ty raw (normalizeChain raw)) as Hc.
    cbn zeta in Hc.
    pose proof (insert_canonical_names no_faults (tables_of st ty)
                  (canonicalNameOf ty raw (normalizeChain raw))
                  (normalizeText (canonicalNameOf ty raw (normalizeChain raw)))) as Hnd.
    pose proof (insert_canonical_mappings no_faults (tables_of st ty)
                  (canonicalNameOf ty raw (normalizeChain raw))
                  (normalizeText (canonicalNameOf ty raw (normalizeChain raw)))) as Hmp.
    destruct (insert_canonical no_faults (tables_of st ty) _ _) as [[newEntry|e] t1].
    + rewrite Hc. cbn [fst snd] in *. rewrite tables_of_set_same. split; [|split].
      * rewrite (insert_mapping_stored no_faults t1
                   (createdRow raw (normalizeChain raw) newEntry)
                   (normalizeChain raw) eq_refl eq_refl).
        -- reflexivity.
        -- rewrite Hmp. exact Hnone.
      * intros ty' Hne. apply tables_of_set_other. congruence.
      * rewrite insert_mapping_canonicals. exact Hnd.
    + rewrite Hc. cbn [fst snd]. split; [reflexivity|]. split; [reflexivity|tauto].
Qed.

(** A resolution that finds an exact mapping returns its id and leaves the
    store as it is. *)
Lemma resolve_mapped (st : Store) (raw : jsstring) (ty : EntityType)
    (th : option Q) (i : nat) :
  raw <> [] ->
  canonical_id <$> (mappings (tables_of st ty) !! normalizeChain raw) = Some i ->
  resolveCanonical no_faults st (Some raw) ty th = (Returned (Some i), st).
Proof.
  intros Hraw Hm. unfold resolveCanonical. destruct raw; [congruence|].
  rewrite select_mapping_no_faults, Hm. reflexivity.
Qed.

(** C8, amended: on a store that answers every call of the two
    resolutions, resolving the same raw name again, after the first
    resolution, has the same outcome as the first one (the same canonical
    id whenever it returned one), adds no canonical entry, and both
    resolutions keep the normalized names of the canonical entries
    distinct. *)
Theorem c8_resolve_twice (st : Store) (rawName : option jsstring)
    (ty : EntityType) (th : option Q) :
  let first := resolveCanonical no_faults st rawName ty th in
  let second := resolveCanonical no_faults (snd first) rawName ty th in
  fst second = fst first
  /\ (forall ty', canonicals (tables_of (snd second) ty')
                 = canonicals (tables_of (snd first) ty'))
  /\ (forall ty', NoDup (normalized_name <$> canonicals (tables_of st ty')) ->
        NoDup (normalized_name <$> canonicals (tables_of (snd first) ty'))
        /\ NoDup (normalized_name <$> canonicals (tables_of (snd second) ty'))).
Proof.
  intros first second.
  destruct rawName as [raw|].
  2:{ split; [reflexivity|]. split; [reflexivity|]. intros ty' H. split; exact H. }
  destruct (decide (raw = [])) as [->|Hraw].
  { split; [reflexivity|]. split; [reflexivity|]. intros ty' H. split; exact H. }
  destruct (mappings (tables_of st ty) !! normalizeChain raw) as [row|] eqn:Hm.
  - assert (Hf : first = (Returned (Some (canonical_id row)), st)).
    { apply resolve_mapped; [exact Hraw|]. rewrite Hm. reflexivity. }
    assert (Hs : second = first).
    { subst second. rewrite Hf. cbn [snd]. exact Hf. }
    rewrite Hs. split; [reflexivity|]. split; [reflexivity|].
    rewrite Hf. cbn [snd]. intros ty' H. split; exact H.
  - destruct (resolve_once st raw ty th Hraw Hm) as (Hout & Hother & Hnd).
    fold first in Hout, Hother, Hnd.
    assert (Hnd' : forall ty', NoDup (normalized_name <$> canonicals (tables_of st ty')) ->
                     NoDup (normalized_name <$> canonicals (tables_of (snd first) ty'))).
    { intros ty' H. destruct (decide (ty' = ty)) as [->|Hne]; [exact (Hnd H)|].
      rewrite (Hother ty' Hne). exact H. }
    destruct (fst first) as [[i|]|e] eqn:Hfst.
    + assert (Hs : second = (Returned (Some i), snd first)).
      { apply resolve_mapped; [exact Hraw|exact Hout]. }
      rewrite Hs. cbn [fst snd]. split; [reflexivity|]. split; [reflexivity|].
      intros ty' H. split; apply Hnd', H.
    + contradiction.
    + assert (Hs : second = first).
      { subst second. rewrite Hout. reflexivity. }
      rewrite Hs. split; [exact Hfst|]. split; [reflexivity|].
      intros ty' H. split; apply Hnd', H.
Qed.

End ResolverFacts.



(** The rounding decides: [abcde] against the entry [axxxx] scores
    [1 - 4 / 5] on doubles, which is below the double 0.2; with the
    threshold 0.2 the resolution creates a new entry. *)
Lemma fuzzy_rounded_score_rejected :
  score_of (normalizeChain (prims:=ascii_prims) (js "abcde")) axxxx_entry
  = Num (score_at 4 5)
  /\ (score_at 4 5 < 2 # 10)%Q
  /\ (2 # 10 <= double (2 # 10))%Q
  /\ fst (resolveCanonical (prims:=ascii_prims) no_faults axxxx_store
            (Some (js "abcde")) item (Some (double (2 # 10)))) = Returned (Some 2%nat)
  /\ mapping_method <$>
       (mappings (item_tables (snd (resolveCanonical (prims:=ascii_prims) no_faults
                    axxxx_store (Some (js "abcde")) item (Some (double (2 # 10))))))
          !! js "abcde")
     = Some "created".
Proof. repeat split; vm_compute; reflexivity || discriminate. Qed.

(** C8, as stated, fails: the store refuses the mapping of the first
    resolution of [A-1 pc], an error the resolver does not read, and the
    first resolution returns the id 2 of its new entry [A-], normalized
    [a]; the second resolution, on a store that answers every call, finds
    no mapping of [a1], scores [a] at 0.5 against it and throws on the
    insert of a second entry normalized [a]. *)
Lemma c8_counterexample :
  normalizeChain (prims:=ascii_prims) (js "A-1 pc") = js "a1"
  /\ fst (resolveCanonical (prims:=ascii_prims) mapping_write_fails latte_store
            (Some (js "A-1 pc")) item None) = Returned (Some 2%nat)
  /\ normalized_name <$>
       canonicals (item_tables
         (snd (resolveCanonical (prims:=ascii_prims) mapping_write_fails latte_store
                 (Some (js "A-1 pc")) item None)))
     = [js "latte"; js "a"]
  /\ fst (resolveCanonical (prims:=ascii_prims) no_faults
            (snd (resolveCanonical (prims:=ascii_prims) mapping_write_fails latte_store
                    (Some (js "A-1 pc")) item None))
            (Some (js "A-1 pc")) item None) = Thrown unique_violation.
Proof. repeat split; vm_compute; reflexivity. Qed.


(** C8 at a new item resolved twice. *)
Lemma c8_resolve_twice_witness :
  fst (resolveCanonical (prims:=ascii_prims) no_faults latte_store
         (Some (js "Mocha 2 pcs")) item None) = Returned (Some 2%nat)
  /\ fst (resolveCanonical (prims:=ascii_prims) no_faults
            (snd (resolveCanonical (prims:=ascii_prims) no_faults latte_store
                    (Some (js "Mocha 2 pcs")) item None))
            (Some (js "Mocha 2 pcs")) item None) = Returned (Some 2%nat)
  /\ length (canonicals (tables_of
        (snd (resolveCanonical (prims:=ascii_prims) no_faults
               (snd (resolveCanonical (prims:=ascii_prims) no_faults latte_store
                       (Some (js "Mocha 2 pcs")) item None))
               (Some (js "Mocha 2 pcs")) item None)) item)) = 2%nat.
Proof.
  destruct (c8_resolve_twice (prims:=ascii_prims) latte_store
              (Some (js "Mocha 2 pcs")) item None) as (Hsame & Hrows & _).
  cbn zeta in Hsame, Hrows.
  split; [reflexivity|]. split.
  - rewrite Hsame. reflexivity.
  - rewrite (Hrows item). reflexivity.
Defined.

(** C10 at a failing insert of the entry, and at failing inserts of the
    mapping after a fuzzy match and after a creation. *)
Lemma c10_store_errors_witness :
  resolveCanonical (prims:=ascii_prims) canonical_write_fails latte_store
    (Some (js "Mocha")) item None = (Thrown unavailable, latte_store)
  /\ fst (resolveCanonical (prims:=ascii_prims) mapping_write_fails latte_store
            (Some (js "matte")) item None) = Returned (Some 1%nat)
  /\ fst (resolveCanonical (prims:=ascii_prims) mapping_write_fails latte_store
            (Some (js "Mocha")) item None) = Returned (Some 2%nat).
Proof.
  split; [|split].
  - destruct (c10_store_errors (prims:=ascii_prims) canonical_write_fails latte_store
                (js "Mocha") item None ltac:(discriminate) eq_refl) as (Hfatal & _ & _).
    apply (Hfatal unavailable (tables_of latte_store item)); vm_compute; reflexivity.
  - destruct (c10_store_errors (prims:=ascii_prims) mapping_write_fails latte_store
                (js "matte") item None ltac:(discriminate) eq_refl) as (_ & Hfuzzy & _).
    apply (Hfuzzy {| id := 1; canonical_name := js "Latte"; normalized_name := js "latte" |}
             (double (8 # 10)) unavailable (tables_of latte_store item));
      vm_compute; reflexivity.
  - destruct (c10_store_errors (prims:=ascii_prims) mapping_write_fails latte_store
                (js "Mocha") item None ltac:(discriminate) eq_refl) as (_ & _ & Hcreate).
    apply (Hcreate {| id := 2; canonical_name := js "Mocha"; normalized_name := js "mocha" |}
             {| mappings := ∅;
                canonicals := canonicals (tables_of latte_store item)
                              ++ [ {| id := 2; canonical_name := js "Mocha";
                                      normalized_name := js "mocha" |} ];
                next_id := 3 |}
             unavailable
             {| mappings := ∅;
                canonicals := canonicals (tables_of latte_store item)
                              ++ [ {| id := 2; canonical_name := js "Mocha";
                                      normalized_name := js "mocha" |} ];
                next_id := 3 |});
      vm_compute; reflexivity.
Defined.

(** *** Further properties of the normalizer and the resolver *)

(** *** The edit distance *)

Lemma levenshtein_sym (a b : jsstring) : levenshtein a b = levenshtein b a.
Proof.
  revert b. induction a as [|x a IHa]; intros b.
  - rewrite levenshtein_nil_r. reflexivity.
  - induction b as [|y b IHb]; [rewrite levenshtein_nil_r; reflexivity|].
    rewrite !levenshtein_cons, IHb, (IHa (y :: b)), (IHa b), (N.eqb_sym y x).
    lia.
Qed.

Lemma levenshtein_zero (a b : jsstring) : levenshtein a b = O -> a = b.
Proof.
  revert b. induction a as [|x a IH]; intros b H.
  - destruct b; [reflexivity|discriminate].
  - destruct b as [|y b]; [discriminate|].
    rewrite levenshtein_cons in H.
    destruct (N.eqb_spec x y) as [->|Hne].
    + f_equal. apply IH. lia.
    + lia.
Qed.

Lemma levenshtein_length_gap (a b : jsstring) :
  (Nat.max (length a) (length b) - Nat.min (length a) (length b)
   <= levenshtein a b)%nat.
Proof.
  revert b. induction a as [|x a IHa]; intros b; [simpl; lia|].
  induction b as [|y b IHb]; [rewrite levenshtein_nil_r; simpl; lia|].
  rewrite levenshtein_cons. specialize (IHa (y :: b)) as H1. specialize (IHa b) as H2.
  simpl length in *. destruct (N.eqb x y); lia.
Qed.


(** *** The scorer *)

(** X2: the score does not depend on the order of its two
    arguments. *)
Theorem similarity_symmetric (a b : jsstring) : similarity a b = similarity b a.
Proof.
  unfold similarity. rewrite (levenshtein_sym a b), (Nat.max_comm (length a)).
  reflexivity.
Qed.

Lemma similarity_value (a b : jsstring) (q : Q) :
  similarity a b = Num q ->
  (0 < Nat.max (length a) (length b))%nat /\ q = similarity_formula a b.
Proof.
  unfold similarity, similarity_formula.
  destruct (Nat.max (length a) (length b)) eqn:E; [discriminate|].
  intros [= <-]. split; [lia|reflexivity].
Qed.

Lemma similarity_one_eq (a b : jsstring) (q : Q) :
  similarity a b = Num q -> (q == 1)%Q -> a = b.
Proof.
  intros H. destruct (similarity_value a b q H) as [Hm ->].
  unfold similarity_formula. intros Hq. apply levenshtein_zero.
  pose proof (levenshtein_le_max a b) as Hle.
  destruct (levenshtein a b) as [|d]; [reflexivity|]. exfalso.
  assert (Hlt : (score_at (S d) (Nat.max (length a) (length b)) < 1)%Q)
    by (apply score_at_below_one; [lia|exact Hle]).
  lra.
Qed.

(** X3: two strings score 1 exactly when they are equal (a score
    there is as soon as one of them is not empty). *)
Theorem similarity_one_iff_equal (a b : jsstring) (q : Q) :
  similarity a b = Num q -> ((q == 1)%Q <-> a = b).
Proof.
  intros H. split; [apply similarity_one_eq, H|].
  intros <-. destruct (similarity_value a a q H) as [Hm ->].
  unfold similarity_formula. rewrite levenshtein_same. apply score_at_zero, Hm.
Qed.

Lemma similarity_one_iff_equal_witness :
  similarity (js "taco") (js "taco") = Num (similarity_formula (js "taco") (js "taco"))
  /\ (similarity_formula (js "taco") (js "taco") == 1)%Q
  /\ ~ (similarity_formula (js "taco") (js "tako") == 1)%Q.
Proof.
  split; [reflexivity|]. split.
  - apply (similarity_one_iff_equal (js "taco") (js "taco") _ eq_refl). reflexivity.
  - intros H.
    apply (similarity_one_iff_equal (js "taco") (js "tako") _ eq_refl) in H.
    discriminate H.
Defined.

(** X27: the score of two strings that are not both empty is the
    quotient formula [1 - editDistance(a, b) / max(len(a), len(b))] up to
    the rounding of the division and of the subtraction, [2 ^ -52] at
    most. *)
Theorem similarity_rounding (a b : jsstring) (q : Q) :
  similarity a b = Num q ->
  let exact := (1 - inject_Z (Z.of_nat (levenshtein a b))
                    / inject_Z (Z.of_nat (Nat.max (length a) (length b))))%Q in
  (exact - (1 # 4503599627370496) <= q <= exact + (1 # 4503599627370496))%Q.
Proof.
  intros H exact. destruct (similarity_value a b q H) as [Hm ->].
  unfold similarity_formula.
  exact (score_at_near _ _ Hm (levenshtein_le_max a b)).
Qed.

(** X27 at [abcde] against [axxxx]: the score is the double below 1/5. *)
Lemma similarity_rounding_witness :
  similarity (js "abcde") (js "axxxx") = Num (score_at 4 5)
  /\ (score_at 4 5 < 1 # 5)%Q
  /\ ((1 - inject_Z 4 / inject_Z 5) - (1 # 4503599627370496) <= score_at 4 5
      <= (1 - inject_Z 4 / inject_Z 5) + (1 # 4503599627370496))%Q.
Proof.
  split; [reflexivity|]. split; [vm_compute; reflexivity|].
  exact (similarity_rounding (js "abcde") (js "axxxx") (score_at 4 5) eq_refl).
Defined.

(** X4: the score of two strings is at most the score at a distance
    equal to the difference of their lengths, and so at most the length of
    the shorter one over the length of the longer one up to the rounding,
    [2 ^ -52]: strings of very different lengths never match. *)
Theorem similarity_length_bound (a b : jsstring) (q : Q) :
  similarity a b = Num q ->
  let longer := Nat.max (length a) (length b) in
  let shorter := Nat.min (length a) (length b) in
  (q <= score_at (longer - shorter) longer)%Q
  /\ (q <= inject_Z (Z.of_nat shorter) / inject_Z (Z.of_nat longer)
           + (1 # 4503599627370496))%Q.
Proof.
  intros H longer shorter. destruct (similarity_value a b q H) as [Hm ->].
  unfold similarity_formula. fold longer in Hm |- *.
  pose proof (levenshtein_length_gap a b) as Hg. fold longer shorter in Hg.
  assert (Hk : (shorter <= longer)%nat) by (subst longer shorter; lia).
  pose proof (score_at_antitone _ _ longer Hm Hg) as Ha.
  split; [exact Ha|].
  pose proof (score_at_near (longer - shorter) longer Hm ltac:(lia)) as [_ Hn].
  cbv zeta in Hn.
  assert (Hl : (0 < inject_Z (Z.of_nat longer))%Q).
  { change 0%Q with (inject_Z 0). rewrite <- Zlt_Qlt. lia. }
  assert (E : (1 - inject_Z (Z.of_nat (longer - shorter)) / inject_Z (Z.of_nat longer)
               == inject_Z (Z.of_nat shorter) / inject_Z (Z.of_nat longer))%Q).
  { rewrite Nat2Z.inj_sub by exact Hk. unfold Z.sub.
    rewrite inject_Z_plus, inject_Z_opp. field. lra. }
  rewrite E in Hn. lra.
Qed.

(** X4 at [abc] against [a]: the score, the double above 1/3, is more
    than the quotient of the lengths. *)
Lemma similarity_length_bound_witness :
  similarity (js "abc") (js "a") = Num (score_at 2 3)
  /\ (1 # 3 < score_at 2 3)%Q
  /\ (score_at 2 3 <= score_at (3 - 1) 3)%Q
  /\ (score_at 2 3 <= inject_Z 1 / inject_Z 3 + (1 # 4503599627370496))%Q.
Proof.
  split; [reflexivity|]. split; [vm_compute; reflexivity|].
  exact (similarity_length_bound (js "abc") (js "a") (score_at 2 3) eq_refl).
Defined.

(** *** The normal form of [normalizeText] *)

Lemma filter_all (p : jsstring -> bool) (ts : list jsstring) :
  Forall (fun t => p t = true) (List.filter p ts).
Proof.
  induction ts as [|t ts IH]; [constructor|]. simpl.
  destruct (p t) eqn:E; [constructor; assumption|exact IH].
Qed.

(** X1: the text [normalizeText] returns is in normal form: it is
    written over [a-z], [0-9] and the space only, its words are separated
    by single spaces with none at either end, and no word is a number. *)
Theorem normalizeText_normal_form {prims : StringPrims} (x y : jsstring) :
  normalizeText x = Some y ->
  forallb plain y = true
  /\ join_with 32 (tokens y) = y
  /\ Forall (fun t => not_number t = true) (tokens y).
Proof.
  intros Hx. split; [exact (normalized_plain x y Hx)|].
  unfold normalizeText in Hx. destruct x as [|c x']; [discriminate|].
  injection Hx as <-. rewrite normalizeChain_tokens.
  set (ts := List.filter not_number (tokens (cleaned (c :: x')))).
  assert (Hgood : Forall (good_token kept) ts).
  { apply Forall_filter, tokens_good, cleaned_kept. }
  rewrite tokens_join.
  - split; [reflexivity|apply filter_all].
  - eapply Forall_impl; [exact Hgood|]. apply good_token_weaken.
Qed.

Lemma normalizeText_normal_form_witness :
  normalizeText (prims:=ascii_prims) (js " 2x  Iced-Latte 16 oz ")
  = Some (js "2x icedlatte oz")
  /\ forallb plain (js "2x icedlatte oz") = true
  /\ join_with 32 (tokens (js "2x icedlatte oz")) = js "2x icedlatte oz"
  /\ Forall (fun t => not_number t = true) (tokens (js "2x icedlatte oz")).
Proof.
  split; [reflexivity|].
  exact (normalizeText_normal_form (prims:=ascii_prims)
           (js " 2x  Iced-Latte 16 oz ") (js "2x icedlatte oz") eq_refl).
Defined.


(** *** findBestMatch *)

Lemma first_best_step (n : jsstring) (seen : list CanonicalRow)
    (best : option CanonicalRow * Q) (entry : CanonicalRow) :
  first_best n seen best -> first_best n (seen ++ [entry]) (bestStep n best entry).
Proof.
  unfold first_best, bestStep. fold (score_of n entry).
  destruct best as [[e|] bs]; cbn [fst snd].
  - intros (pre & post & -> & Hs & Hp & Hpre & Hpost).
    destruct (score_of n entry) as [|score] eqn:Es.
    + cbn [fst snd]. exists pre, (post ++ [entry]).
      split; [rewrite <- app_assoc; reflexivity|]. split; [exact Hs|]. split; [exact Hp|].
      split; [exact Hpre|]. intros c q Hin Hc.
      apply elem_of_app in Hin. destruct Hin as [Hin|Hin]; [eapply Hpost; eassumption|].
      apply list_elem_of_singleton in Hin. subst c. congruence.
    + destruct (Qlt_bool bs score) eqn:El; cbn [fst snd].
      * apply Qlt_bool_iff in El. exists (pre ++ e :: post), [].
        split; [reflexivity|]. split; [exact Es|]. split; [lra|]. split.
        -- intros c q Hin Hc. apply elem_of_app in Hin. destruct Hin as [Hin|Hin].
           ++ specialize (Hpre c q Hin Hc). lra.
           ++ apply elem_of_cons in Hin. destruct Hin as [->|Hin].
              ** rewrite Hs in Hc. injection Hc as <-. exact El.
              ** specialize (Hpost c q Hin Hc). lra.
        -- intros c q Hin. inversion Hin.
      * assert (Hle : (score <= bs)%Q).
        { apply Qnot_lt_le. intros Hlt. apply Qlt_bool_iff in Hlt. congruence. }
        exists pre, (post ++ [entry]).
        split; [rewrite <- app_assoc; reflexivity|]. split; [exact Hs|].
        split; [exact Hp|]. split; [exact Hpre|]. intros c q Hin Hc.
        apply elem_of_app in Hin. destruct Hin as [Hin|Hin]; [eapply Hpost; eassumption|].
        apply list_elem_of_singleton in Hin. subst c.
        rewrite Es in Hc. injection Hc as <-. exact Hle.
  - intros [-> Hall].
    destruct (score_of n entry) as [|score] eqn:Es.
    + cbn [fst snd]. split; [reflexivity|]. intros c q Hin Hc.
      apply elem_of_app in Hin. destruct Hin as [Hin|Hin]; [eapply Hall; eassumption|].
      apply list_elem_of_singleton in Hin. subst c. congruence.
    + destruct (Qlt_bool 0 score) eqn:El; cbn [fst snd].
      * apply Qlt_bool_iff in El. exists seen, [].
        split; [reflexivity|]. split; [exact Es|]. split; [exact El|]. split.
        -- intros c q Hin Hc. specialize (Hall c q Hin Hc). lra.
        -- intros c q Hin. inversion Hin.
      * assert (Hle : (score <= 0)%Q).
        { apply Qnot_lt_le. intros Hlt. apply Qlt_bool_iff in Hlt. congruence. }
        split; [reflexivity|]. intros c q Hin Hc.
        apply elem_of_app in Hin. destruct Hin as [Hin|Hin]; [eapply Hall; eassumption|].
        apply list_elem_of_singleton in Hin. subst c.
        rewrite Es in Hc. injection Hc as <-. exact Hle.
Qed.

Lemma first_best_fold (n : jsstring) (entries seen : list CanonicalRow)
    (best : option CanonicalRow * Q) :
  first_best n seen best ->
  first_best n (seen ++ entries) (fold_left (bestStep n) entries best).
Proof.
  revert seen best. induction entries as [|e entries IH]; intros seen best H.
  - rewrite app_nil_r. exact H.
  - simpl. replace (seen ++ e :: entries) with ((seen ++ [e]) ++ entries)
      by (rewrite <- app_assoc; reflexivity).
    apply IH, first_best_step, H.
Qed.

Lemma bestOf_first (n : jsstring) (entries : list CanonicalRow) :
  first_best n entries (bestOf n entries).
Proof.
  unfold bestOf. change entries with ([] ++ entries) at 1.
  apply first_best_fold. split; [reflexivity|]. intros c q Hin. inversion Hin.
Qed.

(** X5: the candidate [findBestMatch] returns has a positive score
    that reaches [minScore] (0.9 by default), every candidate before it in
    the list scores strictly less and none after it scores more: of the
    best candidates the first one is taken. *)
Theorem findBestMatch_first_best (n : jsstring)
    (candidates : option (list CanonicalRow)) (minScore : option Q)
    (c : CanonicalRow) :
  findBestMatch n candidates minScore = Some c ->
  exists pre post q,
    default [] candidates = pre ++ c :: post
    /\ score_of n c = Num q
    /\ (0 < q)%Q /\ (default (double (9 # 10)) minScore <= q)%Q
    /\ (forall c' q', c' ∈ pre -> score_of n c' = Num q' -> (q' < q)%Q)
    /\ (forall c' q', c' ∈ post -> score_of n c' = Num q' -> (q' <= q)%Q).
Proof.
  unfold findBestMatch. pose proof (bestOf_first n (default [] candidates)) as H.
  destruct (bestOf n (default [] candidates)) as [bm bs]. unfold first_best in H.
  cbn [fst snd] in H.
  destruct (Qle_bool (default (double (9 # 10)) minScore) bs) eqn:Eq; [|discriminate].
  intros ->. destruct H as (pre & post & E & Hs & Hp & Hpre & Hpost).
  exists pre, post, bs. apply Qle_bool_iff in Eq. repeat split; assumption.
Qed.

Lemma findBestMatch_first_best_witness :
  findBestMatch (js "latt") (Some latt_candidates) (Some (double (8 # 10)))
  = Some latte_first
  /\ exists pre post q,
       default [] (Some latt_candidates) = pre ++ latte_first :: post
       /\ score_of (js "latt") latte_first = Num q
       /\ (0 < q)%Q /\ (default (double (9 # 10)) (Some (double (8 # 10))) <= q)%Q
       /\ (forall c' q', c' ∈ pre -> score_of (js "latt") c' = Num q' -> (q' < q)%Q)
       /\ (forall c' q', c' ∈ post -> score_of (js "latt") c' = Num q' -> (q' <= q)%Q).
Proof.
  split; [vm_compute; reflexivity|].
  apply (findBestMatch_first_best (js "latt") (Some latt_candidates)
           (Some (double (8 # 10)))).
  vm_compute. reflexivity.
Defined.

(** X6: [findBestMatch] returns null exactly when no candidate has
    a positive score, as the doubles compute it, that reaches [minScore]
    (the double 0.9 by default); an absent list of candidates is an empty
    one. *)
Theorem findBestMatch_none (n : jsstring)
    (candidates : option (list CanonicalRow)) (minScore : option Q) :
  findBestMatch n candidates minScore = None
  <-> forall c q, c ∈ default [] candidates -> score_of n c = Num q ->
        ~ ((0 < q)%Q /\ (default (double (9 # 10)) minScore <= q)%Q).
Proof.
  unfold findBestMatch. pose proof (bestOf_first n (default [] candidates)) as H.
  destruct (bestOf n (default [] candidates)) as [bm bs]. unfold first_best in H.
  cbn [fst snd] in H. split.
  - intros Hn c q Hin Hc [Hpos Hmin].
    destruct bm as [e|].
    + destruct H as (pre & post & E & Hs & Hp & Hpre & Hpost).
      destruct (Qle_bool (default (double (9 # 10)) minScore) bs) eqn:Eq; [discriminate|].
      assert (Hq : (q <= bs)%Q).
      { rewrite E in Hin. apply elem_of_app in Hin. destruct Hin as [Hin|Hin].
        - specialize (Hpre c q Hin Hc). lra.
        - apply elem_of_cons in Hin. destruct Hin as [->|Hin].
          + rewrite Hs in Hc. injection Hc as <-. lra.
          + exact (Hpost c q Hin Hc). }
      assert (Hb : Qle_bool (default (double (9 # 10)) minScore) bs = true).
      { apply Qle_bool_iff. lra. }
      congruence.
    + destruct H as [-> Hall]. specialize (Hall c q Hin Hc). lra.
  - intros Hno. destruct bm as [e|]; [|destruct (Qle_bool _ _); reflexivity].
    destruct H as (pre & post & E & Hs & Hp & Hpre & Hpost).
    destruct (Qle_bool (default (double (9 # 10)) minScore) bs) eqn:Eq; [|reflexivity].
    apply Qle_bool_iff in Eq. exfalso. apply (Hno e bs).
    + rewrite E. apply elem_of_app. right. left.
    + exact Hs.
    + split; assumption.
Qed.

(** X6 at [abcde] against [axxxx] with [minScore] 0.2: the score,
    [1 - 4 / 5] on doubles, is below 0.2 and the answer is null. *)
Lemma findBestMatch_none_witness :
  score_of (js "abcde") axxxx_entry = Num (score_at 4 5)
  /\ (score_at 4 5 < 2 # 10)%Q
  /\ findBestMatch (js "abcde") (Some [axxxx_entry]) (Some (double (2 # 10))) = None.
Proof.
  assert (E : score_of (js "abcde") axxxx_entry = Num (score_at 4 5))
    by (vm_compute; reflexivity).
  split; [exact E|]. split; [vm_compute; reflexivity|].
  apply findBestMatch_none. intros c q Hin Hc [_ Hmin].
  apply list_elem_of_singleton in Hin. subst c.
  rewrite E in Hc. apply Num_inj in Hc. subst q.
  apply Qle_bool_iff in Hmin. vm_compute in Hmin. discriminate Hmin.
Defined.


(** *** resolveCanonical: what a call does to the store *)

Lemma insert_mapping_keeps (f : Faults) (t : Tables) (row : MappingRow)
    (k : jsstring) (r : MappingRow) :
  mappings t !! k = Some r ->
  mappings (snd (insert_mapping f t row)) !! k = Some r.
Proof.
  intros H. unfold insert_mapping. destruct (insert_mapping_fails f); [exact H|].
  destruct (mappings t !! normalized_raw_name row) eqn:E; [exact H|]. simpl.
  rewrite lookup_insert_ne; [exact H|]. intros <-. congruence.
Qed.

Lemma insert_mapping_new (f : Faults) (t : Tables) (row : MappingRow)
    (k : jsstring) (r : MappingRow) :
  mappings (snd (insert_mapping f t row)) !! k = Some r ->
  mappings t !! k = Some r \/ (k = normalized_raw_name row /\ r = row).
Proof.
  unfold insert_mapping. destruct (insert_mapping_fails f); [left; assumption|].
  destruct (mappings t !! normalized_raw_name row) eqn:E; [left; assumption|]. simpl.
  destruct (decide (normalized_raw_name row = k)) as [<-|Hne].
  - rewrite lookup_insert_eq. intros [= <-]. right. split; reflexivity.
  - rewrite lookup_insert_ne by exact Hne. left. assumption.
Qed.

Lemma insert_canonical_cases (f : Faults) (t : Tables) (name : jsstring)
    (normalized : option jsstring) :
  (exists e, insert_canonical f t name normalized = (inr e, t)
     /\ ((e = unavailable /\ insert_canonical_fails f = true)
         \/ (e = not_null_violation /\ normalized = None)
         \/ (e = unique_violation
             /\ exists n c, normalized = Some n /\ (c ∈ canonicals t)
                            /\ normalized_name c = n)))
  \/ (exists n, normalized = Some n
        /\ (n ∉ normalized_name <$> canonicals t)
        /\ insert_canonical f t name normalized
           = (inl {| id := next_id t; canonical_name := name; normalized_name := n |},
              {| mappings := mappings t;
                 canonicals := canonicals t
                   ++ [ {| id := next_id t; canonical_name := name;
                           normalized_name := n |} ];
                 next_id := S (next_id t) |})).
Proof.
  unfold insert_canonical. destruct (insert_canonical_fails f) eqn:Ef.
  - left. exists unavailable. split; [reflexivity|]. left. split; reflexivity.
  - destruct normalized as [n|].
    + destruct (bool_decide (n ∈ normalized_name <$> canonicals t)) eqn:Eb.
      * left. exists unique_violation. split; [reflexivity|]. right. right.
        split; [reflexivity|]. apply bool_decide_eq_true in Eb.
        apply list_elem_of_fmap in Eb. destruct Eb as (c & -> & Hc).
        exists (normalized_name c), c. repeat split; assumption || reflexivity.
      * right. exists n. apply bool_decide_eq_false in Eb.
        split; [reflexivity|]. split; [exact Eb|reflexivity].
    + left. exists not_null_violation. split; [reflexivity|]. right. left.
      split; reflexivity.
Qed.

Section ResolverMore.
Context {prims : StringPrims}.

(** The four ways a call on a non-empty name ends. *)
Lemma resolve_cases (f : Faults) (st : Store) (raw : jsstring)
    (ty : EntityType) (th : option Q) :
  raw <> [] ->
  let n := normalizeChain raw in
  let t := tables_of st ty in
  let name := canonicalNameOf ty raw n in
  let r := resolveCanonical f st (Some raw) ty th in
  (exists i, select_mapping f t n = Some i /\ r = (Returned (Some i), st))
  \/ (select_mapping f t n = None
      /\ exists best score,
           bestOf n (entriesOf f st ty) = (Some best, score)
           /\ Qle_bool (thresholdOf ty th) score = true
           /\ r = (Returned (Some (id best)),
                   set_tables st ty
                     (snd (insert_mapping f t (fuzzyRow raw n best score)))))
  \/ (select_mapping f t n = None
      /\ fuzzyAccepted f st raw ty th = false
      /\ exists e, insert_canonical f t name (normalizeText name) = (inr e, t)
                   /\ r = (Thrown e, st))
  \/ (select_mapping f t n = None
      /\ fuzzyAccepted f st raw ty th = false
      /\ exists new t1,
           insert_canonical f t name (normalizeText name) = (inl new, t1)
           /\ r = (Returned (Some (id new)),
                   set_tables st ty
                     (snd (insert_mapping f t1 (createdRow raw n new))))).
Proof.
  intros Hraw n t name r.
  destruct (select_mapping f t n) as [i|] eqn:Es.
  - left. exists i. split; [reflexivity|]. subst r. unfold resolveCanonical.
    destruct raw as [|c raw']; [congruence|]. fold n t. rewrite Es. reflexivity.
  - right. destruct (fuzzyAccepted f st raw ty th) eqn:Ea.
    + left. split; [reflexivity|]. unfold fuzzyAccepted in Ea. fold n in Ea.
      destruct (bestOf n (entriesOf f st ty)) as [[best|] score] eqn:Eb; [|discriminate].
      exists best, score. split; [reflexivity|]. split; [exact Ea|].
      subst r. apply resolve_fuzzy; assumption.
    + right. subst r. rewrite (resolve_create f st raw ty th Hraw Es Ea).
      pose proof (createCanonical_cases f st ty raw n) as Hc. cbv zeta in Hc.
      fold t name in Hc.
      destruct (insert_canonical_cases f t name (normalizeText name))
        as [(e & Ei & _)|(m & Em & _ & Ei)].
      * left. split; [reflexivity|]. split; [reflexivity|]. exists e.
        rewrite Ei in Hc. split; [exact Ei|exact Hc].
      * right. split; [reflexivity|]. split; [reflexivity|].
        rewrite Ei in Hc. eexists _, _. split; [exact Ei|exact Hc].
Qed.


Lemma entriesOf_sub (f : Faults) (st : Store) (ty : EntityType) (c : CanonicalRow) :
  c ∈ entriesOf f st ty -> c ∈ canonicals (tables_of st ty).
Proof.
  unfold entriesOf, select_canonicals. destruct (scan_fails f); simpl; [|tauto].
  intros H. inversion H.
Qed.

Lemma best_in_canonicals (f : Faults) (st : Store) (ty : EntityType)
    (n : jsstring) (best : CanonicalRow) (score : Q) :
  bestOf n (entriesOf f st ty) = (Some best, score) ->
  best ∈ canonicals (tables_of st ty).
Proof.
  intros Hb. pose proof (bestOf_inv n (entriesOf f st ty)) as (_ & _ & H).
  rewrite Hb in H. cbn [fst snd] in H. destruct H as (Hin & _).
  eapply entriesOf_sub, Hin.
Qed.

(** What one call changes: only the tables of its entity type, and there
    it appends at most one canonical row and at most one mapping row. *)
Lemma resolve_step (f : Faults) (st : Store) (rawName : option jsstring)
    (ty : EntityType) (th : option Q) :
  let r := resolveCanonical f st rawName ty th in
  (forall ty', ty' <> ty -> tables_of (snd r) ty' = tables_of st ty')
  /\ (exists new,
        canonicals (tables_of (snd r) ty) = canonicals (tables_of st ty) ++ new
        /\ (length new <= 1)%nat
        /\ (forall c, c ∈ new -> fst r = Returned (Some (id c))))
  /\ (forall k row, mappings (tables_of st ty) !! k = Some row ->
        mappings (tables_of (snd r) ty) !! k = Some row)
  /\ (forall k row, mappings (tables_of (snd r) ty) !! k = Some row ->
        mappings (tables_of st ty) !! k = Some row
        \/ exists raw, rawName = Some raw /\ k = normalizeChain raw
             /\ raw_name row = raw /\ normalized_raw_name row = k
             /\ fst r = Returned (Some (canonical_id row))).
Proof.
  intros r.
  assert (Hsame : snd r = st ->
    (forall ty', ty' <> ty -> tables_of (snd r) ty' = tables_of st ty')
    /\ (exists new,
          canonicals (tables_of (snd r) ty) = canonicals (tables_of st ty) ++ new
          /\ (length new <= 1)%nat
          /\ (forall c, c ∈ new -> fst r = Returned (Some (id c))))
    /\ (forall k row, mappings (tables_of st ty) !! k = Some row ->
          mappings (tables_of (snd r) ty) !! k = Some row)
    /\ (forall k row, mappings (tables_of (snd r) ty) !! k = Some row ->
          mappings (tables_of st ty) !! k = Some row
          \/ exists raw, rawName = Some raw /\ k = normalizeChain raw
               /\ raw_name row = raw /\ normalized_raw_name row = k
               /\ fst r = Returned (Some (canonical_id row)))).
  { intros ->. split; [reflexivity|]. split.
    - exists []. rewrite app_nil_r. split; [reflexivity|]. split; [simpl; lia|].
      intros c Hc. inversion Hc.
    - split; [tauto|]. intros k row H. left. exact H. }
  destruct rawName as [raw|]; [|apply Hsame; reflexivity].
  destruct (decide (raw = [])) as [->|Hraw]; [apply Hsame; reflexivity|].
  destruct (resolve_cases f st raw ty th Hraw)
    as [(i & _ & Hr)|[(_ & best & score & _ & _ & Hr)
       |[(_ & _ & e & _ & Hr)|(_ & _ & new & t1 & Hi & Hr)]]];
    fold r in Hr.
  - apply Hsame. rewrite Hr. reflexivity.
  - rewrite Hr. cbn [fst snd]. split.
    { intros ty' Hne. apply tables_of_set_other. congruence. }
    rewrite tables_of_set_same. split.
    { exists []. rewrite app_nil_r, insert_mapping_canonicals.
      split; [reflexivity|]. split; [simpl; lia|]. intros c Hc. inversion Hc. }
    split.
    { intros k row. apply insert_mapping_keeps. }
    intros k row H. apply insert_mapping_new in H. destruct H as [H|[-> ->]].
    + left. exact H.
    + right. exists raw. repeat split; reflexivity.
  - apply Hsame. rewrite Hr. reflexivity.
  - rewrite Hr. cbn [fst snd]. split.
    { intros ty' Hne. apply tables_of_set_other. congruence. }
    rewrite tables_of_set_same.
    destruct (insert_canonical_cases f (tables_of st ty)
                (canonicalNameOf ty raw (normalizeChain raw))
                (normalizeText (canonicalNameOf ty raw (normalizeChain raw))))
      as [(e & Ei & _)|(m & _ & _ & Ei)]; rewrite Ei in Hi; [discriminate|].
    injection Hi as <- <-. split.
    { eexists [_]. rewrite insert_mapping_canonicals. cbn [canonicals].
      split; [reflexivity|]. split; [simpl; lia|]. intros c Hc.
      apply list_elem_of_singleton in Hc. subst c. reflexivity. }
    split.
    { intros k row H. apply insert_mapping_keeps. exact H. }
    intros k row H. apply insert_mapping_new in H. destruct H as [H|[-> ->]].
    + left. exact H.
    + right. exists raw. repeat split; reflexivity.
Qed.

(** X7: whatever the store answers, a call of [resolveCanonical]
    leaves the tables of the other entity type as they are, adds at most
    one canonical row (the one whose id it returns) after the existing ones,
    keeps every mapping row, and adds at most one mapping row, keyed by the
    normalized raw name and pointing to the id it returns. *)
Theorem resolve_only_appends (f : Faults) (st : Store) (rawName : option jsstring)
    (ty : EntityType) (th : option Q) :
  let r := resolveCanonical f st rawName ty th in
  (forall ty', ty' <> ty -> tables_of (snd r) ty' = tables_of st ty')
  /\ (exists new,
        canonicals (tables_of (snd r) ty) = canonicals (tables_of st ty) ++ new
        /\ (length new <= 1)%nat
        /\ (forall c, c ∈ new -> fst r = Returned (Some (id c))))
  /\ (forall k row, mappings (tables_of st ty) !! k = Some row ->
        mappings (tables_of (snd r) ty) !! k = Some row)
  /\ (forall k row, mappings (tables_of (snd r) ty) !! k = Some row ->
        mappings (tables_of st ty) !! k = Some row
        \/ exists raw, rawName = Some raw /\ k = normalizeChain raw
             /\ raw_name row = raw /\ normalized_raw_name row = k
             /\ fst r = Returned (Some (canonical_id row))).
Proof.
  intros r.
  destruct (resolve_step f st rawName ty th) as (Hframe & Hnew & Hkeep & Hadded).
  split; [exact Hframe|]. split; [exact Hnew|]. split; [exact Hkeep|exact Hadded].
Qed.

Lemma resolve_none_or_nonempty (f : Faults) (st : Store) (rawName : option jsstring)
    (ty : EntityType) (th : option Q) :
  resolveCanonical f st rawName ty th = (Returned None, st)
  \/ exists raw, rawName = Some raw /\ raw <> [].
Proof.
  destruct rawName as [[|c raw]|]; [left; reflexivity| |left; reflexivity].
  right. eexists. split; [reflexivity|discriminate].
Qed.

(** X8: when [resolveCanonical] throws, it has written nothing; the
    error is the one of the insert of the canonical row, reached with no
    mapping found and no fuzzy match taken: the store failed, or the name of
    the new entry is empty (its normalized name is null), or a canonical row
    with that normalized name exists already. *)
Theorem resolve_throw_atomic (f : Faults) (st : Store) (rawName : option jsstring)
    (ty : EntityType) (th : option Q) (e : StoreError) :
  fst (resolveCanonical f st rawName ty th) = Thrown e ->
  snd (resolveCanonical f st rawName ty th) = st
  /\ exists raw, rawName = Some raw
       /\ select_mapping f (tables_of st ty) (normalizeChain raw) = None
       /\ fuzzyAccepted f st raw ty th = false
       /\ ((e = unavailable /\ insert_canonical_fails f = true)
           \/ (e = not_null_violation
               /\ canonicalNameOf ty raw (normalizeChain raw) = [])
           \/ (e = unique_violation
               /\ exists c, (c ∈ canonicals (tables_of st ty))
                    /\ normalized_name c
                       = normalizeChain (canonicalNameOf ty raw (normalizeChain raw)))).
Proof.
  intros Ht.
  destruct (resolve_none_or_nonempty f st rawName ty th) as [Hr|(raw & -> & Hraw)].
  { rewrite Hr in Ht. discriminate. }
  destruct (resolve_cases f st raw ty th Hraw)
    as [(i & _ & Hr)|[(_ & best & score & _ & _ & Hr)
       |[(Hs & Ha & e' & Hi & Hr)|(_ & _ & new & t1 & Hi & Hr)]]];
    rewrite Hr in Ht |- *; try discriminate.
  injection Ht as ->. split; [reflexivity|]. exists raw.
  split; [reflexivity|]. split; [exact Hs|]. split; [exact Ha|].
  destruct (insert_canonical_cases f (tables_of st ty)
              (canonicalNameOf ty raw (normalizeChain raw))
              (normalizeText (canonicalNameOf ty raw (normalizeChain raw))))
    as [(e' & Ei & Hc)|(m & _ & _ & Ei)]; rewrite Ei in Hi; [|discriminate].
  injection Hi as ->.
  destruct Hc as [Hc|[[-> Hn]|(-> & m & c & Hn & Hin & Hc)]].
  - left. exact Hc.
  - right. left. split; [reflexivity|]. unfold normalizeText in Hn.
    destruct (canonicalNameOf ty raw (normalizeChain raw)); [reflexivity|discriminate].
  - right. right. split; [reflexivity|]. exists c. split; [exact Hin|].
    unfold normalizeText in Hn.
    destruct (canonicalNameOf ty raw (normalizeChain raw)); [discriminate|].
    injection Hn as <-. exact Hc.
Qed.

Lemma resolve_refs (f : Faults) (st : Store)
    (rawName : option jsstring) (ty : EntityType) (th : option Q) :
  refs_ok (tables_of st ty) ->
  let r := resolveCanonical f st rawName ty th in
  refs_ok (tables_of (snd r) ty)
  /\ forall i, fst r = Returned (Some i) ->
       i ∈ id <$> canonicals (tables_of (snd r) ty).
Proof.
  intros Hok r.
  destruct (resolve_none_or_nonempty f st rawName ty th) as [Hr|(raw & -> & Hraw)].
  { subst r. rewrite Hr. split; [exact Hok|]. intros i [=]. }
  destruct (resolve_cases f st raw ty th Hraw)
    as [(i & Hs & Hr)|[(_ & best & score & Hb & _ & Hr)
       |[(_ & _ & e & _ & Hr)|(_ & _ & new & t1 & Hi & Hr)]]];
    fold r in Hr; rewrite Hr; cbn [fst snd].
  - split; [exact Hok|]. intros i' [= <-].
    unfold select_mapping in Hs. destruct (lookup_fails f); [discriminate|].
    destruct (mappings (tables_of st ty) !! normalizeChain raw) as [row|] eqn:El;
      [|discriminate].
    injection Hs as <-. eapply Hok, El.
  - rewrite tables_of_set_same.
    assert (Hin : id best ∈ id <$> canonicals (tables_of st ty)).
    { apply list_elem_of_fmap. exists best. split; [reflexivity|].
      eapply best_in_canonicals, Hb. }
    split.
    + intros k row H. rewrite insert_mapping_canonicals.
      apply insert_mapping_new in H. destruct H as [H|[_ ->]]; [eapply Hok, H|exact Hin].
    + intros i [= <-]. rewrite insert_mapping_canonicals. exact Hin.
  - split; [exact Hok|]. intros i [=].
  - rewrite tables_of_set_same.
    destruct (insert_canonical_cases f (tables_of st ty)
                (canonicalNameOf ty raw (normalizeChain raw))
                (normalizeText (canonicalNameOf ty raw (normalizeChain raw))))
      as [(e & Ei & _)|(m & _ & _ & Ei)]; rewrite Ei in Hi; [discriminate|].
    injection Hi as <- <-.
    assert (Hin : forall j, j ∈ id <$> canonicals (tables_of st ty) \/ j = next_id (tables_of st ty) ->
              j ∈ id <$> canonicals (snd (insert_mapping f
                {| mappings := mappings (tables_of st ty);
                   canonicals := canonicals (tables_of st ty)
                     ++ [ {| id := next_id (tables_of st ty);
                             canonical_name := canonicalNameOf ty raw (normalizeChain raw);
                             normalized_name := m |} ];
                   next_id := S (next_id (tables_of st ty)) |}
                (createdRow raw (normalizeChain raw)
                   {| id := next_id (tables_of st ty);
                      canonical_name := canonicalNameOf ty raw (normalizeChain raw);
                      normalized_name := m |})))).
    { intros j Hj. rewrite insert_mapping_canonicals. cbn [canonicals].
      rewrite fmap_app. apply elem_of_app. destruct Hj as [Hj| ->].
      - left. exact Hj.
      - right. simpl. left. }
    split.
    + intros k row H. apply insert_mapping_new in H. destruct H as [H|[_ ->]].
      * apply Hin. left. eapply Hok. exact H.
      * apply Hin. right. reflexivity.
    + intros i [= <-]. apply Hin. right. reflexivity.
Qed.

(** X9: if every mapping row points to a canonical row, this still
    holds after a call of [resolveCanonical], and the id the call returns is
    the id of a canonical row of the store, whatever the store answers. *)
Theorem resolve_returns_canonical_row (f : Faults) (st : Store)
    (rawName : option jsstring) (ty : EntityType) (th : option Q) :
  refs_ok (tables_of st ty) ->
  let r := resolveCanonical f st rawName ty th in
  refs_ok (tables_of (snd r) ty)
  /\ forall i, fst r = Returned (Some i) ->
       i ∈ id <$> canonicals (tables_of (snd r) ty).
Proof.
  intros Hok r. destruct (resolve_refs f st rawName ty th Hok) as [Hkept Hid].
  split; [exact Hkept|exact Hid].
Qed.

(** The scan finds nothing for the empty string. *)
Lemma bestOf_empty (entries : list CanonicalRow) :
  bestOf [] entries = (None, 0%Q).
Proof.
  unfold bestOf. induction entries as [|e entries IH]; [reflexivity|].
  simpl. replace (bestStep [] (None, 0%Q) e) with (@None CanonicalRow, 0%Q); [exact IH|].
  unfold bestStep, similarity. simpl levenshtein. simpl length.
  destruct (length (normalized_name e)) as [|m] eqn:El; [reflexivity|].
  cbn [Nat.max snd].
  unfold Qlt_bool. rewrite (proj2 (Qle_bool_iff _ _)); [reflexivity|].
  rewrite score_at_full by lia. apply Qle_refl.
Qed.

(** X10: a category whose name is not empty but normalizes to the
    empty string (digits, punctuation) and has no mapping cannot be
    resolved: the scan takes no entry, the capitalized name is empty, its
    normalized name is null and the insert fails; the call throws and writes
    nothing. *)
Theorem category_without_words_throws (f : Faults) (st : Store) (raw : jsstring)
    (th : option Q) :
  raw <> [] ->
  normalizeChain raw = [] ->
  select_mapping f (tables_of st category) [] = None ->
  exists e,
    resolveCanonical f st (Some raw) category th = (Thrown e, st)
    /\ e = (if insert_canonical_fails f then unavailable else not_null_violation).
Proof.
  intros Hraw Hn Hs. unfold resolveCanonical.
  destruct raw as [|c raw']; [congruence|]. rewrite Hn, Hs, bestOf_empty.
  unfold createCanonical, canonicalNameOf, insert_canonical. simpl.
  destruct (insert_canonical_fails f); eexists; split; reflexivity.
Qed.


Lemma similarity_le_one (a b : jsstring) (q : Q) :
  similarity a b = Num q -> (q <= 1)%Q.
Proof.
  intros H. destruct (similarity_value a b q H) as [Hm ->].
  unfold similarity_formula.
  apply score_at_range; [exact Hm|apply levenshtein_le_max].
Qed.

Lemma similarity_self (a : jsstring) :
  a <> [] -> exists q, similarity a a = Num q /\ (q == 1)%Q.
Proof.
  intros Ha. unfold similarity. rewrite Nat.max_id.
  destruct (length a) eqn:El; [destruct a; [congruence|discriminate]|].
  eexists. split; [reflexivity|]. rewrite levenshtein_same.
  apply score_at_zero. lia.
Qed.

(** X11: when no mapping is found, the scan answers, and a canonical
    row has the very normalized name of the raw name (not empty), with a
    threshold of at most 1, the call returns the id of the first such row,
    creates no canonical row, and records a fuzzy mapping of confidence 1
    if the store takes it. *)
Theorem resolve_reuses_equal_name (f : Faults) (st : Store) (raw : jsstring)
    (ty : EntityType) (th : option Q) :
  raw <> [] ->
  normalizeChain raw <> [] ->
  select_mapping f (tables_of st ty) (normalizeChain raw) = None ->
  scan_fails f = false ->
  (thresholdOf ty th <= 1)%Q ->
  (exists c, (c ∈ canonicals (tables_of st ty))
             /\ normalized_name c = normalizeChain raw) ->
  let r := resolveCanonical f st (Some raw) ty th in
  exists pre e post,
    canonicals (tables_of st ty) = pre ++ e :: post
    /\ normalized_name e = normalizeChain raw
    /\ (forall c, c ∈ pre -> normalized_name c <> normalizeChain raw)
    /\ fst r = Returned (Some (id e))
    /\ canonicals (tables_of (snd r) ty) = canonicals (tables_of st ty)
    /\ (mappings (tables_of st ty) !! normalizeChain raw = None ->
        insert_mapping_fails f = false ->
        exists row, mappings (tables_of (snd r) ty) !! normalizeChain raw = Some row
          /\ raw_name row = raw /\ canonical_id row = id e
          /\ mapping_method row = "fuzzy" /\ (confidence row == 1)%Q).
Proof.
  intros Hraw Hn Hs Hscan Hth (c & Hc & Hcn) r.
  set (n := normalizeChain raw) in *.
  assert (He : entriesOf f st ty = canonicals (tables_of st ty)).
  { unfold entriesOf, select_canonicals. rewrite Hscan. reflexivity. }
  pose proof (bestOf_first n (entriesOf f st ty)) as Hb.
  destruct (similarity_self n Hn) as (q1 & Hq1 & Hq1').
  assert (Hsc : score_of n c = Num q1) by (unfold score_of; rewrite Hcn; exact Hq1).
  destruct (bestOf n (entriesOf f st ty)) as [[e|] bs] eqn:Eb;
    unfold first_best in Hb; cbn [fst snd] in Hb.
  2:{ destruct Hb as [_ Hall]. rewrite He in Hall. specialize (Hall c q1 Hc Hsc). lra. }
  destruct Hb as (pre & post & Hsplit & Hse & Hpos & Hpre & Hpost).
  rewrite He in Hsplit.
  assert (Hbs1 : (bs <= 1)%Q) by (eapply similarity_le_one; exact Hse).
  assert (Hbs : (bs == 1)%Q).
  { apply Qle_antisym; [exact Hbs1|].
    rewrite Hsplit in Hc. apply elem_of_app in Hc. destruct Hc as [Hc|Hc].
    - specialize (Hpre c q1 Hc Hsc). lra.
    - apply elem_of_cons in Hc. destruct Hc as [->|Hc].
      + rewrite Hse in Hsc. injection Hsc as ->. lra.
      + specialize (Hpost c q1 Hc Hsc). lra. }
  assert (Hen : normalized_name e = n).
  { symmetry. apply (similarity_one_eq n (normalized_name e) bs Hse), Hbs. }
  assert (Hle : Qle_bool (thresholdOf ty th) bs = true).
  { apply Qle_bool_iff. lra. }
  assert (Hr : r = (Returned (Some (id e)),
                    set_tables st ty
                      (snd (insert_mapping f (tables_of st ty)
                              (fuzzyRow raw n e bs))))).
  { subst r. apply resolve_fuzzy; assumption. }
  exists pre, e, post. split; [exact Hsplit|]. split; [exact Hen|]. split.
  { intros c' Hc' Hc'n.
    assert (Hs' : score_of n c' = Num q1) by (unfold score_of; rewrite Hc'n; exact Hq1).
    specialize (Hpre c' q1 Hc' Hs'). lra. }
  rewrite Hr. cbn [fst snd]. rewrite tables_of_set_same, insert_mapping_canonicals.
  split; [reflexivity|]. split; [reflexivity|].
  intros Hm Hf. exists (fuzzyRow raw n e bs). split.
  - apply insert_mapping_stored; [exact Hf|reflexivity|exact Hm].
  - split; [reflexivity|]. split; [reflexivity|]. split; [reflexivity|exact Hbs].
Qed.


Lemma resolveEach_keeps (calls : list Call) (st : Store) (ty : EntityType)
    (k : jsstring) (row : MappingRow) :
  mappings (tables_of st ty) !! k = Some row ->
  mappings (tables_of (resolveEach calls st) ty) !! k = Some row.
Proof.
  revert st. induction calls as [|c calls IH]; intros st H; [exact H|].
  unfold resolveEach. simpl. apply IH.
  destruct (resolve_step (call_faults c) st (call_name c) (call_type c)
              (call_threshold c)) as (Hframe & _ & Hkeep & _).
  destruct (decide (ty = call_type c)) as [->|Hne].
  - apply Hkeep, H.
  - rewrite Hframe by exact Hne. exact H.
Qed.

Lemma resolve_lookup (f : Faults) (st : Store) (raw : jsstring) (ty : EntityType)
    (th : option Q) (i : nat) :
  raw <> [] ->
  lookup_fails f = false ->
  canonical_id <$> (mappings (tables_of st ty) !! normalizeChain raw) = Some i ->
  resolveCanonical f st (Some raw) ty th = (Returned (Some i), st).
Proof.
  intros Hraw Hf Hm. unfold resolveCanonical. destruct raw as [|c raw']; [congruence|].
  unfold select_mapping. rewrite Hf, Hm. reflexivity.
Qed.

(** X12: once a normalized name has a mapping, every later call for a
    raw name with that normalized form returns the mapped id and writes
    nothing, whatever was resolved in between with whatever thresholds and
    failures of the store, as long as the lookup of that call answers. *)
Theorem resolve_stable (calls : list Call) (st : Store) (f : Faults)
    (raw : jsstring) (ty : EntityType) (th : option Q) (i : nat) :
  raw <> [] ->
  lookup_fails f = false ->
  canonical_id <$> (mappings (tables_of st ty) !! normalizeChain raw) = Some i ->
  resolveCanonical f (resolveEach calls st) (Some raw) ty th
  = (Returned (Some i), resolveEach calls st).
Proof.
  intros Hraw Hf Hm. apply resolve_lookup; [exact Hraw|exact Hf|].
  destruct (mappings (tables_of st ty) !! normalizeChain raw) as [row|] eqn:E;
    [|discriminate].
  rewrite (resolveEach_keeps calls st ty _ row E). exact Hm.
Qed.

Lemma resolve_records (f : Faults) (st : Store) (raw : jsstring) (ty : EntityType)
    (th : option Q) (i : nat) :
  raw <> [] ->
  lookup_fails f = false ->
  insert_mapping_fails f = false ->
  fst (resolveCanonical f st (Some raw) ty th) = Returned (Some i) ->
  canonical_id <$>
    (mappings (tables_of (snd (resolveCanonical f st (Some raw) ty th)) ty)
       !! normalizeChain raw) = Some i.
Proof.
  intros Hraw Hl Hf Hr.
  assert (Hnone : select_mapping f (tables_of st ty) (normalizeChain raw) = None ->
                  mappings (tables_of st ty) !! normalizeChain raw = None).
  { unfold select_mapping. rewrite Hl.
    destruct (mappings (tables_of st ty) !! normalizeChain raw); [discriminate|reflexivity]. }
  destruct (resolve_cases f st raw ty th Hraw)
    as [(j & Hs & E)|[(Hs & best & score & _ & _ & E)
       |[(_ & _ & e & _ & E)|(Hs & _ & new & t1 & Hi & E)]]];
    rewrite E in Hr |- *; cbn [fst snd] in Hr |- *; try discriminate.
  - injection Hr as <-. unfold select_mapping in Hs. rewrite Hl in Hs. exact Hs.
  - injection Hr as <-. rewrite tables_of_set_same.
    rewrite (insert_mapping_stored f (tables_of st ty)
               (fuzzyRow raw (normalizeChain raw) best score) (normalizeChain raw)
               Hf eq_refl (Hnone Hs)). reflexivity.
  - injection Hr as <-. rewrite tables_of_set_same.
    assert (Hm1 : mappings t1 !! normalizeChain raw = None).
    { pose proof (insert_canonical_mappings f (tables_of st ty)
                    (canonicalNameOf ty raw (normalizeChain raw))
                    (normalizeText (canonicalNameOf ty raw (normalizeChain raw)))) as Hm.
      rewrite Hi in Hm. simpl in Hm. rewrite Hm. exact (Hnone Hs). }
    rewrite (insert_mapping_stored f t1 (createdRow raw (normalizeChain raw) new)
               (normalizeChain raw) Hf eq_refl Hm1).
    reflexivity.
Qed.

(** X13: two raw names with the same normalized form get the same
    canonical id: if a first call returns an id on a store that answers
    the lookup and takes the mapping, a later call for the other name returns
    the same id, whatever is resolved in between. *)
Theorem same_normalization_same_id (calls : list Call) (st : Store)
    (f1 f2 : Faults) (raw1 raw2 : jsstring) (ty : EntityType)
    (th1 th2 : option Q) (i : nat) :
  raw1 <> [] -> raw2 <> [] ->
  normalizeChain raw1 = normalizeChain raw2 ->
  lookup_fails f1 = false -> insert_mapping_fails f1 = false ->
  lookup_fails f2 = false ->
  fst (resolveCanonical f1 st (Some raw1) ty th1) = Returned (Some i) ->
  fst (resolveCanonical f2
         (resolveEach calls (snd (resolveCanonical f1 st (Some raw1) ty th1)))
         (Some raw2) ty th2)
  = Returned (Some i).
Proof.
  intros H1 H2 Hn Hl1 Hf1 Hl2 Hr.
  pose proof (resolve_records f1 st raw1 ty th1 i H1 Hl1 Hf1 Hr) as Hm.
  destruct (mappings (tables_of (snd (resolveCanonical f1 st (Some raw1) ty th1)) ty)
              !! normalizeChain raw1) as [row|] eqn:E; [|discriminate].
  rewrite (resolve_lookup f2 _ raw2 ty th2 i H2 Hl2); [reflexivity|].
  rewrite <- Hn, (resolveEach_keeps calls _ ty _ row E). exact Hm.
Qed.

End ResolverMore.

Lemma category_without_words_throws_witness :
  normalizeChain (prims:=ascii_prims) (js "#12") = []
  /\ exists e,
       resolveCanonical (prims:=ascii_prims) no_faults latte_store
         (Some (js "#12")) category None = (Thrown e, latte_store)
       /\ e = not_null_violation.
Proof.
  split; [reflexivity|].
  apply (category_without_words_throws (prims:=ascii_prims) no_faults latte_store
           (js "#12") None); [discriminate|reflexivity|reflexivity].
Defined.

Lemma resolve_throw_atomic_witness :
  snd (resolveCanonical (prims:=ascii_prims) canonical_write_fails latte_store
         (Some (js "Mocha")) item None) = latte_store
  /\ exists raw, Some (js "Mocha") = Some raw
       /\ select_mapping canonical_write_fails (tables_of latte_store item)
            (normalizeChain (prims:=ascii_prims) raw) = None
       /\ fuzzyAccepted (prims:=ascii_prims) canonical_write_fails latte_store raw item None
          = false
       /\ ((unavailable = unavailable
            /\ insert_canonical_fails canonical_write_fails = true)
           \/ (unavailable = not_null_violation
               /\ canonicalNameOf (prims:=ascii_prims) item raw
                    (normalizeChain (prims:=ascii_prims) raw) = [])
           \/ (unavailable = unique_violation
               /\ exists c, (c ∈ canonicals (tables_of latte_store item))
                    /\ normalized_name c
                       = normalizeChain (prims:=ascii_prims)
                           (canonicalNameOf (prims:=ascii_prims) item raw
                              (normalizeChain (prims:=ascii_prims) raw)))).
Proof.
  exact (resolve_throw_atomic (prims:=ascii_prims) canonical_write_fails latte_store
           (Some (js "Mocha")) item None unavailable eq_refl).
Defined.

Lemma resolve_returns_canonical_row_witness :
  refs_ok (tables_of latte_store item)
  /\ refs_ok (tables_of (snd (resolveCanonical (prims:=ascii_prims) no_faults latte_store
                                (Some (js "Mocha")) item None)) item)
  /\ forall i,
       fst (resolveCanonical (prims:=ascii_prims) no_faults latte_store
              (Some (js "Mocha")) item None) = Returned (Some i) ->
       i ∈ id <$> canonicals (tables_of (snd (resolveCanonical (prims:=ascii_prims)
              no_faults latte_store (Some (js "Mocha")) item None)) item).
Proof.
  assert (H : refs_ok (tables_of latte_store item)).
  { intros k r Hk. simpl in Hk. rewrite lookup_empty in Hk. discriminate. }
  split; [exact H|].
  exact (resolve_returns_canonical_row (prims:=ascii_prims) no_faults latte_store
           (Some (js "Mocha")) item None H).
Defined.



Lemma resolve_reuses_equal_name_witness :
  exists pre e post,
    canonicals (tables_of latte_store item) = pre ++ e :: post
    /\ normalized_name e = normalizeChain (prims:=ascii_prims) (js "LATTE!")
    /\ (forall c, c ∈ pre ->
          normalized_name c <> normalizeChain (prims:=ascii_prims) (js "LATTE!"))
    /\ fst (resolveCanonical (prims:=ascii_prims) no_faults latte_store
              (Some (js "LATTE!")) item None) = Returned (Some (id e))
    /\ canonicals (tables_of (snd (resolveCanonical (prims:=ascii_prims) no_faults
                      latte_store (Some (js "LATTE!")) item None)) item)
       = canonicals (tables_of latte_store item)
    /\ (mappings (tables_of latte_store item)
          !! normalizeChain (prims:=ascii_prims) (js "LATTE!") = None ->
        insert_mapping_fails no_faults = false ->
        exists row,
          mappings (tables_of (snd (resolveCanonical (prims:=ascii_prims) no_faults
                      latte_store (Some (js "LATTE!")) item None)) item)
            !! normalizeChain (prims:=ascii_prims) (js "LATTE!") = Some row
          /\ raw_name row = js "LATTE!" /\ canonical_id row = id e
          /\ mapping_method row = "fuzzy" /\ (confidence row == 1)%Q).
Proof.
  apply (resolve_reuses_equal_name (prims:=ascii_prims) no_faults latte_store
           (js "LATTE!") item None).
  - discriminate.
  - discriminate.
  - reflexivity.
  - reflexivity.
  - apply Qle_bool_iff. vm_compute. reflexivity.
  - eexists. split; [left|reflexivity].
Defined.

Lemma resolve_stable_witness :
  resolveCanonical (prims:=ascii_prims) mapping_write_fails
    (resolveEach (prims:=ascii_prims) later_calls matte_store)
    (Some (js "Matte (2)")) item None
  = (Returned (Some 1%nat), resolveEach (prims:=ascii_prims) later_calls matte_store).
Proof.
  apply (resolve_stable (prims:=ascii_prims) later_calls matte_store mapping_write_fails
           (js "Matte (2)") item None 1%nat).
  - discriminate.
  - reflexivity.
  - vm_compute. reflexivity.
Defined.

Lemma same_normalization_same_id_witness :
  fst (resolveCanonical (prims:=ascii_prims) no_faults
         (resolveEach (prims:=ascii_prims) later_calls
            (snd (resolveCanonical (prims:=ascii_prims) no_faults latte_store
                    (Some (js "Iced Tea")) item None)))
         (Some (js "ICED  Tea! 2 pcs")) item None)
  = Returned (Some 2%nat).
Proof.
  apply (same_normalization_same_id (prims:=ascii_prims) later_calls latte_store
           no_faults no_faults (js "Iced Tea") (js "ICED  Tea! 2 pcs") item None None 2%nat).
  - discriminate.
  - discriminate.
  - vm_compute. reflexivity.
  - reflexivity.
  - reflexivity.
  - reflexivity.
  - vm_compute. reflexivity.
Defined.

End NormalizerFacts.

(** ** Part VI: properties of the interpreter route and the order parsers *)

Module IngestFacts.
Import Normalizer NormalizerFacts Ingest.
Local Open Scope N_scope.

(** *** The markdown wrapper *)

Lemma fence_open_later (c : N) (s : jsstring) :
  replace_first re_fence_open [] (Some c) s = s.
Proof.
  revert c. induction s as [|x s IH]; intros c; [reflexivity|].
  simpl. rewrite IH. reflexivity.
Qed.

Lemma fence_close_keeps (a tail : jsstring) (x : N) (prev : option N) :
  x <> 10 -> x <> 96 ->
  tail = backticks \/ tail = 10 :: backticks ->
  replace_first re_fence_close [] prev (a ++ x :: tail) = a ++ [x].
Proof.
  intros Hx Hx' Ht. revert prev. induction a as [|c a IH]; intros prev.
  - simpl. unfold re_fence_close at 1.
    rewrite bool_decide_eq_false_2.
    2:{ intros H. injection H as H _. congruence. }
    rewrite bool_decide_eq_false_2.
    2:{ intros H. change backticks with [96; 96; 96] in H. injection H as H _.
        congruence. }
    f_equal. destruct Ht as [-> | ->]; reflexivity.
  - simpl. unfold re_fence_close at 1.
    rewrite bool_decide_eq_false_2.
    2:{ intros H. apply (f_equal length) in H. simpl in H.
        rewrite length_app in H. simpl in H.
        destruct Ht as [-> | ->]; simpl in H; lia. }
    rewrite bool_decide_eq_false_2.
    2:{ intros H. apply (f_equal length) in H. simpl in H.
        rewrite length_app in H. simpl in H.
        destruct Ht as [-> | ->]; simpl in H; lia. }
    rewrite IH. reflexivity.
Qed.

Lemma replace_first_match (re : matcher) (repl : jsstring) (prev : option N)
    (s : jsstring) (k : nat) :
  re prev s = Some (S k) -> s <> [] ->
  replace_first re repl prev s = repl ++ drop (S k) s.
Proof.
  intros H Hs. destruct s as [|c r]; [congruence|]. simpl. rewrite H. reflexivity.
Qed.

Lemma fence_open_length (json nl1 : bool) (c : N) (rest : jsstring) :
  c <> 106 -> c <> 10 ->
  re_fence_open None
    (backticks ++ (if json then js "json" else []) ++ (if nl1 then [10] else [])
       ++ c :: rest)
  = Some (S (2 + (if json then 4 else 0) + (if nl1 then 1 else 0)))%nat.
Proof.
  intros Hj Hn. change backticks with [96; 96; 96].
  change (js "json") with [106; 115; 111; 110].
  unfold re_fence_open. change backticks with [96; 96; 96].
  change (js "json") with [106; 115; 111; 110].
  destruct json, nl1; simpl app; simpl take; simpl drop;
    repeat case_bool_decide; simpl drop in *; simpl take in *;
    try reflexivity; try congruence.
Qed.

(** X18: an answer wrapped in three backquotes, with or without the
    word json and the two line breaks, is unwrapped to its body, for a body
    that neither starts with [j] or a line break nor ends with a line break
    or a backquote (a JSON object does not). *)
Theorem stripFence_fenced (json nl1 nl2 : bool) (c x : N) (mid : jsstring) :
  c <> 106 -> c <> 10 -> x <> 10 -> x <> 96 ->
  stripFence (fenced json nl1 nl2 (c :: mid ++ [x])) = c :: mid ++ [x].
Proof.
  intros Hj Hn Hx Hx'. unfold stripFence, fenced.
  rewrite <- (app_comm_cons (mid ++ [x])).
  rewrite (replace_first_match _ _ _ _ _ (fence_open_length json nl1 c _ Hj Hn)).
  2:{ discriminate. }
  assert (Hd : drop (S (2 + (if json then 4 else 0) + (if nl1 then 1 else 0)))
                 (backticks ++ (if json then js "json" else [])
                    ++ (if nl1 then [10] else [])
                    ++ c :: (mid ++ [x]) ++ (if nl2 then [10] else []) ++ backticks)
               = (c :: mid) ++ x :: (if nl2 then [10] else []) ++ backticks).
  { rewrite <- !app_assoc. destruct json, nl1; reflexivity. }
  rewrite Hd, app_nil_l.
  rewrite (fence_close_keeps (c :: mid) ((if nl2 then [10] else []) ++ backticks) x None
             Hx Hx').
  - reflexivity.
  - destruct nl2; [right|left]; reflexivity.
Qed.

Lemma stripFence_fenced_witness :
  stripFence (js "```json" ++ [10] ++ js "{}" ++ [10] ++ js "```") = js "{}".
Proof.
  apply (stripFence_fenced true true true 123 125 []); discriminate.
Defined.

Lemma fence_close_none (s : jsstring) (prev : option N) :
  ~ (backticks `suffix_of` s) -> replace_first re_fence_close [] prev s = s.
Proof.
  revert prev. induction s as [|c s IH]; intros prev Hs; [reflexivity|].
  simpl. unfold re_fence_close at 1.
  rewrite bool_decide_eq_false_2.
  2:{ intros H. apply Hs. exists [10]. rewrite H. reflexivity. }
  rewrite bool_decide_eq_false_2.
  2:{ intros H. apply Hs. exists []. rewrite H. reflexivity. }
  rewrite IH; [reflexivity|]. intros [k Hk]. apply Hs. exists (c :: k).
  rewrite Hk. reflexivity.
Qed.

(** X19: an answer that neither starts nor ends with three
    backquotes is left as it is. *)
Theorem stripFence_unfenced (content : jsstring) :
  ~ (backticks `prefix_of` content) ->
  ~ (backticks `suffix_of` content) ->
  stripFence content = content.
Proof.
  intros Hp Hs. unfold stripFence.
  assert (Ho : replace_first re_fence_open [] None content = content).
  { destruct content as [|c r]; [reflexivity|]. simpl.
    rewrite bool_decide_eq_false_2.
    - rewrite fence_open_later. reflexivity.
    - intros H. apply Hp. exists (drop 3 (c :: r)).
      rewrite <- H. symmetry. exact (take_drop 3 (c :: r)). }
  rewrite Ho. apply fence_close_none, Hs.
Qed.

Lemma stripFence_unfenced_witness :
  stripFence (js "{`a`: 1}") = js "{`a`: 1}".
Proof.
  apply stripFence_unfenced.
  - intros [k Hk]. discriminate Hk.
  - intros [k Hk]. apply (f_equal (@rev N)) in Hk. rewrite rev_app_distr in Hk.
    discriminate Hk.
Defined.


(** *** The DoorDash store name *)

Lemma store_suffix_spec (s : jsstring) :
  Doordash.store_suffix s = true
  <-> exists digits, s = 95 :: digits /\ digits <> [] /\ forallb is_digit digits = true.
Proof.
  unfold Doordash.store_suffix. split.
  - destruct s as [|u [|d r]]; [discriminate|discriminate|].
    intros H. apply andb_true_iff in H. destruct H as [Hu H].
    apply N.eqb_eq in Hu. subst u.
    exists (d :: r). split; [reflexivity|]. split; [discriminate|exact H].
  - intros (digits & -> & Hd & Hall). destruct digits as [|d r]; [congruence|].
    exact Hall.
Qed.

Lemma lazy_group_spec (rest taken group : jsstring) :
  Doordash.lazy_group taken rest = Some group
  <-> exists more digits,
        rest = more ++ 95 :: digits /\ group = taken ++ more
        /\ Doordash.no_line_terminator more = true
        /\ digits <> [] /\ forallb is_digit digits = true.
Proof.
  revert taken. induction rest as [|c r IH]; intros taken.
  - simpl. split; [discriminate|]. intros (more & digits & H & _).
    destruct more; discriminate.
  - cbn [Doordash.lazy_group].
    destruct (Doordash.store_suffix (c :: r)) eqn:Es.
    + apply store_suffix_spec in Es. destruct Es as (digits & E & Hd & Hall).
      split.
      * intros [= <-]. exists [], digits. rewrite app_nil_r.
        repeat split; assumption.
      * intros (more & digits' & E' & -> & Hm & Hd' & Hall').
        destruct more as [|m more]; [rewrite app_nil_r; reflexivity|].
        exfalso. rewrite E in E'. injection E' as <- E'.
        rewrite E' in Hall. rewrite forallb_app in Hall.
        apply andb_true_iff in Hall. destruct Hall as [_ Hall]. discriminate Hall.
    + destruct (Doordash.is_line_terminator c) eqn:Ec.
      * split; [discriminate|]. intros (more & digits & E & _ & Hm & Hd & Hall).
        destruct more as [|m more].
        -- exfalso. simpl in E.
           assert (Doordash.store_suffix (c :: r) = true); [|congruence].
           apply store_suffix_spec. exists digits. injection E as -> ->.
           repeat split; assumption.
        -- injection E as <- E. simpl in Hm. rewrite Ec in Hm. discriminate.
      * rewrite IH. split.
        -- intros (more & digits & -> & -> & Hm & Hd & Hall).
           exists (c :: more), digits. rewrite <- app_assoc.
           repeat split; try assumption. simpl. rewrite Ec. exact Hm.
        -- intros (more & digits & E & -> & Hm & Hd & Hall).
           destruct more as [|m more].
           ++ exfalso. simpl in E.
              assert (Doordash.store_suffix (c :: r) = true); [|congruence].
              apply store_suffix_spec. exists digits. injection E as -> ->.
              repeat split; assumption.
           ++ injection E as <- ->. exists more, digits. rewrite <- app_assoc.
              repeat split; try assumption. simpl in Hm. rewrite Ec in Hm. exact Hm.
Qed.

Lemma storeMatch_spec (store_id group : jsstring) :
  Doordash.storeMatch store_id = Some group
  <-> exists digits,
        store_id = js "str_" ++ group ++ 95 :: digits
        /\ group <> [] /\ Doordash.no_line_terminator group = true
        /\ digits <> [] /\ forallb is_digit digits = true.
Proof.
  unfold Doordash.storeMatch. split.
  - case_bool_decide as Hp; [|discriminate].
    destruct (drop 4 store_id) as [|e r] eqn:Ed; [discriminate|].
    destruct (Doordash.is_line_terminator e) eqn:Ee; [discriminate|].
    intros Hg. apply lazy_group_spec in Hg.
    destruct Hg as (more & digits & -> & -> & Hm & Hd & Hall).
    exists digits. split.
    + rewrite <- (take_drop 4 store_id), Hp, Ed. reflexivity.
    + split; [discriminate|]. split; [|split; assumption].
      simpl. rewrite Ee. exact Hm.
  - intros (digits & -> & Hg & Hn & Hd & Hall).
    destruct group as [|e more]; [congruence|]. simpl in Hn.
    apply andb_true_iff in Hn. destruct Hn as [He Hm].
    apply negb_true_iff in He.
    rewrite bool_decide_eq_true_2 by reflexivity.
    change (drop 4 (js "str_" ++ (e :: more) ++ 95 :: digits))
      with (e :: more ++ 95 :: digits).
    cbv beta iota. rewrite He. apply lazy_group_spec. exists more, digits.
    repeat split; assumption.
Qed.

(** X20: the store name of a DoorDash order is the middle of a store
    id of the form str_NAME_DIGITS (a name without line break, one digit at
    least), and the store id itself otherwise: whenever the name differs
    from the id, the id has that form. *)
Theorem doordash_store_name (toFixed2 : Q -> jsstring) (order : Doordash.Order) :
  (forall group digits,
     group <> [] -> Doordash.no_line_terminator group = true ->
     digits <> [] -> forallb is_digit digits = true ->
     Doordash.store_id order = js "str_" ++ group ++ 95 :: digits ->
     Doordash.row_store_id (Doordash.formatOrder toFixed2 order) = group)
  /\ (Doordash.row_store_id (Doordash.formatOrder toFixed2 order)
      <> Doordash.store_id order ->
      exists digits,
        Doordash.store_id order
        = js "str_" ++ Doordash.row_store_id (Doordash.formatOrder toFixed2 order)
            ++ 95 :: digits
        /\ digits <> [] /\ forallb is_digit digits = true).
Proof.
  unfold Doordash.formatOrder. cbn [Doordash.row_store_id]. split.
  - intros group digits Hg Hn Hd Hall E.
    rewrite (proj2 (storeMatch_spec (Doordash.store_id order) group)); [reflexivity|].
    exists digits. repeat split; assumption.
  - destruct (Doordash.storeMatch (Doordash.store_id order)) as [group|] eqn:Em;
      [|congruence].
    intros _. apply storeMatch_spec in Em.
    destruct Em as (digits & E & _ & _ & Hd & Hall).
    exists digits. repeat split; assumption.
Qed.


Example doordash_store_names :
  Doordash.storeMatch (js "str_downtown_001") = Some (js "downtown")
  /\ Doordash.storeMatch (js "str_food_court_12") = Some (js "food_court")
  /\ Doordash.storeMatch (js "str_mall_a1") = None
  /\ Doordash.storeMatch (js "store_7") = None.
Proof. repeat split; reflexivity. Qed.

(** *** The Toast store name *)

Lemma underscore_token (t rest : jsstring) (prev : option N) :
  forallb non_space t = true ->
  replace_g re_spaces [95] 0 prev (t ++ rest)
  = t ++ replace_g re_spaces [95] 0 None rest.
Proof.
  revert prev. induction t as [|c t IH]; intros prev Ht.
  - apply replace_spaces_prev.
  - simpl in Ht. apply andb_prop in Ht as [Hc Ht].
    unfold non_space in Hc. apply negb_true_iff in Hc.
    change ((c :: t) ++ rest) with (c :: (t ++ rest)).
    rewrite replace_g_nomatch.
    + rewrite (IH _ Ht). reflexivity.
    + unfold re_spaces. simpl. rewrite Hc. reflexivity.
Qed.

Lemma underscore_run (c : N) (r : jsstring) (prev : option N) :
  is_space c = true ->
  replace_g re_spaces [95] 0 prev (c :: r)
  = 95 :: replace_g re_spaces [95] 0 None (drop (run is_space (c :: r)) (c :: r)).
Proof.
  intros Hc. assert (Hm : exists k, run is_space (c :: r) = S k).
  { simpl. rewrite Hc. eauto. }
  destruct Hm as [k Hk].
  destruct (replace_g_match re_spaces [95] prev c r k) as [prev' E].
  { unfold re_spaces. rewrite Hk. reflexivity. }
  rewrite E, Hk. simpl. f_equal. apply replace_spaces_prev.
Qed.

Lemma underscore_no_space (k : nat) (prev : option N) (s : jsstring) :
  forallb non_space (replace_g re_spaces [95] k prev s) = true.
Proof.
  revert k prev. induction s as [|c s IH]; intros k prev; [reflexivity|].
  destruct k as [|k]; [|apply IH]. cbn [replace_g]. unfold re_spaces at 1.
  cbn [run]. destruct (is_space c) eqn:Hc.
  - change ([95] ++ replace_g re_spaces [95] (run is_space s) (Some c) s)
      with (95 :: replace_g re_spaces [95] (run is_space s) (Some c) s).
    cbn [forallb]. rewrite IH. reflexivity.
  - cbn [forallb]. rewrite IH. unfold non_space. rewrite Hc. reflexivity.
Qed.

Lemma trimEnd_fixed_tail (c : N) (r : jsstring) :
  is_space c = true -> trimEnd (c :: r) = c :: r -> trimEnd r = r /\ r <> [].
Proof.
  intros Hc H. rewrite trimEnd_space in H by exact Hc.
  destruct (trimEnd r) as [|x r'] eqn:E; [discriminate|].
  injection H as <-. split; [reflexivity|discriminate].
Qed.

Lemma trimEnd_fixed_drop (s : jsstring) :
  trimEnd s = s -> s <> [] ->
  trimEnd (drop (run is_space s) s) = drop (run is_space s) s
  /\ drop (run is_space s) s <> [].
Proof.
  induction s as [|c r IH]; intros H Hs; [congruence|].
  cbn [run]. destruct (is_space c) eqn:Hc; [|split; assumption].
  destruct (trimEnd_fixed_tail c r Hc H) as [Hr Hne]. cbn [drop].
  apply IH; assumption.
Qed.

Lemma underscore_words (n : nat) :
  forall s : jsstring,
    (length s <= n)%nat ->
    at_space s = false -> trimEnd s = s ->
    replace_g re_spaces [95] 0 None s = join_with 95 (tokens s).
Proof.
  induction n as [|n IH]; intros s Hlen Hs Ht.
  { destruct s; [discriminate|simpl in Hlen; lia]. }
  destruct (split_token s Hs) as (t & rest & -> & Hne & Hns & Hr & Hl).
  rewrite (underscore_token t rest None Hns), (tokens_app t rest Hne Hns Hr).
  rewrite (trimEnd_token _ _ Hns) in Ht. apply app_inv_head in Ht.
  destruct rest as [|c r].
  - simpl. apply app_nil_r.
  - simpl in Hr.
    destruct (trimEnd_fixed_drop (c :: r) Ht) as [Ht' Hne']; [discriminate|].
    rewrite (underscore_run c r None Hr).
    rewrite <- (tokens_drop_spaces (c :: r)).
    pose proof (run_drop is_space (c :: r)) as Hd.
    assert (Hlen' : (length (drop (run is_space (c :: r)) (c :: r)) <= n)%nat).
    { rewrite length_drop. rewrite length_app in Hlen.
      destruct t; [congruence|]. simpl in Hlen |- *. lia. }
    set (rest' := drop (run is_space (c :: r)) (c :: r)) in *.
    assert (Has : at_space rest' = false).
    { destruct rest' as [|x rest'']; [congruence|]. exact Hd. }
    rewrite (IH _ Hlen' Has Ht').
    destruct (tokens rest') as [|t' ts] eqn:Et; [|reflexivity].
    exfalso.
    destruct (split_token rest' Has) as (t1 & rest1 & E1 & Hne1 & Hns1 & Hr1 & _).
    rewrite E1, (tokens_app t1 rest1 Hne1 Hns1 Hr1) in Et. discriminate.
Qed.

(** X24: the store name of a Toast order is the restaurant guid when
    no location has it; otherwise it is made from the lower-cased name of
    the first such location, has no white space, and, for a name without
    white space at its ends, is its words joined by underscores. *)
Theorem toast_store_name {prims : StringPrims} (restaurantGuid : jsstring)
    (locations : list Toast.Location) :
  match List.find (fun loc => bool_decide (Toast.guid loc = restaurantGuid)) locations with
  | Some location =>
      let lower := toLowerCase (Toast.location_name location) in
      forallb non_space (Toast.getStoreName restaurantGuid locations) = true
      /\ (trim lower = lower ->
          Toast.getStoreName restaurantGuid locations = join_with 95 (tokens lower))
  | None => Toast.getStoreName restaurantGuid locations = restaurantGuid
  end.
Proof.
  unfold Toast.getStoreName.
  destruct (List.find _ locations) as [location|]; [|reflexivity].
  cbv zeta. split; [apply underscore_no_space|].
  intros Htrim.
  set (lower := toLowerCase (Toast.location_name location)) in *.
  destruct (decide (lower = [])) as [->|Hne]; [reflexivity|].
  assert (Hstart : at_space lower = false).
  { destruct lower as [|c r] eqn:El; [congruence|]. simpl.
    destruct (is_space c) eqn:Hc; [|reflexivity]. exfalso.
    apply (f_equal (@length N)) in Htrim. unfold trim, trimStart in Htrim.
    pose proof (trimEnd_length (drop (run is_space (c :: r)) (c :: r))) as Hl.
    rewrite length_drop in Hl. cbn [run] in Hl, Htrim. rewrite Hc in Hl, Htrim.
    simpl in Hl, Htrim. lia. }
  assert (Hend : trimEnd lower = lower).
  { unfold trim, trimStart in Htrim. rewrite run_none in Htrim; [exact Htrim|].
    destruct lower; [exact I|exact Hstart]. }
  apply (underscore_words (length lower)); [lia|exact Hstart|exact Hend].
Qed.

Example toast_store_names :
  Toast.getStoreName (prims:=ascii_prims) (js "g2")
    [ {| Toast.guid := js "g1"; Toast.location_name := js "Mall" |};
      {| Toast.guid := js "g2"; Toast.location_name := js "Downtown  Food Court" |} ]
  = js "downtown_food_court"
  /\ Toast.getStoreName (prims:=ascii_prims) (js "g3")
       [ {| Toast.guid := js "g1"; Toast.location_name := js "Mall" |} ]
     = js "g3".
Proof. split; reflexivity. Qed.

(** *** The Square catalog *)

Lemma slot_set_same (m : Square.CatalogMap) (key : jsstring)
    (entry : Square.CatalogItem) :
  Square.slot (Square.set_property m key entry) key = Some entry.
Proof.
  unfold Square.slot, Square.set_property.
  case_bool_decide; cbn [Square.own Square.proto]; [reflexivity|].
  apply lookup_insert_eq.
Qed.

Lemma slot_set_other (m : Square.CatalogMap) (key key' : jsstring)
    (entry : Square.CatalogItem) :
  key <> key' ->
  Square.slot (Square.set_property m key entry) key' = Square.slot m key'.
Proof.
  intros Hne. unfold Square.slot, Square.set_property.
  destruct (decide (key = js "__proto__")) as [Hk|Hk].
  - rewrite (bool_decide_eq_true_2 _ Hk). cbn [Square.own Square.proto].
    rewrite bool_decide_eq_false_2 by congruence. reflexivity.
  - rewrite (bool_decide_eq_false_2 _ Hk). cbn [Square.own Square.proto].
    case_bool_decide; [reflexivity|]. apply lookup_insert_ne. exact Hne.
Qed.

(** No assignment gives the map an own property [__proto__]. *)
Lemma set_property_own_proto (m : Square.CatalogMap) (key : jsstring)
    (entry : Square.CatalogItem) :
  Square.own m !! js "__proto__" = None ->
  Square.own (Square.set_property m key entry) !! js "__proto__" = None.
Proof.
  intros H. unfold Square.set_property.
  case_bool_decide as Hk; cbn [Square.own]; [exact H|].
  rewrite lookup_insert_ne by exact Hk. exact H.
Qed.

Lemma addVariation_fold (itemData : Square.ItemData) (vs : list Square.Variation)
    (m : Square.CatalogMap) (key : jsstring) :
  (forall entry,
     Square.slot (fold_left (Square.addVariation itemData) vs m) key = Some entry ->
     Square.slot m key = Some entry
     \/ exists variation varData,
          (variation ∈ vs) /\ Square.variation_id variation = key
          /\ Square.item_variation_data variation = Some varData
          /\ entry = Square.entryOf itemData varData)
  /\ (is_Some (Square.slot m key) ->
      is_Some (Square.slot (fold_left (Square.addVariation itemData) vs m) key))
  /\ (forall variation,
        (variation ∈ vs) -> Square.variation_id variation = key ->
        is_Some (Square.item_variation_data variation) ->
        is_Some (Square.slot (fold_left (Square.addVariation itemData) vs m) key))
  /\ (Square.own m !! js "__proto__" = None ->
      Square.own (fold_left (Square.addVariation itemData) vs m) !! js "__proto__" = None).
Proof.
  revert m. induction vs as [|v vs IH]; intros m.
  - simpl. split; [tauto|]. split; [tauto|]. split; [|tauto].
    intros variation H. inversion H.
  - cbn [fold_left].
    destruct (IH (Square.addVariation itemData m v)) as (Ha & Hb & Hc & Hd).
    assert (Hstep : is_Some (Square.slot m key) ->
                    is_Some (Square.slot (Square.addVariation itemData m v) key)).
    { unfold Square.addVariation. destruct (Square.item_variation_data v); [|tauto].
      intros Hm. destruct (decide (Square.variation_id v = key)) as [<-|Hne].
      - rewrite slot_set_same. eauto.
      - rewrite slot_set_other by exact Hne. exact Hm. }
    split; [|split; [|split]].
    + intros entry H. apply Ha in H. destruct H as [H|(variation & varData & Hin & Hr)].
      * unfold Square.addVariation in H.
        destruct (Square.item_variation_data v) as [varData|] eqn:Ev; [|left; exact H].
        destruct (decide (Square.variation_id v = key)) as [Hk|Hne].
        -- rewrite <- Hk, slot_set_same in H. injection H as <-.
           right. exists v, varData. split; [left|]. repeat split; assumption.
        -- rewrite slot_set_other in H by exact Hne. left. exact H.
      * right. exists variation, varData. split; [right; exact Hin|exact Hr].
    + intros Hm. apply Hb, Hstep, Hm.
    + intros variation Hin Hk Hv. apply elem_of_cons in Hin.
      destruct Hin as [->|Hin]; [|eapply Hc; eassumption].
      apply Hb. unfold Square.addVariation. destruct Hv as [varData ->].
      rewrite <- Hk, slot_set_same. eauto.
    + intros Hm. apply Hd. unfold Square.addVariation.
      destruct (Square.item_variation_data v); [|exact Hm].
      apply set_property_own_proto, Hm.
Qed.

Lemma addObject_fold (objs : list Square.CatalogObject)
    (m : Square.CatalogMap) (key : jsstring) :
  (forall entry,
     Square.slot (fold_left Square.addObject objs m) key = Some entry ->
     Square.slot m key = Some entry
     \/ Square.listed {| Square.objects := Some objs |} key entry)
  /\ (is_Some (Square.slot m key) ->
      is_Some (Square.slot (fold_left Square.addObject objs m) key))
  /\ (forall entry, Square.listed {| Square.objects := Some objs |} key entry ->
        is_Some (Square.slot (fold_left Square.addObject objs m) key))
  /\ (Square.own m !! js "__proto__" = None ->
      Square.own (fold_left Square.addObject objs m) !! js "__proto__" = None).
Proof.
  revert m. induction objs as [|obj objs IH]; intros m.
  - simpl. split; [tauto|]. split; [tauto|]. split; [|tauto].
    intros entry (objs & o & d & vs & v & vd & [= <-] & Hin & _). inversion Hin.
  - cbn [fold_left]. destruct (IH (Square.addObject m obj)) as (Ha & Hb & Hc & Hd).
    assert (Hlift : forall entry, Square.listed {| Square.objects := Some objs |} key entry ->
                      Square.listed {| Square.objects := Some (obj :: objs) |} key entry).
    { intros entry (objs' & o & d & vs & v & vd & [= <-] & Hin & Hr).
      exists (obj :: objs), o, d, vs, v, vd. split; [reflexivity|].
      split; [right; exact Hin|exact Hr]. }
    assert (Hobj : forall itemData vs,
              Square.type obj = js "ITEM" -> Square.item_data obj = Some itemData ->
              Square.variations itemData = Some vs ->
              Square.addObject m obj = fold_left (Square.addVariation itemData) vs m).
    { intros itemData vs Ht Hi Hv. unfold Square.addObject.
      rewrite bool_decide_eq_true_2 by exact Ht. rewrite Hi, Hv.
      destruct vs; reflexivity. }
    assert (Hstep : is_Some (Square.slot m key) ->
                    is_Some (Square.slot (Square.addObject m obj) key)).
    { unfold Square.addObject. case_bool_decide; [|tauto].
      destruct (Square.item_data obj) as [itemData|]; [|tauto].
      destruct (Square.variations itemData) as [[|v vs]|]; try tauto.
      apply (addVariation_fold itemData (v :: vs) m key). }
    split; [|split; [|split]].
    + intros entry H. apply Ha in H. destruct H as [H|H]; [|right; apply Hlift, H].
      unfold Square.addObject in H. case_bool_decide as Ht; [|left; exact H].
      destruct (Square.item_data obj) as [itemData|] eqn:Ed; [|left; exact H].
      destruct (Square.variations itemData) as [[|v vs]|] eqn:Ev;
        try (left; exact H).
      apply (addVariation_fold itemData (v :: vs) m key) in H.
      destruct H as [H|(variation & varData & Hin & Hk & Hvd & He)]; [left; exact H|].
      right. exists (obj :: objs), obj, itemData, (v :: vs), variation, varData.
      split; [reflexivity|]. split; [left|]. repeat split; assumption.
    + intros Hm. apply Hb, Hstep, Hm.
    + intros entry (objs' & o & d & vs & v & vd & [= <-] & Hin & Ht & Hi & Hv & Hvin
                    & Hk & Hvd & He).
      apply elem_of_cons in Hin. destruct Hin as [->|Hin].
      * apply Hb. rewrite (Hobj d vs Ht Hi Hv).
        apply (addVariation_fold d vs m key) with (variation := v); [exact Hvin|exact Hk|].
        rewrite Hvd. eauto.
      * eapply Hc. exists objs, o, d, vs, v, vd. split; [reflexivity|].
        split; [exact Hin|]. repeat split; eassumption.
    + intros Hm. apply Hd. unfold Square.addObject. case_bool_decide; [|exact Hm].
      destruct (Square.item_data obj) as [itemData|]; [|exact Hm].
      destruct (Square.variations itemData) as [[|v vs]|]; try exact Hm.
      apply (addVariation_fold itemData (v :: vs) m (js "__proto__")), Hm.
Qed.

Lemma buildCatalogMap_slots (catalogData : Square.CatalogData) (key : jsstring) :
  (forall entry, Square.slot (Square.buildCatalogMap catalogData) key = Some entry ->
     Square.listed catalogData key entry)
  /\ ((exists entry, Square.listed catalogData key entry)
      -> is_Some (Square.slot (Square.buildCatalogMap catalogData) key))
  /\ Square.own (Square.buildCatalogMap catalogData) !! js "__proto__" = None.
Proof.
  unfold Square.buildCatalogMap.
  destruct catalogData as [[objs|]]; cbn [Square.objects default].
  - destruct (addObject_fold objs Square.empty_object key) as (Ha & _ & Hc & Hd).
    split; [|split].
    + intros entry H. apply Ha in H. destruct H as [H|H]; [|exact H].
      unfold Square.slot, Square.empty_object in H. cbn [Square.own Square.proto] in H.
      case_bool_decide; [discriminate|]. rewrite lookup_empty in H. discriminate.
    + intros [entry H]. eapply Hc, H.
    + apply Hd. apply lookup_empty.
  - split; [|split].
    + intros entry H. unfold Square.slot in H. simpl in H.
      case_bool_decide; [discriminate|]. rewrite lookup_empty in H. discriminate.
    + intros (entry & objs & o & d & vs & v & vd & H & _). discriminate.
    + apply lookup_empty.
Qed.

(** X22: the catalog map of a catalog. An own property of the map
    comes from a variation with that id and with variation data, of an
    object of type ITEM with item data, and carries the name and category of
    the item; every id of such a variation other than [__proto__] is an own
    property. A variation with the id [__proto__] gives no property: its
    entry becomes the prototype of the map, and the map has another
    prototype than [Object.prototype] only this way. *)
Theorem catalog_map_entries (catalogData : Square.CatalogData) (key : jsstring) :
  (forall entry, Square.own (Square.buildCatalogMap catalogData) !! key = Some entry ->
     key <> js "__proto__" /\ Square.listed catalogData key entry)
  /\ ((exists entry, Square.listed catalogData key entry) -> key <> js "__proto__" ->
      is_Some (Square.own (Square.buildCatalogMap catalogData) !! key))
  /\ (forall entry, Square.proto (Square.buildCatalogMap catalogData) = Some entry ->
        Square.listed catalogData (js "__proto__") entry)
  /\ ((exists entry, Square.listed catalogData (js "__proto__") entry) ->
      is_Some (Square.proto (Square.buildCatalogMap catalogData))).
Proof.
  destruct (buildCatalogMap_slots catalogData key) as (Ha & Hb & Hn).
  destruct (buildCatalogMap_slots catalogData (js "__proto__")) as (Hpa & Hpb & _).
  unfold Square.slot in Ha, Hb, Hpa, Hpb.
  rewrite bool_decide_eq_true_2 in Hpa, Hpb by reflexivity.
  split; [|split; [|split]].
  - intros entry H.
    assert (Hk : key <> js "__proto__") by (intros ->; rewrite Hn in H; discriminate).
    split; [exact Hk|]. apply Ha. rewrite bool_decide_eq_false_2 by exact Hk. exact H.
  - intros Hl Hk. rewrite bool_decide_eq_false_2 in Hb by exact Hk. apply Hb, Hl.
  - exact Hpa.
  - exact Hpb.
Qed.

(** X22 at a catalog whose variation has the id [__proto__]: the map has
    no property of its own; the entry is its prototype, found under
    [__proto__], and its name and its price are found under [name] and
    [price]. *)
Lemma catalog_map_entries_witness :
  Square.own (Square.buildCatalogMap proto_catalog) = ∅
  /\ Square.proto (Square.buildCatalogMap proto_catalog) = Some mocha_entry
  /\ Square.listed proto_catalog (js "__proto__") mocha_entry
  /\ Square.get_property (Square.buildCatalogMap proto_catalog) (js "__proto__")
     = Square.js_entry mocha_entry
  /\ Square.get_property (Square.buildCatalogMap proto_catalog) (js "name")
     = Square.js_string (js "Mocha")
  /\ Square.get_property (Square.buildCatalogMap proto_catalog) (js "price")
     = Square.js_number 450%Q
  /\ Square.get_property (Square.buildCatalogMap proto_catalog) (js "V1")
     = Square.js_undefined.
Proof.
  destruct (catalog_map_entries proto_catalog (js "__proto__")) as (_ & _ & Hp & _).
  split; [reflexivity|]. split; [reflexivity|].
  split; [apply Hp; reflexivity|].
  repeat split; vm_compute; reflexivity.
Defined.

(** A read of a map with the prototype [Object.prototype], off the names
    of the prototype chain, gives the own property or [undefined]. *)
Lemma get_property_plain (m : Square.CatalogMap) (key : jsstring) :
  Square.proto m = None ->
  key ∉ Square.inherited_keys ->
  Square.get_property m key
  = match Square.own m !! key with
    | Some entry => Square.js_entry entry
    | None => Square.js_undefined
    end.
Proof.
  intros Hp Hk. unfold Square.get_property. destruct (Square.own m !! key); [reflexivity|].
  unfold Square.inherited_keys in Hk.
  rewrite bool_decide_eq_false_2 by (intros ->; apply Hk; left).
  rewrite Hp. unfold Square.object_prototype_get.
  rewrite bool_decide_eq_false_2 by (intros ->; apply Hk; right; left).
  rewrite bool_decide_eq_false_2; [reflexivity|].
  intros Hin. apply Hk. right. right. exact Hin.
Qed.


(** *** The loops over the items of an order *)

Lemma store_le_refl (st : Store) : store_le st st.
Proof.
  intros ty. split; [exists []; rewrite app_nil_r; reflexivity|tauto].
Qed.

Lemma store_le_trans (a b c : Store) : store_le a b -> store_le b c -> store_le a c.
Proof.
  intros Hab Hbc ty. destruct (Hab ty) as [[n1 E1] M1]. destruct (Hbc ty) as [[n2 E2] M2].
  split.
  - exists (n1 ++ n2). rewrite E2, E1, app_assoc. reflexivity.
  - intros k row H. apply M2, M1, H.
Qed.

Lemma store_le_ids (st st' : Store) (ty : EntityType) (i : nat) :
  store_le st st' ->
  i ∈ id <$> canonicals (tables_of st ty) -> i ∈ id <$> canonicals (tables_of st' ty).
Proof.
  intros Hle Hi. destruct (Hle ty) as [[new E] _]. rewrite E, fmap_app.
  apply elem_of_app. left. exact Hi.
Qed.

Section Loops.
Context {prims : StringPrims}.
Variable faults : nat -> Faults.

Lemma resolve_store_le (f : Faults) (st : Store) (rawName : option jsstring)
    (ty : EntityType) (th : option Q) :
  store_le st (snd (resolveCanonical f st rawName ty th)).
Proof.
  destruct (resolve_step f st rawName ty th) as (Hframe & (new & Hnew & _) & Hkeep & _).
  intros ty'. destruct (decide (ty' = ty)) as [->|Hne].
  - split; [exists new; exact Hnew|exact Hkeep].
  - rewrite (Hframe ty' Hne). split; [exists []; rewrite app_nil_r; reflexivity|tauto].
Qed.

Lemma resolve_refs_all (f : Faults) (st : Store) (rawName : option jsstring)
    (ty : EntityType) (th : option Q) :
  (forall ty', refs_ok (tables_of st ty')) ->
  (forall ty', refs_ok (tables_of (snd (resolveCanonical f st rawName ty th)) ty'))
  /\ forall i, fst (resolveCanonical f st rawName ty th) = Returned (Some i) ->
       i ∈ id <$> canonicals (tables_of (snd (resolveCanonical f st rawName ty th)) ty).
Proof.
  intros Hok. destruct (resolve_refs f st rawName ty th (Hok ty)) as [Hr Hi].
  split; [|exact Hi]. intros ty'. destruct (decide (ty' = ty)) as [->|Hne]; [exact Hr|].
  destruct (resolve_step f st rawName ty th) as (Hframe & _).
  rewrite (Hframe ty' Hne). apply Hok.
Qed.

Lemma resolve_world (rawName : option jsstring) (ty : EntityType) (w : World) :
  resolve faults rawName ty w
  = (fst (resolveCanonical (faults (resolutions w)) (store w) rawName ty None),
     {| store := snd (resolveCanonical (faults (resolutions w)) (store w) rawName ty None);
        resolutions := S (resolutions w) |}).
Proof. reflexivity. Qed.

Lemma resolveRows_le (steps : list Step) (w w' : World)
    (r : list OrderItemRow + Failure) :
  resolveRows faults steps w = (r, w') -> store_le (store w) (store w').
Proof.
  revert w w' r. induction steps as [|s steps IH]; intros w w' r.
  - simpl. intros [= _ <-]. apply store_le_refl.
  - cbn [resolveRows]. rewrite resolve_world.
    pose proof (resolve_store_le (faults (resolutions w)) (store w) (step_item s) item None)
      as H1.
    destruct (fst (resolveCanonical (faults (resolutions w)) (store w) (step_item s)
                     item None)) as [a|e].
    2:{ intros [= _ <-]. exact H1. }
    destruct (step_category s) as [c|].
    2:{ intros [= _ <-]. exact H1. }
    rewrite resolve_world. cbn [store resolutions].
    set (w1 := snd (resolveCanonical (faults (resolutions w)) (store w) (step_item s)
                      item None)) in *.
    pose proof (resolve_store_le (faults (S (resolutions w))) w1 c category None) as H2.
    destruct (fst (resolveCanonical (faults (S (resolutions w))) w1 c category None))
      as [b|e].
    2:{ intros [= _ <-]. eapply store_le_trans; eassumption. }
    destruct (resolveRows faults steps _) as [[rows|e] w3] eqn:Er;
      intros [= _ <-]; apply IH in Er; cbn [store] in Er;
      eapply store_le_trans; [|exact Er| |exact Er];
      eapply store_le_trans; eassumption.
Qed.

(** The rows of a loop that ends well: one per turn, with ids of
    canonical rows. *)
Lemma resolveRows_refs (steps : list Step) (w w' : World) (rows : list OrderItemRow) :
  (forall a b s, s ∈ steps ->
     canonical_item_id (step_row s a b) = a
     /\ canonical_category_id (step_row s a b) = b) ->
  (forall ty, refs_ok (tables_of (store w) ty)) ->
  resolveRows faults steps w = (inl rows, w') ->
  Forall2 (fun s row => (exists a b, row = step_row s a b) /\ row_refs_ok (store w') row)
    steps rows
  /\ resolutions w' = (resolutions w + 2 * length steps)%nat.
Proof.
  revert w w' rows. induction steps as [|s steps IH]; intros w w' rows Hrow Hok.
  - simpl. intros [= <- <-]. split; [constructor|lia].
  - cbn [resolveRows]. rewrite resolve_world.
    destruct (resolve_refs_all (faults (resolutions w)) (store w) (step_item s) item None Hok)
      as [Hok1 Hi1].
    destruct (fst (resolveCanonical (faults (resolutions w)) (store w) (step_item s)
                     item None)) as [a|e]; [|discriminate].
    destruct (step_category s) as [c|]; [|discriminate].
    rewrite resolve_world. cbn [store resolutions].
    set (w1 := snd (resolveCanonical (faults (resolutions w)) (store w) (step_item s)
                      item None)) in *.
    destruct (resolve_refs_all (faults (S (resolutions w))) w1 c category None Hok1)
      as [Hok2 Hi2].
    pose proof (resolve_store_le (faults (S (resolutions w))) w1 c category None) as Hle2.
    destruct (fst (resolveCanonical (faults (S (resolutions w))) w1 c category None))
      as [b|e]; [|discriminate].
    set (w2 := snd (resolveCanonical (faults (S (resolutions w))) w1 c category None)) in *.
    destruct (resolveRows faults steps _) as [[rows'|e] w3] eqn:Er; [|discriminate].
    intros [= <- <-].
    pose proof (resolveRows_le _ _ _ _ Er) as Hle3. cbn [store] in Hle3.
    destruct (IH {| store := w2; resolutions := S (S (resolutions w)) |} w3 rows'
                (fun a b s Hs => Hrow a b s (list_elem_of_further _ _ _ Hs)) Hok2 Er)
      as [Hrows Hn].
    split.
    + constructor; [|exact Hrows]. split; [eauto|].
      destruct (Hrow a b s (list_elem_of_here _ _)) as [Ea Eb].
      split; intros i Hi.
      * rewrite Ea in Hi. subst a.
        apply (store_le_ids w1 (store w3) item); [|apply Hi1; reflexivity].
        eapply store_le_trans; eassumption.
      * rewrite Eb in Hi. subst b.
        apply (store_le_ids w2 (store w3) category); [exact Hle3|].
        apply Hi2. reflexivity.
    + rewrite Hn. cbn [resolutions length]. lia.
Qed.

Lemma resolve_nonempty (f : Faults) (st : Store) (raw : jsstring) (ty : EntityType)
    (th : option Q) (a : option nat) :
  raw <> [] ->
  fst (resolveCanonical f st (Some raw) ty th) = Returned a -> is_Some a.
Proof.
  intros Hraw.
  destruct (resolve_cases f st raw ty th Hraw)
    as [(i & _ & E)|[(_ & best & score & _ & _ & E)
       |[(_ & _ & e & _ & E)|(_ & _ & new & t1 & _ & E)]]];
    rewrite E; cbn [fst]; intros [= <-]; eauto.
Qed.

(** The rows of a loop that ends well on a store that answers: the item
    ids are the ones of the mapping table. *)
Lemma resolveRows_mapped (steps : list Step) (w w' : World) (rows : list OrderItemRow) :
  mappings_healthy faults ->
  (forall a b s, s ∈ steps ->
     canonical_item_id (step_row s a b) = a /\ name (step_row s a b) = step_item s) ->
  resolveRows faults steps w = (inl rows, w') ->
  Forall (row_item_mapped (store w')) rows.
Proof.
  intros Hh. revert w w' rows. induction steps as [|s steps IH]; intros w w' rows Hrow.
  - simpl. intros [= <- <-]. constructor.
  - cbn [resolveRows]. rewrite resolve_world.
    destruct (fst (resolveCanonical (faults (resolutions w)) (store w) (step_item s)
                     item None)) as [a|e] eqn:Ea; [|discriminate].
    destruct (step_category s) as [c|]; [|discriminate].
    rewrite resolve_world. cbn [store resolutions].
    set (w1 := snd (resolveCanonical (faults (resolutions w)) (store w) (step_item s)
                      item None)) in *.
    pose proof (resolve_store_le (faults (S (resolutions w))) w1 c category None) as Hle2.
    destruct (fst (resolveCanonical (faults (S (resolutions w))) w1 c category None))
      as [b|e]; [|discriminate].
    destruct (resolveRows faults steps _) as [[rows'|e] w3] eqn:Er; [|discriminate].
    intros [= <- <-].
    pose proof (resolveRows_le _ _ _ _ Er) as Hle3. cbn [store] in Hle3.
    constructor.
    + destruct (Hrow a b s (list_elem_of_here _ _)) as [Eid En].
      intros n Hn Hne. rewrite En in Hn. rewrite Eid.
      subst w1. rewrite Hn in *.
      destruct (resolve_nonempty _ _ _ _ _ _ Hne Ea) as [i ->].
      split; [eauto|]. destruct (Hh (resolutions w)) as [Hl Hf].
      pose proof (resolve_records (faults (resolutions w)) (store w) n item None i
                    Hne Hl Hf Ea) as Hm.
      set (w1 := snd (resolveCanonical (faults (resolutions w)) (store w) (Some n)
                        item None)) in *.
      destruct (mappings (tables_of w1 item) !! normalizeChain n) as [row|] eqn:El;
        [|discriminate].
      assert (Hle : store_le w1 (store w3)) by (eapply store_le_trans; eassumption).
      destruct (Hle item) as [_ Hkeep]. apply Hkeep in El.
      change (item_tables (store w3)) with (tables_of (store w3) item).
      rewrite El. symmetry. exact Hm.
    + eapply IH; [|exact Er]. intros a' b' s' Hs'. apply Hrow. right. exact Hs'.
Qed.

End Loops.


Lemma doordash_loop {prims : StringPrims} (faults : nat -> Faults)
    (toFixed2 : Q -> jsstring) (orderId : jsstring) (items : list Doordash.Item)
    (w : World) :
  Doordash.formatOrderItems faults toFixed2 orderId items w
  = resolveRows faults (map (Doordash.stepOf toFixed2 orderId) items) w.
Proof.
  revert w. induction items as [|it items IH]; intros w; [reflexivity|].
  cbn [Doordash.formatOrderItems map resolveRows Doordash.stepOf step_item
       step_category step_row].
  destruct (resolve faults (Doordash.raw_name it) item w) as [[a|e] w1]; [|reflexivity].
  destruct (resolve faults (Doordash.raw_category it) category w1) as [[b|e] w2];
    [|reflexivity].
  rewrite IH. reflexivity.
Qed.

(** X21: when the items of a DoorDash order are formatted without a
    throw, there is one row per item, in order, with the order id, the item
    id and the name of the item; two resolutions are made per item; and on a
    store whose mapping rows point to canonical rows, the canonical ids of
    the rows are ids of canonical rows of the store, whatever the store
    answers. *)
Theorem doordash_rows {prims : StringPrims} (faults : nat -> Faults)
    (toFixed2 : Q -> jsstring) (orderId : jsstring) (items : list Doordash.Item)
    (w w' : World) (rows : list OrderItemRow) :
  (forall ty, refs_ok (tables_of (store w) ty)) ->
  Doordash.formatOrderItems faults toFixed2 orderId items w = (inl rows, w') ->
  Forall2 (fun it row =>
             order_id row = orderId /\ item_id row = Doordash.raw_item_id it
             /\ name row = Doordash.raw_name it
             /\ row_refs_ok (store w') row)
          items rows
  /\ resolutions w' = (resolutions w + 2 * length items)%nat.
Proof.
  intros Hok H. rewrite doordash_loop in H.
  apply resolveRows_refs in H; [|clear H|exact Hok].
  - destruct H as [H Hn]. rewrite length_map in Hn. split; [|exact Hn].
    apply Forall2_fmap_l in H. eapply Forall2_impl; [exact H|].
    intros it row [(a & b & ->) Hr]. repeat split; try reflexivity; apply Hr.
  - intros a b s Hs. apply list_elem_of_fmap in Hs. destruct Hs as (it & -> & _).
    split; reflexivity.
Qed.

Lemma doordash_rows_witness :
  let r := Doordash.formatOrderItems (prims:=ascii_prims) always_answers no_amount
             (js "D1") latte_and_mocha (world_of latte_store) in
  r = (inl (rows_of r), snd r)
  /\ map canonical_item_id (rows_of r) = [Some 1%nat; Some 2%nat]
  /\ map canonical_category_id (rows_of r) = [Some 1%nat; Some 1%nat]
  /\ Forall2 (fun it row =>
                order_id row = js "D1" /\ item_id row = Doordash.raw_item_id it
                /\ name row = Doordash.raw_name it
                /\ row_refs_ok (store (snd r)) row)
             latte_and_mocha (rows_of r)
  /\ resolutions (snd r) = 4%nat.
Proof.
  intros r.
  assert (E : r = (inl (rows_of r), snd r)) by (vm_compute; reflexivity).
  split; [exact E|]. split; [vm_compute; reflexivity|].
  split; [vm_compute; reflexivity|].
  apply (doordash_rows (prims:=ascii_prims) always_answers no_amount (js "D1")
           latte_and_mocha (world_of latte_store) (snd r) (rows_of r)).
  - intros ty k row Hk. destruct ty; simpl in Hk; rewrite lookup_empty in Hk;
      discriminate.
  - exact E.
Defined.

Lemma toast_loop {prims : StringPrims} (faults : nat -> Faults)
    (toFixed2 : Q -> jsstring) (orderId : jsstring) (selections : list Toast.Selection)
    (w : World) :
  Toast.formatOrderItems faults toFixed2 orderId selections w
  = resolveRows faults (map (Toast.stepOf toFixed2 orderId) selections) w.
Proof.
  revert w. induction selections as [|sel selections IH]; intros w; [reflexivity|].
  cbn [Toast.formatOrderItems map resolveRows Toast.stepOf step_item
       step_category step_row].
  destruct (resolve faults (Toast.displayName sel) item w) as [[a|e] w1]; [|reflexivity].
  fold (Toast.categoryNameOf sel).
  destruct (resolve faults (Toast.categoryNameOf sel) category w1) as [[b|e] w2];
    [|reflexivity].
  rewrite IH. reflexivity.
Qed.

(** X25: on a store that answers every lookup and takes every
    mapping, the canonical item id of each row of a Toast order is the one
    the mapping table holds for the normalized name of the row at the end;
    so two selections of the order whose names have the same normalized form
    get the same canonical item id. *)
Theorem toast_same_name_same_id {prims : StringPrims} (faults : nat -> Faults)
    (toFixed2 : Q -> jsstring) (orderId : jsstring) (selections : list Toast.Selection)
    (w w' : World) (rows : list OrderItemRow) :
  mappings_healthy faults ->
  Toast.formatOrderItems faults toFixed2 orderId selections w = (inl rows, w') ->
  Forall (row_item_mapped (store w')) rows
  /\ forall r1 r2 n1 n2,
       r1 ∈ rows -> r2 ∈ rows ->
       name r1 = Some n1 -> name r2 = Some n2 -> n1 <> [] -> n2 <> [] ->
       normalizeChain n1 = normalizeChain n2 ->
       canonical_item_id r1 = canonical_item_id r2
       /\ is_Some (canonical_item_id r1).
Proof.
  intros Hh H. rewrite toast_loop in H.
  apply resolveRows_mapped in H; [|exact Hh|].
  - split; [exact H|]. intros r1 r2 n1 n2 H1 H2 E1 E2 Hn1 Hn2 En.
    rewrite Forall_forall in H.
    destruct (H r1 H1 n1 E1 Hn1) as [Hs1 Hm1].
    destruct (H r2 H2 n2 E2 Hn2) as [_ Hm2].
    split; [|exact Hs1]. rewrite Hm1, Hm2, En. reflexivity.
  - intros a b s Hs. apply list_elem_of_fmap in Hs. destruct Hs as (sel & -> & _).
    split; reflexivity.
Qed.

Lemma toast_same_name_same_id_witness :
  let r := Toast.formatOrderItems (prims:=ascii_prims) always_answers no_amount
             (js "T1") tea_twice (world_of latte_store) in
  r = (inl (rows_of r), snd r)
  /\ map canonical_item_id (rows_of r) = [Some 2%nat; Some 3%nat; Some 2%nat]
  /\ Forall (row_item_mapped (prims:=ascii_prims) (store (snd r))) (rows_of r).
Proof.
  intros r.
  assert (E : r = (inl (rows_of r), snd r)) by (vm_compute; reflexivity).
  split; [exact E|]. split; [vm_compute; reflexivity|].
  apply (toast_same_name_same_id (prims:=ascii_prims) always_answers no_amount (js "T1")
           tea_twice (world_of latte_store) (snd r) (rows_of r)).
  - intros k. split; reflexivity.
  - exact E.
Defined.

(** X23: when the line items of a Square order are formatted without
    a throw, the rows are those of the line items whose read of the catalog
    map is truthy, in order; each row has the [name] of the value read and
    the category name looked up for its [category_id]. On a map with the
    prototype [Object.prototype], a line item whose id is none of the names
    of the prototype chain has a row exactly when the id is an own
    property, and the row has the name of that entry: an unknown or missing
    id is left out. *)
Theorem square_rows {prims : StringPrims} (faults : nat -> Faults)
    (toFixed2 : Q -> jsstring) (orderId : jsstring)
    (lineItems : option (list Square.LineItem))
    (catalogMap : Square.CatalogMap) (catalogData : Square.CatalogData)
    (w w' : World) (rows : list OrderItemRow) :
  Square.formatOrderItems faults toFixed2 orderId lineItems catalogMap catalogData w
  = (inl rows, w') ->
  Forall2 (fun lineItem row =>
             let catalogItem :=
               Square.get_property catalogMap (Square.catalogKey lineItem) in
             item_id row = Square.uid lineItem
             /\ name row = Square.name_of catalogItem
             /\ Square.getCategoryName (Square.category_id_of catalogItem) catalogData
                = Some (row_category row)
             /\ (Square.proto catalogMap = None ->
                 Square.catalogKey lineItem ∉ Square.inherited_keys ->
                 exists entry,
                   Square.own catalogMap !! Square.catalogKey lineItem = Some entry
                   /\ name row = Some (Square.name entry)))
          (List.filter (Square.inCatalog catalogMap) (default [] lineItems)) rows
  /\ (Square.proto catalogMap = None ->
      forall lineItem,
        Square.catalogKey lineItem ∉ Square.inherited_keys ->
        Square.inCatalog catalogMap lineItem
        = bool_decide (is_Some (Square.own catalogMap !! Square.catalogKey lineItem))).
Proof.
  intros H. split.
  - revert H. unfold Square.formatOrderItems. generalize (default [] lineItems) as items.
    intros items. revert w w' rows.
    induction items as [|li items IH]; intros w w' rows.
    + simpl. intros [= <- <-]. constructor.
    + cbn [Square.formatOrderItemsLoop List.filter]. cbv zeta.
      unfold Square.inCatalog at 1.
      destruct (Square.is_truthy (Square.get_property catalogMap (Square.catalogKey li)))
        eqn:Et; cbn [negb]; [|apply IH].
      destruct (resolve faults _ item w) as [[a|e] w1]; [|discriminate].
      destruct (Square.getCategoryName _ catalogData) as [c|] eqn:Ec; [|discriminate].
      destruct (resolve faults c category w1) as [[b|e] w2]; [|discriminate].
      destruct (Square.formatOrderItemsLoop faults toFixed2 orderId items catalogMap
                  catalogData w2) as [[rows'|e] w3] eqn:Er; [|discriminate].
      intros [= <- <-]. constructor; [|eapply IH, Er].
      split; [reflexivity|]. split; [reflexivity|]. split; [exact Ec|].
      intros Hp Hk. cbn [name]. rewrite (get_property_plain _ _ Hp Hk) in Et |- *.
      destruct (Square.own catalogMap !! Square.catalogKey li) as [entry|];
        [|discriminate]. exists entry. split; reflexivity.
  - intros Hp li Hk. unfold Square.inCatalog. rewrite (get_property_plain _ _ Hp Hk).
    destruct (Square.own catalogMap !! Square.catalogKey li) as [entry|];
      cbn [Square.is_truthy].
    + symmetry. apply bool_decide_eq_true_2. eauto.
    + symmetry. apply bool_decide_eq_false_2. intros [x Hx]. discriminate.
Qed.

(** X23 at five line items against the catalog of [Latte]: the unknown and
    the missing id are left out, the known one gives the row of [Latte];
    [constructor] reads the function [Object] and gives a row of that name,
    and [__proto__] reads [Object.prototype] and gives a row without a
    name. *)
Lemma square_rows_witness :
  let catalogMap := Square.buildCatalogMap latte_catalog in
  let r := Square.formatOrderItems (prims:=ascii_prims) always_answers no_amount
             (js "S1") five_lines catalogMap latte_catalog (world_of latte_store) in
  r = (inl (rows_of r), snd r)
  /\ map item_id (rows_of r) = [js "u2"; js "u4"; js "u5"]
  /\ map name (rows_of r) = [Some (js "Latte"); Some (js "Object"); None]
  /\ Forall2 (fun lineItem row =>
                let catalogItem :=
                  Square.get_property catalogMap (Square.catalogKey lineItem) in
                item_id row = Square.uid lineItem
                /\ name row = Square.name_of catalogItem
                /\ Square.getCategoryName (Square.category_id_of catalogItem)
                     latte_catalog = Some (row_category row)
                /\ (Square.proto catalogMap = None ->
                    Square.catalogKey lineItem ∉ Square.inherited_keys ->
                    exists entry,
                      Square.own catalogMap !! Square.catalogKey lineItem = Some entry
                      /\ name row = Some (Square.name entry)))
             (List.filter (Square.inCatalog catalogMap) (default [] five_lines))
             (rows_of r).
Proof.
  intros catalogMap r.
  assert (E : r = (inl (rows_of r), snd r)) by (vm_compute; reflexivity).
  split; [exact E|]. split; [vm_compute; reflexivity|].
  split; [vm_compute; reflexivity|].
  exact (proj1 (square_rows (prims:=ascii_prims) always_answers no_amount (js "S1")
                  five_lines catalogMap latte_catalog
                  (world_of latte_store) (snd r) (rows_of r) E)).
Defined.

End IngestFacts.
